(** * CASM configuration: symmetry-orbit core

    A shallow embedding of
      - [casm/configuration/clusterography/orbits.cc]
      - [casm/configuration/SupercellSymInfo.cc]
      - [casm/configuration/canonical_form.cc]
    together with the properties stated about them.

    Integers ([Index], the components of a [UnitCell]) are C++ [long]; they
    are modelled by [Z].  Signed overflow is undefined in the source and is
    not modelled. *)

From Stdlib Require Import ZArith Lia String.
From stdpp Require Import base decidable numbers option list sorting gmap.

#[local] Open Scope Z_scope.

(** ** Fallible code

    [std::vector::operator[]] out of range, a failed [assert] and a thrown
    [std::runtime_error] all end the computation; they are the three ways a
    function of the core can fail. *)

Inductive error : Type :=
  | OutOfRange
  | AssertionFailure
  | RuntimeError (msg : string).

Inductive result (A : Type) : Type :=
  | Ok (a : A)
  | Err (e : error).

Arguments Ok {A} a.
Arguments Err {A} e.

#[global] Instance result_ret : MRet result := fun A a => Ok a.

#[global] Instance result_bind : MBind result := fun A B k r =>
  match r with
  | Ok a => k a
  | Err e => Err e
  end.

(** [for (Index i = 0; i < n; ++i)] visits [0; 1; ...; n-1]. *)
Definition index_range (n : Z) : list Z := Z.of_nat <$> seq 0 (Z.to_nat n).

(** [v[ix]] on a [std::vector]; reading outside the vector is undefined in
    the source and is reported here. *)
Definition vector_at {A} (v : list A) (ix : Z) : result A :=
  if decide (0 <= ix) then
    match v !! Z.to_nat ix with
    | Some x => Ok x
    | None => Err OutOfRange
    end
  else Err OutOfRange.

(** * The crystallography value layer *)

Module xtal.

(** [xtal::UnitCell]: an integer 3-vector. *)
Record UnitCell : Type := mkUnitCell { uc_i : Z; uc_j : Z; uc_k : Z }.

Definition uc_zero : UnitCell := mkUnitCell 0 0 0.

Definition uc_add (u v : UnitCell) : UnitCell :=
  mkUnitCell (uc_i u + uc_i v) (uc_j u + uc_j v) (uc_k u + uc_k v).

Definition uc_sub (u v : UnitCell) : UnitCell :=
  mkUnitCell (uc_i u - uc_i v) (uc_j u - uc_j v) (uc_k u - uc_k v).

(** [xtal::UnitCellCoord]: a sublattice index and a unit cell. *)
Record UnitCellCoord : Type :=
  mkUnitCellCoord { sublattice : Z; unitcell : UnitCell }.

(** [UnitCellCoord::operator+(UnitCell)] and [operator-(UnitCell)]. *)
Definition ucc_add (c : UnitCellCoord) (t : UnitCell) : UnitCellCoord :=
  mkUnitCellCoord (sublattice c) (uc_add (unitcell c) t).

Definition ucc_sub (c : UnitCellCoord) (t : UnitCell) : UnitCellCoord :=
  mkUnitCellCoord (sublattice c) (uc_sub (unitcell c) t).

#[global] Instance UnitCell_eq_dec : EqDecision UnitCell.
Proof. solve_decision. Defined.

#[global] Instance UnitCellCoord_eq_dec : EqDecision UnitCellCoord.
Proof. solve_decision. Defined.

(** Modelled from the spec: [UnitCellCoord::operator<], the order that
    [IntegralCluster::sort] uses on the elements of a cluster, is
    "lexicographic on (b, i, j, k)". *)
Definition ucc_ltb (c d : UnitCellCoord) : bool :=
  (sublattice c <? sublattice d) ||
  ((sublattice c =? sublattice d) &&
   ((uc_i (unitcell c) <? uc_i (unitcell d)) ||
    ((uc_i (unitcell c) =? uc_i (unitcell d)) &&
     ((uc_j (unitcell c) <? uc_j (unitcell d)) ||
      ((uc_j (unitcell c) =? uc_j (unitcell d)) &&
       (uc_k (unitcell c) <? uc_k (unitcell d))))))).

(** [c <= d] is [!(d < c)], the relation a sort by [operator<] establishes
    between neighbours. *)
Definition ucc_le (c d : UnitCellCoord) : Prop := ucc_ltb d c = false.

#[global] Instance ucc_le_dec c d : Decision (ucc_le c d).
Proof. unfold ucc_le. apply _. Defined.

(** [xtal::UnitCellCoordRep]: the core only ever applies a representation to
    a site; it is the action [copy_apply(rep, site)]. *)
Record UnitCellCoordRep : Type :=
  mkUnitCellCoordRep { copy_apply_ucc : UnitCellCoord -> UnitCellCoord }.

(** An integer 3x3 matrix, by columns: the transformation matrix [T] of a
    supercell, whose columns are the superlattice vectors in prim-lattice
    coordinates. *)
Record Matrix3l : Type :=
  mkMatrix3l { col_a : UnitCell; col_b : UnitCell; col_c : UnitCell }.

Definition mat_vec (T : Matrix3l) (w : UnitCell) : UnitCell :=
  mkUnitCell
    (uc_i (col_a T) * uc_i w + uc_i (col_b T) * uc_j w + uc_i (col_c T) * uc_k w)
    (uc_j (col_a T) * uc_i w + uc_j (col_b T) * uc_j w + uc_j (col_c T) * uc_k w)
    (uc_k (col_a T) * uc_i w + uc_k (col_b T) * uc_j w + uc_k (col_c T) * uc_k w).

Definition determinant (T : Matrix3l) : Z :=
  uc_i (col_a T) * (uc_j (col_b T) * uc_k (col_c T) - uc_k (col_b T) * uc_j (col_c T))
  - uc_i (col_b T) * (uc_j (col_a T) * uc_k (col_c T) - uc_k (col_a T) * uc_j (col_c T))
  + uc_i (col_c T) * (uc_j (col_a T) * uc_k (col_b T) - uc_k (col_a T) * uc_j (col_b T)).

(** Two unit cells are the same lattice point of the supercell when they
    differ by a superlattice vector. *)
Definition superlattice_equiv (T : Matrix3l) (u v : UnitCell) : Prop :=
  exists w : UnitCell, uc_sub u v = mat_vec T w.

(** [xtal::UnitCellIndexConverter]: [total_sites()], [operator()(Index)] and
    [operator()(UnitCell)].  The class is defined in the crystallography
    layer; the core uses these three members. *)
Record UnitCellIndexConverter : Type := mkUnitCellIndexConverter {
  ijk_total_sites : Z;
  ijk_of_index : Z -> UnitCell;
  ijk_to_index : UnitCell -> Z
}.

(** [xtal::UnitCellCoordIndexConverter], likewise. *)
Record UnitCellCoordIndexConverter : Type := mkUnitCellCoordIndexConverter {
  bijk_total_sites : Z;
  bijk_of_index : Z -> UnitCellCoord;
  bijk_to_index : UnitCellCoord -> Z
}.

(** Modelled from the spec: the contract of the index converters of a
    supercell of shape [T] with [B] sublattices.  "Two read-only bijections
    ... [UnitCellIndexConverter]: total [N_unitcells]; maps ix <-> (i,j,k)
    ...; the forward map (i,j,k) -> ix reduces the tuple modulo the supercell
    before lookup.  [UnitCellCoordIndexConverter]: total
    [N_unitcells * N_sublattices]; maps l <-> (b,i,j,k); forward map reduces
    the (i,j,k) part modulo the supercell.  Contract: both directions are
    total, in range, deterministic, and agree across the library." *)
Record index_converter_contract (T : Matrix3l) (B : Z)
    (ijk : UnitCellIndexConverter) (bijk : UnitCellCoordIndexConverter) : Prop :=
  mk_index_converter_contract {
  ijk_total : ijk_total_sites ijk = Z.abs (determinant T);
  ijk_in_range : forall u, 0 <= ijk_to_index ijk u < ijk_total_sites ijk;
  ijk_round_trip : forall ix,
    0 <= ix < ijk_total_sites ijk -> ijk_to_index ijk (ijk_of_index ijk ix) = ix;
  ijk_reduces : forall u v,
    ijk_to_index ijk u = ijk_to_index ijk v <-> superlattice_equiv T u v;
  bijk_total : bijk_total_sites bijk = Z.abs (determinant T) * B;
  bijk_in_range : forall c,
    0 <= sublattice c < B -> 0 <= bijk_to_index bijk c < bijk_total_sites bijk;
  bijk_round_trip : forall l,
    0 <= l < bijk_total_sites bijk -> bijk_to_index bijk (bijk_of_index bijk l) = l;
  bijk_sublattice : forall l,
    0 <= l < bijk_total_sites bijk -> 0 <= sublattice (bijk_of_index bijk l) < B;
  bijk_reduces : forall c d,
    0 <= sublattice c < B -> 0 <= sublattice d < B ->
    (bijk_to_index bijk c = bijk_to_index bijk d <->
     sublattice c = sublattice d /\ superlattice_equiv T (unitcell c) (unitcell d))
}.

(** The converters of a diagonal supercell [n1 x n2 x n3]: the linear index
    of a unit cell runs fastest along the first axis, and sites are numbered
    sublattice by sublattice. *)
Definition diagonal_shape (n1 n2 n3 : Z) : Matrix3l :=
  mkMatrix3l (mkUnitCell n1 0 0) (mkUnitCell 0 n2 0) (mkUnitCell 0 0 n3).

Definition diagonal_ijk_converter (n1 n2 n3 : Z) : UnitCellIndexConverter :=
  {| ijk_total_sites := n1 * n2 * n3;
     ijk_of_index := fun ix =>
       mkUnitCell (ix mod n1) ((ix / n1) mod n2) (ix / n1 / n2);
     ijk_to_index := fun u =>
       uc_i u mod n1 + n1 * (uc_j u mod n2 + n2 * (uc_k u mod n3)) |}.

Definition diagonal_bijk_converter (n1 n2 n3 B : Z) : UnitCellCoordIndexConverter :=
  {| bijk_total_sites := n1 * n2 * n3 * B;
     bijk_of_index := fun l =>
       mkUnitCellCoord (l / (n1 * n2 * n3))
         (ijk_of_index (diagonal_ijk_converter n1 n2 n3) (l mod (n1 * n2 * n3)));
     bijk_to_index := fun c =>
       sublattice c * (n1 * n2 * n3) +
       ijk_to_index (diagonal_ijk_converter n1 n2 n3) (unitcell c) |}.

End xtal.

Export xtal.

(** * Integral clusters *)

Module clust.

(** [IntegralCluster]: the sequence of its elements. *)
Abbreviation IntegralCluster := (list UnitCellCoord).

(** [clust[n]]; reading past the end is undefined in the source and reads
    a fixed site here. *)
Definition cluster_at (clust : IntegralCluster) (n : nat) : UnitCellCoord :=
  nth n clust (mkUnitCellCoord 0 uc_zero).

(** Modelled from the spec: [IntegralCluster::sort] is "deterministic total
    order on elements (lexicographic on (b, i, j, k)), in place". *)
Definition sort (clust : IntegralCluster) : IntegralCluster :=
  merge_sort ucc_le clust.

(** Modelled from the spec: "[cluster += u] translates every element's
    [UnitCell] by [u]; [-=] is its inverse". *)
Definition cluster_add (clust : IntegralCluster) (t : UnitCell) : IntegralCluster :=
  (fun c => ucc_add c t) <$> clust.

Definition cluster_sub (clust : IntegralCluster) (t : UnitCell) : IntegralCluster :=
  (fun c => ucc_sub c t) <$> clust.

(** Modelled from the spec: [apply(rep, cluster)] "acts elementwise". *)
Definition apply (op : UnitCellCoordRep) (clust : IntegralCluster) : IntegralCluster :=
  copy_apply_ucc op <$> clust.

(** Modelled from the spec: cluster equality is "elementwise after both sides
    are sorted". *)
Definition cluster_eqb (a b : IntegralCluster) : bool :=
  bool_decide (sort a = sort b).

(** Modelled from the spec: [IntegralCluster::operator<], the "total order
    <: lexicographic on the sorted element sequence". *)
Fixpoint lexicographical_compare (a b : IntegralCluster) : bool :=
  match a, b with
  | _, [] => false
  | [], _ :: _ => true
  | x :: a', y :: b' =>
      ucc_ltb x y || (negb (ucc_ltb y x) && lexicographical_compare a' b')
  end.

Definition cluster_less (a b : IntegralCluster) : bool :=
  lexicographical_compare (sort a) (sort b).

(** [prim_periodic_integral_cluster_copy_apply], orbits.cc lines 27-36. *)
Definition prim_periodic_integral_cluster_copy_apply
    (op : UnitCellCoordRep) (clust : IntegralCluster) : IntegralCluster :=
  if decide (length clust = 0%nat) then clust
  else
    let clust1 := apply op clust in
    let clust2 := sort clust1 in
    cluster_sub clust2 (unitcell (cluster_at clust2 0)).

(** [prim_periodic_integral_cluster_frac_translation], orbits.cc lines 47-58. *)
Definition prim_periodic_integral_cluster_frac_translation
    (op : UnitCellCoordRep) (clust : IntegralCluster) : UnitCell :=
  if decide (length clust = 0%nat) then mkUnitCell 0 0 0
  else
    let clust1 := sort clust in
    let pos_init := unitcell (cluster_at clust1 0) in
    let clust2 := apply op clust1 in
    let clust3 := sort clust2 in
    let pos_final := unitcell (cluster_at clust3 0) in
    uc_sub pos_init pos_final.

(** [local_integral_cluster_copy_apply], orbits.cc lines 303-311. *)
Definition local_integral_cluster_copy_apply
    (op : UnitCellCoordRep) (clust : IntegralCluster) : IntegralCluster :=
  if decide (length clust = 0%nat) then clust
  else
    let clust1 := apply op clust in
    sort clust1.

(** ** Representations acting on clusters *)

(** The representation of the product of two operations: [h] first, then
    [g]. *)
Definition rep_compose (g h : UnitCellCoordRep) : UnitCellCoordRep :=
  mkUnitCellCoordRep (fun c => copy_apply_ucc g (copy_apply_ucc h c)).

(** A representation carries lattice translations to lattice translations:
    moving a site by [t] moves its image by [M t].  (A [UnitCellCoordRep]
    applies an integer point matrix to the unit cell and adds an offset
    that depends on the sublattice only; [M] is that matrix.) *)
Definition carries_translations (op : UnitCellCoordRep)
    (M : UnitCell -> UnitCell) : Prop :=
  forall (c : UnitCellCoord) (t : UnitCell),
    copy_apply_ucc op (ucc_add c t) = ucc_add (copy_apply_ucc op c) (M t).

(** A representation of the kind the crystallography layer builds: the
    mirror [i -> -i] of a two-sublattice prim, which exchanges the
    sublattices and moves sublattice 1 by one cell. *)
Definition mirror_rep : UnitCellCoordRep :=
  mkUnitCellCoordRep
    (fun c =>
       mkUnitCellCoord (1 - sublattice c)
         (mkUnitCell (- uc_i (unitcell c) + sublattice c)
                     (uc_j (unitcell c)) (uc_k (unitcell c)))).

Definition mirror_matrix (t : UnitCell) : UnitCell :=
  mkUnitCell (- uc_i t) (uc_j t) (uc_k t).

(** ** Cluster groups *)

(** What the cluster-group functions take from the crystallography layer:
    symmetry operations with their product, and the pure translation by a
    lattice vector given in fractional coordinates. *)
Class ClusterSymmetry : Type := {
  SymOp : Type;
  Matrix3d : Type;
  (** [xtal::SymOp(Eigen::Matrix3d::Identity(),
                   lat_column_mat * frac_trans.cast<double>(), false)] *)
  translation_symop : Matrix3d -> UnitCell -> SymOp;
  (** [xtal::SymOp operator*] *)
  symop_mul : SymOp -> SymOp -> SymOp
}.

(** Modelled from the spec: [SymGroup], "(parent, head_group_index: ordered
    set of indices into parent, element: sequence of operations)"; a root
    group has no parent. *)
#[local] Unset Elimination Schemes.
Inductive SymGroup `{ClusterSymmetry} : Type :=
  mkSymGroup (head_group : option SymGroup) (element : list SymOp)
             (head_group_index : gset Z).

#[local] Set Elimination Schemes.

Definition head_group `{ClusterSymmetry} (G : SymGroup) : option SymGroup :=
  match G with mkSymGroup h _ _ => h end.

Definition element `{ClusterSymmetry} (G : SymGroup) : list SymOp :=
  match G with mkSymGroup _ e _ => e end.

Definition head_group_index `{ClusterSymmetry} (G : SymGroup) : gset Z :=
  match G with mkSymGroup _ _ ix => ix end.

(** The elements of a [std::set<Index>] in the order a range-for visits
    them. *)
Definition set_in_order (s : gset Z) : list Z := merge_sort Z.le (elements s).

(** What the cluster-group functions take from the group algorithms:
    [group::make_equivalence_map(orbit, begin, end, copy_apply_f)] and
    [group::make_invariant_subgroups(eq_map, group)]. *)
Class GroupAlgorithms `{ClusterSymmetry} : Type := {
  make_equivalence_map :
    list IntegralCluster -> list UnitCellCoordRep ->
    (UnitCellCoordRep -> IntegralCluster -> IntegralCluster) -> list (list Z);
  make_invariant_subgroups : list (list Z) -> SymGroup -> list (gset Z)
}.

Section cluster_groups.
Context `{GroupAlgorithms}.

(** The loop of [make_cluster_group], orbits.cc lines 151-164, on the sorted
    cluster. *)
Fixpoint make_cluster_group_loop (cluster : IntegralCluster)
    (factor_group : SymGroup) (lat_column_mat : Matrix3d)
    (unitcellcoord_symgroup_rep : list UnitCellCoordRep)
    (todo : list Z) (elements : list SymOp) (indices : gset Z)
    : result (list SymOp * gset Z) :=
  match todo with
  | [] => Ok (elements, indices)
  | i :: rest =>
      rep ← vector_at unitcellcoord_symgroup_rep i;
      let tclust := apply rep cluster in
      let tclust := sort tclust in
      let frac_trans :=
        uc_sub (unitcell (cluster_at cluster 0)) (unitcell (cluster_at tclust 0)) in
      let tclust := cluster_add tclust frac_trans in
      if cluster_eqb tclust cluster then
        op ← vector_at (element factor_group) i;
        let cart_trans := translation_symop lat_column_mat frac_trans in
        make_cluster_group_loop cluster factor_group lat_column_mat
          unitcellcoord_symgroup_rep rest
          (elements ++ [symop_mul cart_trans op]) ({[ i ]} ∪ indices)
      else
        make_cluster_group_loop cluster factor_group lat_column_mat
          unitcellcoord_symgroup_rep rest elements indices
  end.

(** [make_cluster_group], orbits.cc lines 138-166. *)
Definition make_cluster_group (cluster : IntegralCluster)
    (factor_group : SymGroup) (lat_column_mat : Matrix3d)
    (unitcellcoord_symgroup_rep : list UnitCellCoordRep) : result SymGroup :=
  if decide (length cluster = 0%nat) then Ok factor_group
  else
    let cluster := sort cluster in
    r ← make_cluster_group_loop cluster factor_group lat_column_mat
          unitcellcoord_symgroup_rep
          (index_range (Z.of_nat (length (element factor_group)))) [] ∅;
    Ok (mkSymGroup (Some factor_group) r.1 r.2).

(** The lambda [make_cluster_group_element], lines 114-122, for the orbit
    element the iterator points at. *)
Definition make_cluster_group_element (orbit_element : IntegralCluster)
    (factor_group : SymGroup) (lat_column_mat : Matrix3d)
    (unitcellcoord_symgroup_rep : list UnitCellCoordRep) (j : Z)
    : result SymOp :=
  rep ← vector_at unitcellcoord_symgroup_rep j;
  op ← vector_at (element factor_group) j;
  Ok (symop_mul
        (translation_symop lat_column_mat
           (prim_periodic_integral_cluster_frac_translation rep orbit_element))
        op).

(** [for (Index j : subgroup) elements.push_back(f(j))] *)
Fixpoint push_back_each {A} (f : Z -> result A) (js : list Z) (elements : list A)
    : result (list A) :=
  match js with
  | [] => Ok elements
  | j :: rest => x ← f j; push_back_each f rest (elements ++ [x])
  end.

(** The [while] loop of [make_cluster_groups], lines 124-133.  The orbit
    iterator advances with the subgroup iterator; running it off the end of
    the orbit is undefined in the source and is reported here. *)
Fixpoint make_cluster_groups_loop (factor_group : SymGroup)
    (lat_column_mat : Matrix3d)
    (unitcellcoord_symgroup_rep : list UnitCellCoordRep)
    (orbit_it : list IntegralCluster) (subgroup_indices_it : list (gset Z))
    (cluster_groups : list SymGroup) {struct subgroup_indices_it}
    : result (list SymGroup) :=
  match subgroup_indices_it with
  | [] => Ok cluster_groups
  | subgroup :: subgroup_rest =>
      match orbit_it with
      | [] => Err OutOfRange
      | orbit_element :: orbit_rest =>
          cluster_group_elements ←
            push_back_each
              (make_cluster_group_element orbit_element factor_group
                 lat_column_mat unitcellcoord_symgroup_rep)
              (set_in_order subgroup) [];
          make_cluster_groups_loop factor_group lat_column_mat
            unitcellcoord_symgroup_rep orbit_rest subgroup_rest
            (cluster_groups ++
               [mkSymGroup (Some factor_group) cluster_group_elements subgroup])
      end
  end.

(** [make_cluster_groups], orbits.cc lines 86-135. *)
Definition make_cluster_groups (orbit : list IntegralCluster)
    (factor_group : SymGroup) (lat_column_mat : Matrix3d)
    (unitcellcoord_symgroup_rep : list UnitCellCoordRep)
    : result (list SymGroup) :=
  let eq_map :=
    make_equivalence_map orbit unitcellcoord_symgroup_rep
      prim_periodic_integral_cluster_copy_apply in
  let subgroup_indices := make_invariant_subgroups eq_map factor_group in
  make_cluster_groups_loop factor_group lat_column_mat
    unitcellcoord_symgroup_rep orbit subgroup_indices [].

(** The [while] loop of [make_local_cluster_groups], lines 360-369. *)
Fixpoint make_local_cluster_groups_loop (phenomenal_group : SymGroup)
    (orbit_it : list IntegralCluster) (subgroup_indices_it : list (gset Z))
    (cluster_groups : list SymGroup) {struct subgroup_indices_it}
    : result (list SymGroup) :=
  match subgroup_indices_it with
  | [] => Ok cluster_groups
  | subgroup :: subgroup_rest =>
      match orbit_it with
      | [] => Err OutOfRange
      | _ :: orbit_rest =>
          cluster_group_elements ←
            push_back_each (vector_at (element phenomenal_group))
              (set_in_order subgroup) [];
          make_local_cluster_groups_loop phenomenal_group orbit_rest
            subgroup_rest
            (cluster_groups ++
               [mkSymGroup (Some phenomenal_group) cluster_group_elements
                  subgroup])
      end
  end.

(** [make_local_cluster_groups], orbits.cc lines 338-371. *)
Definition make_local_cluster_groups (orbit : list IntegralCluster)
    (phenomenal_group : SymGroup)
    (unitcellcoord_symgroup_rep : list UnitCellCoordRep)
    : result (list SymGroup) :=
  let eq_map :=
    make_equivalence_map orbit unitcellcoord_symgroup_rep
      local_integral_cluster_copy_apply in
  let subgroup_indices := make_invariant_subgroups eq_map phenomenal_group in
  make_local_cluster_groups_loop phenomenal_group orbit subgroup_indices [].

(** What one returned cluster group is, for the orbit element and the
    subgroup it was built from. *)
Definition is_cluster_group_of (factor_group : SymGroup)
    (lat_column_mat : Matrix3d) (reps : list UnitCellCoordRep)
    (orbit_element : IntegralCluster) (subgroup : gset Z) (G : SymGroup) : Prop :=
  head_group G = Some factor_group /\
  head_group_index G = subgroup /\
  length (element G) = size subgroup /\
  Forall2
    (fun j e =>
       exists rep op,
         0 <= j /\ reps !! Z.to_nat j = Some rep /\
         element factor_group !! Z.to_nat j = Some op /\
         e = symop_mul
               (translation_symop lat_column_mat
                  (prim_periodic_integral_cluster_frac_translation rep
                     orbit_element))
               op)
    (set_in_order subgroup) (element G).

End cluster_groups.

(** Operations written as 4-tuples of integers, with componentwise sum as
    product: enough to tell the elements of a group apart. *)
Definition small_symmetry : ClusterSymmetry :=
  {| SymOp := Z * UnitCell;
     Matrix3d := unit;
     translation_symop := fun _ t => (0, t);
     symop_mul := fun a b => (a.1 + b.1, uc_add a.2 b.2) |}.

(** Group algorithms that report, for every orbit element, the subgroup
    {0, 1}. *)
Definition small_group_algorithms : @GroupAlgorithms small_symmetry :=
  {| make_equivalence_map := fun orbit _ _ => (fun _ => [0; 1]) <$> orbit;
     make_invariant_subgroups := fun eq_map _ =>
       (fun js => list_to_set js) <$> eq_map |}.

(** The operation that undoes [mirror_rep]. *)
Definition mirror_rep_inverse : UnitCellCoordRep :=
  mkUnitCellCoordRep
    (fun c =>
       mkUnitCellCoord (1 - sublattice c)
         (mkUnitCell (- uc_i (unitcell c) + (1 - sublattice c))
                     (uc_j (unitcell c)) (uc_k (unitcell c)))).

(** ** Orbit enumeration *)

(** [IntegralClusterOrbitGenerator]: a custom cluster to be included, and
    whether its subclusters are included too. *)
Record IntegralClusterOrbitGenerator : Type := mkIntegralClusterOrbitGenerator {
  prototype : IntegralCluster;
  include_subclusters : bool
}.

(** What orbits.cc takes from elsewhere: the prim, the cluster invariants and
    their comparison, the neighbourhood and filter factories of
    ClusterSpecs, the subcluster counter, and the generic group algorithms.
    Lengths are [double]; the core only hands them on. *)
Class Clusterography : Type := {
  BasicStructure : Type;
  Site : Type;
  Real : Type;
  Real_inhabited :: Inhabited Real;
  ClusterInvariants : Type;
  (** [prim->lattice().tol()] *)
  prim_lattice_tol : BasicStructure -> Real;
  (** [ClusterInvariants(cluster, prim)] *)
  make_cluster_invariants : IntegralCluster -> BasicStructure -> ClusterInvariants;
  (** [ClusterInvariants(cluster, phenomenal, prim)] *)
  make_local_cluster_invariants :
    IntegralCluster -> IntegralCluster -> BasicStructure -> ClusterInvariants;
  (** [CompareCluster_f(tol)(A, B)] *)
  compare_f : Real -> ClusterInvariants * IntegralCluster ->
              ClusterInvariants * IntegralCluster -> bool;
  (** [origin_neighborhood()(prim, site_filter)] *)
  origin_neighborhood : BasicStructure -> (Site -> bool) -> list UnitCellCoord;
  (** [max_length_neighborhood(max_length)(prim, site_filter)] *)
  max_length_neighborhood :
    Real -> BasicStructure -> (Site -> bool) -> list UnitCellCoord;
  (** [cutoff_radius_neighborhood(phenomenal, cutoff_radius,
      include_phenomenal_sites)(prim, site_filter)] *)
  cutoff_radius_neighborhood :
    IntegralCluster -> Real -> bool ->
    BasicStructure -> (Site -> bool) -> list UnitCellCoord;
  (** [all_clusters_filter()(invariants, cluster)] *)
  all_clusters_filter : ClusterInvariants -> IntegralCluster -> bool;
  (** [max_length_cluster_filter(max_length)(invariants, cluster)] *)
  max_length_cluster_filter :
    Real -> ClusterInvariants -> IntegralCluster -> bool;
  (** the clusters [SubClusterCounter(prototype)] runs through, from
      construction until [valid()] is false *)
  sub_clusters : IntegralCluster -> list IntegralCluster;
  (** [group::make_canonical_element(element, begin, end, compare_f,
      copy_apply_f)] *)
  make_canonical_element :
    IntegralCluster -> list UnitCellCoordRep ->
    (IntegralCluster -> IntegralCluster -> bool) ->
    (UnitCellCoordRep -> IntegralCluster -> IntegralCluster) -> IntegralCluster;
  (** [group::make_orbit(element, begin, end, compare_f, copy_apply_f)] *)
  make_orbit :
    IntegralCluster -> list UnitCellCoordRep ->
    (IntegralCluster -> IntegralCluster -> bool) ->
    (UnitCellCoordRep -> IntegralCluster -> IntegralCluster) ->
    list IntegralCluster
}.

(** [std::pair<ClusterInvariants, IntegralCluster>] *)
Abbreviation pair_type := (ClusterInvariants * IntegralCluster)%type.

(** A [std::set<T, Compare>] is kept as the list of its elements in
    increasing order.  [emplace] puts the element in its place unless an
    equivalent one (neither is less than the other) is already there. *)
Fixpoint set_emplace {A} (less : A -> A -> bool) (x : A) (s : list A) : list A :=
  match s with
  | [] => [x]
  | y :: rest =>
      if less x y then x :: y :: rest
      else if less y x then y :: set_emplace less x rest
      else y :: rest
  end.

(** The set holds [x]: [x] itself or an element equivalent to it under the
    comparison, which is what [emplace(x)] guarantees. *)
Definition set_holds {A} (less : A -> A -> bool) (s : list A) (x : A) : Prop :=
  exists y, y ∈ s /\ (y = x \/ (less x y = false /\ less y x = false)).

(** [s.insert(first, last)] *)
Definition set_insert_range {A} (less : A -> A -> bool) (xs s : list A) : list A :=
  foldl (fun acc x => set_emplace less x acc) s xs.

(** [CASM::contains(container, value)] *)
Definition contains (container : IntegralCluster) (value : UnitCellCoord) : bool :=
  bool_decide (value ∈ container).

Section orbits.
Context `{Clusterography}.

(** [make_prim_periodic_orbit], orbits.cc lines 66-73. *)
Definition make_prim_periodic_orbit (orbit_element : IntegralCluster)
    (unitcellcoord_symgroup_rep : list UnitCellCoordRep) : list IntegralCluster :=
  make_orbit orbit_element unitcellcoord_symgroup_rep cluster_less
    prim_periodic_integral_cluster_copy_apply.

Variable prim : BasicStructure.
Variable unitcellcoord_symgroup_rep : list UnitCellCoordRep.
Variable site_filter : Site -> bool.
Variable max_length : list Real.
Variable custom_generators : list IntegralClusterOrbitGenerator.

Let compare := compare_f (prim_lattice_tol prim).

(** The lambda [_make_canonical], lines 209-214. *)
Definition prim_periodic_make_canonical (cluster : IntegralCluster)
    : IntegralCluster :=
  make_canonical_element cluster unitcellcoord_symgroup_rep cluster_less
    prim_periodic_integral_cluster_copy_apply.

(** The element that [final.emplace] receives for a cluster at lines
    268-270 and 276-278: its canonical form with the invariants of that
    form. *)
Definition canonical_entry (cluster : IntegralCluster) : pair_type :=
  let test_cluster := prim_periodic_make_canonical cluster in
  (make_cluster_invariants test_cluster prim, test_cluster).

(** The body of the two nested loops, lines 240-250: one cluster of the
    previous branch, one candidate site. *)
Definition prim_periodic_try_site
    (cluster_filter : ClusterInvariants -> IntegralCluster -> bool)
    (pair : pair_type) (curr_branch : list pair_type)
    (integral_site : UnitCellCoord) : list pair_type :=
  let test_cluster := pair.2 in
  if contains test_cluster integral_site then curr_branch
  else
    let test_cluster := test_cluster ++ [integral_site] in
    let invariants := make_cluster_invariants test_cluster prim in
    if negb (cluster_filter invariants test_cluster) then curr_branch
    else
      let test_cluster := prim_periodic_make_canonical test_cluster in
      set_emplace compare (invariants, test_cluster) curr_branch.

(** One turn of the loop over branches, lines 216-259, on the pair
    ([final], [prev_branch]). *)
Definition prim_periodic_branch
    (state : list pair_type * list pair_type) (branch : nat)
    : list pair_type * list pair_type :=
  let '(final, prev_branch) := state in
  let f :=
    if decide (branch = 1%nat) then origin_neighborhood
    else max_length_neighborhood (max_length !!! branch) in
  let candidate_sites := f prim site_filter in
  let cluster_filter :=
    if decide (branch = 1%nat) then all_clusters_filter
    else max_length_cluster_filter (max_length !!! branch) in
  let curr_branch :=
    foldl (fun curr pair =>
             foldl (prim_periodic_try_site cluster_filter pair) curr
                   candidate_sites)
          [] prev_branch in
  (set_insert_range compare prev_branch final, curr_branch).

(** Lines 266-281: one custom generator added to [final]. *)
Definition prim_periodic_add_custom_generator
    (final : list pair_type) (custom_generator : IntegralClusterOrbitGenerator)
    : list pair_type :=
  let test_cluster := prim_periodic_make_canonical (prototype custom_generator) in
  let final :=
    set_emplace compare (make_cluster_invariants test_cluster prim, test_cluster)
      final in
  if include_subclusters custom_generator then
    foldl (fun final value =>
             let test_cluster := prim_periodic_make_canonical value in
             set_emplace compare
               (make_cluster_invariants test_cluster prim, test_cluster) final)
          final (sub_clusters (prototype custom_generator))
  else final.

(** The set [final] when the loop over the custom generators ends,
    lines 197-282. *)
Definition prim_periodic_final : list pair_type :=
  let null_cluster : IntegralCluster := [] in
  let final :=
    set_emplace compare (make_cluster_invariants null_cluster prim, null_cluster) [] in
  let prev_branch :=
    set_emplace compare (make_cluster_invariants null_cluster prim, null_cluster) [] in
  let '(final, prev_branch) :=
    foldl prim_periodic_branch (final, prev_branch)
          (seq 1 (length max_length - 1)) in
  let final := set_insert_range compare prev_branch final in
  foldl prim_periodic_add_custom_generator final custom_generators.

(** [make_prim_periodic_orbits], orbits.cc lines 192-292. *)
Definition make_prim_periodic_orbits : list (list IntegralCluster) :=
  (fun pair : pair_type =>
     make_prim_periodic_orbit pair.2 unitcellcoord_symgroup_rep)
    <$> prim_periodic_final.

(** The candidate sites and the cluster filter of a branch, lines 218-233. *)
Definition prim_periodic_candidate_sites (branch : nat) : list UnitCellCoord :=
  (if decide (branch = 1%nat) then origin_neighborhood
   else max_length_neighborhood (max_length !!! branch)) prim site_filter.

Definition prim_periodic_cluster_filter (branch : nat)
    : ClusterInvariants -> IntegralCluster -> bool :=
  if decide (branch = 1%nat) then all_clusters_filter
  else max_length_cluster_filter (max_length !!! branch).

(** How an element gets into a branch: the null cluster is branch 0, and an
    element of branch [b + 1] is the canonical form of an element of branch
    [b] extended by a candidate site it did not contain, the extension
    having passed the cluster filter of branch [b + 1]; it is stored with
    the invariants of the extension. *)
Inductive prim_periodic_generated : nat -> pair_type -> Prop :=
  | generated_null :
      prim_periodic_generated 0 (make_cluster_invariants [] prim, [])
  | generated_site (branch : nat) (pair : pair_type) (site : UnitCellCoord) :
      prim_periodic_generated branch pair ->
      (S branch < length max_length)%nat ->
      site ∈ prim_periodic_candidate_sites (S branch) ->
      site ∉ pair.2 ->
      prim_periodic_cluster_filter (S branch)
        (make_cluster_invariants (pair.2 ++ [site]) prim) (pair.2 ++ [site])
        = true ->
      prim_periodic_generated (S branch)
        (make_cluster_invariants (pair.2 ++ [site]) prim,
         prim_periodic_make_canonical (pair.2 ++ [site])).

(** An element that a custom generator put into [final]. *)
Definition from_custom_generator (pair : pair_type) : Prop :=
  exists generator,
    generator ∈ custom_generators /\
    (pair = canonical_entry (prototype generator) \/
     (include_subclusters generator = true /\
      exists value, value ∈ sub_clusters (prototype generator) /\
                    pair = canonical_entry value)).

End orbits.

Section local_orbits.
Context `{Clusterography}.

(** [make_local_orbit], orbits.cc lines 319-326. *)
Definition make_local_orbit (orbit_element : IntegralCluster)
    (unitcellcoord_symgroup_rep : list UnitCellCoordRep) : list IntegralCluster :=
  make_orbit orbit_element unitcellcoord_symgroup_rep cluster_less
    local_integral_cluster_copy_apply.

Variable prim : BasicStructure.
Variable unitcellcoord_symgroup_rep : list UnitCellCoordRep.
Variable site_filter : Site -> bool.
Variable max_length : list Real.
Variable custom_generators : list IntegralClusterOrbitGenerator.
Variable phenomenal : IntegralCluster.
Variable cutoff_radius : list Real.
Variable include_phenomenal_sites : bool.

Let compare := compare_f (prim_lattice_tol prim).

(** The lambda [_make_canonical], lines 466-471. *)
Definition local_make_canonical (cluster : IntegralCluster) : IntegralCluster :=
  make_canonical_element cluster unitcellcoord_symgroup_rep cluster_less
    local_integral_cluster_copy_apply.

(** The element that [final.emplace] receives for a cluster at lines
    520-522 and 527-529. *)
Definition local_canonical_entry (cluster : IntegralCluster) : pair_type :=
  let test_cluster := local_make_canonical cluster in
  (make_local_cluster_invariants test_cluster phenomenal prim, test_cluster).

(** The body of the two nested loops, lines 492-502. *)
Definition local_try_site
    (cluster_filter : ClusterInvariants -> IntegralCluster -> bool)
    (pair : pair_type) (curr_branch : list pair_type)
    (integral_site : UnitCellCoord) : list pair_type :=
  let test_cluster := pair.2 in
  if contains test_cluster integral_site then curr_branch
  else
    let test_cluster := test_cluster ++ [integral_site] in
    let invariants := make_local_cluster_invariants test_cluster phenomenal prim in
    if negb (cluster_filter invariants test_cluster) then curr_branch
    else
      let test_cluster := local_make_canonical test_cluster in
      set_emplace compare (invariants, test_cluster) curr_branch.

(** One turn of the loop over branches, lines 473-511. *)
Definition local_branch
    (state : list pair_type * list pair_type) (branch : nat)
    : list pair_type * list pair_type :=
  let '(final, prev_branch) := state in
  let f :=
    cutoff_radius_neighborhood phenomenal (cutoff_radius !!! branch)
      include_phenomenal_sites in
  let candidate_sites := f prim site_filter in
  let cluster_filter :=
    if decide (branch = 1%nat) then all_clusters_filter
    else max_length_cluster_filter (max_length !!! branch) in
  let curr_branch :=
    foldl (fun curr pair =>
             foldl (local_try_site cluster_filter pair) curr candidate_sites)
          [] prev_branch in
  (set_insert_range compare prev_branch final, curr_branch).

(** Lines 517-533: one custom generator added to [final]. *)
Definition local_add_custom_generator
    (final : list pair_type) (custom_generator : IntegralClusterOrbitGenerator)
    : list pair_type :=
  let test_cluster := local_make_canonical (prototype custom_generator) in
  let final :=
    set_emplace compare
      (make_local_cluster_invariants test_cluster phenomenal prim, test_cluster)
      final in
  if include_subclusters custom_generator then
    foldl (fun final value =>
             let test_cluster := local_make_canonical value in
             set_emplace compare
               (make_local_cluster_invariants test_cluster phenomenal prim,
                test_cluster) final)
          final (sub_clusters (prototype custom_generator))
  else final.

(** The set [final] when the loop over the custom generators ends,
    lines 452-533. *)
Definition local_final : list pair_type :=
  let null_cluster : IntegralCluster := [] in
  let final :=
    set_emplace compare
      (make_local_cluster_invariants null_cluster phenomenal prim, null_cluster) [] in
  let prev_branch :=
    set_emplace compare
      (make_local_cluster_invariants null_cluster phenomenal prim, null_cluster) [] in
  let '(final, prev_branch) :=
    foldl local_branch (final, prev_branch) (seq 1 (length max_length - 1)) in
  let final := set_insert_range compare prev_branch final in
  foldl local_add_custom_generator final custom_generators.

(** [make_local_orbits], orbits.cc lines 445-543. *)
Definition make_local_orbits : list (list IntegralCluster) :=
  (fun pair : pair_type => make_local_orbit pair.2 unitcellcoord_symgroup_rep)
    <$> local_final.

End local_orbits.

(** A small clusterography: sites are their integral coordinates, lengths
    are integers, the invariant of a cluster is its size, candidate sites
    are those of the origin cell with sublattice 0 or 1 that the site
    filter accepts, the max-length cluster filter accepts nothing, and the
    canonical element and the orbit are taken among the images under the
    representation. *)
Definition small_clusterography : Clusterography :=
  {| BasicStructure := unit;
     Site := UnitCellCoord;
     Real := Z;
     Real_inhabited := populate 0;
     ClusterInvariants := nat;
     prim_lattice_tol := fun _ => 0;
     make_cluster_invariants := fun cluster _ => length cluster;
     make_local_cluster_invariants := fun cluster _ _ => length cluster;
     compare_f := fun _ A B =>
       (A.1 <? B.1)%nat || ((A.1 =? B.1)%nat && cluster_less A.2 B.2);
     origin_neighborhood := fun _ site_filter =>
       List.filter site_filter
         [mkUnitCellCoord 0 uc_zero; mkUnitCellCoord 1 uc_zero];
     max_length_neighborhood := fun _ _ site_filter =>
       List.filter site_filter
         [mkUnitCellCoord 0 uc_zero; mkUnitCellCoord 1 uc_zero];
     cutoff_radius_neighborhood := fun phenomenal _ include_phenomenal_sites _ site_filter =>
       List.filter site_filter
         (List.filter
            (fun c => include_phenomenal_sites || negb (contains phenomenal c))
            [mkUnitCellCoord 0 uc_zero; mkUnitCellCoord 1 uc_zero]);
     all_clusters_filter := fun _ _ => true;
     max_length_cluster_filter := fun _ _ _ => false;
     sub_clusters := fun cluster => (fun c => [c]) <$> cluster;
     make_canonical_element := fun element reps less copy_apply_f =>
       match reps with
       | [] => element
       | op :: rest =>
           foldr (fun op' best =>
                    if less (copy_apply_f op' element) best
                    then copy_apply_f op' element else best)
                 (copy_apply_f op element) rest
       end;
     make_orbit := fun element reps less copy_apply_f =>
       foldr (fun op orbit => set_emplace less (copy_apply_f op element) orbit)
             [] reps |}.

End clust.

(** * Supercell symmetry info *)

Module SupercellSymInfo_impl.

(** [v[ix] = x] on a [std::vector<Index>]; writing outside the vector is
    undefined in the source and is reported here. *)
Definition vector_assign (v : list Z) (ix x : Z) : result (list Z) :=
  if decide (0 <= ix < Z.of_nat (length v)) then Ok (<[Z.to_nat ix := x]> v)
  else Err OutOfRange.

(** The loop over all the sites, SupercellSymInfo.cc lines 47-53. *)
Fixpoint assign_translated_sites (bijk_index_converter : UnitCellCoordIndexConverter)
    (translation_uc : UnitCell) (old_sites : list Z)
    (single_translation_permutation : list Z) : result (list Z) :=
  match old_sites with
  | [] => Ok single_translation_permutation
  | old_site_ix :: rest =>
      let old_site_ucc := bijk_of_index bijk_index_converter old_site_ix in
      let new_site_ix :=
        bijk_to_index bijk_index_converter (ucc_add old_site_ucc translation_uc) in
      p ← vector_assign single_translation_permutation new_site_ix old_site_ix;
      assign_translated_sites bijk_index_converter translation_uc rest p
  end.

(** The body of the loop over lattice points, lines 42-58: the vector starts
    filled with -1, every site writes its entry, and the result is checked
    to hold no -1 (the [assert] of a debug build). *)
Definition make_single_translation_permutation
    (ijk_index_converter : UnitCellIndexConverter)
    (bijk_index_converter : UnitCellCoordIndexConverter)
    (translation_ix : Z) : result (list Z) :=
  let total_sites := bijk_total_sites bijk_index_converter in
  let init := replicate (Z.to_nat total_sites) (-1) in
  let translation_uc := ijk_of_index ijk_index_converter translation_ix in
  p ← assign_translated_sites bijk_index_converter translation_uc
        (index_range total_sites) init;
  if decide (-1 ∈ p) then Err AssertionFailure else Ok p.

(** The loop over lattice points, lines 40-59, with its [push_back]. *)
Fixpoint translation_loop (ijk_index_converter : UnitCellIndexConverter)
    (bijk_index_converter : UnitCellCoordIndexConverter)
    (translations : list Z) (translation_permutations : list (list Z))
    : result (list (list Z)) :=
  match translations with
  | [] => Ok translation_permutations
  | translation_ix :: rest =>
      p ← make_single_translation_permutation ijk_index_converter
            bijk_index_converter translation_ix;
      translation_loop ijk_index_converter bijk_index_converter rest
        (translation_permutations ++ [p])
  end.

(** [make_translation_permutations], SupercellSymInfo.cc lines 34-61. *)
Definition make_translation_permutations
    (ijk_index_converter : UnitCellIndexConverter)
    (bijk_index_converter : UnitCellCoordIndexConverter)
    : result (list (list Z)) :=
  translation_loop ijk_index_converter bijk_index_converter
    (index_range (ijk_total_sites ijk_index_converter)) [].

(** The site that the translation by [t] carries to position [n]: the
    value the loop above is expected to leave in entry [n]. *)
Definition old_site (bijk_index_converter : UnitCellCoordIndexConverter)
    (t : UnitCell) (n : Z) : Z :=
  bijk_to_index bijk_index_converter
    (ucc_sub (bijk_of_index bijk_index_converter n) t).

(** [P[n]], with -1 standing for a read outside the vector. *)
Definition perm_at (P : list Z) (n : Z) : Z :=
  if decide (0 <= n) then default (-1) (P !! Z.to_nat n) else -1.

(** Modelled from the spec: value-flow composition of permutations under the
    [perm[new] = old] convention, "(P o Q)[n] = Q[P[n]]". *)
Definition compose_value_flow (P Q : list Z) : list Z :=
  (fun pn => perm_at Q pn) <$> P.

(** The loop over the sites that both permutation builders run: site [old]
    writes itself at position [new_of old]. *)
Fixpoint scatter_sites (new_of : Z -> Z) (old_sites : list Z)
    (permutation : list Z) : result (list Z) :=
  match old_sites with
  | [] => Ok permutation
  | old_site_ix :: rest =>
      p ← vector_assign permutation (new_of old_site_ix) old_site_ix;
      scatter_sites new_of rest p
  end.

(** The loop over the sites of [make_factor_group_permutations],
    SupercellSymInfo.cc lines 85-90. *)
Fixpoint assign_transformed_sites (bijk_index_converter : UnitCellCoordIndexConverter)
    (rep : UnitCellCoordRep) (old_sites : list Z) (permutation : list Z)
    : result (list Z) :=
  match old_sites with
  | [] => Ok permutation
  | old_l :: rest =>
      let old_ucc := bijk_of_index bijk_index_converter old_l in
      let new_ucc := copy_apply_ucc rep old_ucc in
      let new_l := bijk_to_index bijk_index_converter new_ucc in
      p ← vector_assign permutation new_l old_l;
      assign_transformed_sites bijk_index_converter rep rest p
  end.

(** The body of the loop over operations, lines 83-91: the vector starts
    filled with 0 ([std::vector<Index> permutation(total_sites)]) and is
    not checked afterwards. *)
Definition make_single_factor_group_permutation
    (basis_permutation_symgroup_rep : list UnitCellCoordRep)
    (bijk_index_converter : UnitCellCoordIndexConverter)
    (operation_ix : Z) : result (list Z) :=
  let total_sites := bijk_total_sites bijk_index_converter in
  rep ← vector_at basis_permutation_symgroup_rep operation_ix;
  let permutation := replicate (Z.to_nat total_sites) 0 in
  assign_transformed_sites bijk_index_converter rep (index_range total_sites)
    permutation.

(** The loop over operations, lines 82-92, with its [push_back]. *)
Fixpoint factor_group_loop
    (basis_permutation_symgroup_rep : list UnitCellCoordRep)
    (bijk_index_converter : UnitCellCoordIndexConverter)
    (operations : list Z) (factor_group_permutations : list (list Z))
    : result (list (list Z)) :=
  match operations with
  | [] => Ok factor_group_permutations
  | operation_ix :: rest =>
      p ← make_single_factor_group_permutation basis_permutation_symgroup_rep
            bijk_index_converter operation_ix;
      factor_group_loop basis_permutation_symgroup_rep bijk_index_converter rest
        (factor_group_permutations ++ [p])
  end.

(** [make_factor_group_permutations], SupercellSymInfo.cc lines 75-94. *)
Definition make_factor_group_permutations (head_group_index : list Z)
    (basis_permutation_symgroup_rep : list UnitCellCoordRep)
    (bijk_index_converter : UnitCellCoordIndexConverter)
    : result (list (list Z)) :=
  factor_group_loop basis_permutation_symgroup_rep bijk_index_converter
    head_group_index [].

(** A representation is compatible with the supercell: it keeps sublattice
    indices in range and sends sites that are the same site of the
    supercell to sites that are the same site of the supercell. *)
Definition supercell_compatible (T : Matrix3l) (B : Z) (rep : UnitCellCoordRep)
    : Prop :=
  forall c d,
    0 <= sublattice c < B -> sublattice c = sublattice d ->
    superlattice_equiv T (unitcell c) (unitcell d) ->
    0 <= sublattice (copy_apply_ucc rep c) < B /\
    sublattice (copy_apply_ucc rep c) = sublattice (copy_apply_ucc rep d) /\
    superlattice_equiv T (unitcell (copy_apply_ucc rep c))
      (unitcell (copy_apply_ucc rep d)).

(** [rep'] undoes [rep] and [rep] undoes [rep']. *)
Definition inverse_reps (rep rep' : UnitCellCoordRep) : Prop :=
  forall c, copy_apply_ucc rep (copy_apply_ucc rep' c) = c /\
            copy_apply_ucc rep' (copy_apply_ucc rep c) = c.

End SupercellSymInfo_impl.

(** * Canonical forms of supercells *)

Module config.

(** The crystallography layer that canonical_form.cc calls into.  Lattices
    are real 3x3 matrices compared up to a tolerance; the core only moves
    them around, so the layer is an interface. *)
Class Crystallography : Type := {
  Lattice : Type;
  SymOp : Type;
  Tolerance : Type;
  (** [Lattice::tol()] *)
  lattice_tol : Lattice -> Tolerance;
  (** [Lattice::operator==] *)
  lattice_eqb : Lattice -> Lattice -> bool;
  (** the order on lattices, [a >= b] *)
  lattice_ge : Lattice -> Lattice -> Prop;
  (** [sym::copy_apply(op, lattice)] *)
  sym_copy_apply : SymOp -> Lattice -> Lattice;
  (** [xtal::canonical::equivalent(lattice, point_group, tol)] *)
  canonical_equivalent : Lattice -> list SymOp -> Tolerance -> Lattice
}.

Section supercell.
Context `{Crystallography}.

(** [SymGroup]: the members that canonical_form.cc reads. *)
Record SymGroup : Type := mkSymGroup { element : list SymOp }.

Record PrimSymInfo : Type := mkPrimSymInfo { point_group : SymGroup }.

Record Prim : Type := mkPrim { sym_info : PrimSymInfo }.

(** [xtal::Superlattice(prim_lattice, super_lattice)] *)
Record Superlattice : Type :=
  mkSuperlattice { sl_prim_lattice : Lattice; sl_superlattice : Lattice }.

(** [Supercell(prim, superlattice)] *)
Record Supercell : Type :=
  mkSupercell { sc_prim : Prim; sc_superlattice : Superlattice }.

(** [make_canonical_form], canonical_form.cc lines 21-30. *)
Definition make_canonical_form (supercell : Supercell) : Supercell :=
  let canonical_lattice :=
    canonical_equivalent
      (sl_superlattice (sc_superlattice supercell))
      (element (point_group (sym_info (sc_prim supercell))))
      (lattice_tol (sl_superlattice (sc_superlattice supercell))) in
  mkSupercell (sc_prim supercell)
    (mkSuperlattice (sl_prim_lattice (sc_superlattice supercell))
                    canonical_lattice).

(** The [for] loop of [from_canonical], lines 58-64: the first operation
    that matches is returned; falling off the end throws. *)
Fixpoint from_canonical_search (lhs canonical : Lattice) (ops : list SymOp)
    : result SymOp :=
  match ops with
  | [] =>
      Err (RuntimeError
        "Error in CASM::config::from_canonical(Supercell const &): Not found")
  | op :: rest =>
      if lattice_eqb lhs (sym_copy_apply op canonical) then Ok op
      else from_canonical_search lhs canonical rest
  end.

(** [from_canonical], canonical_form.cc lines 52-65. *)
Definition from_canonical (supercell : Supercell) : result SymOp :=
  let lhs := sl_superlattice (sc_superlattice supercell) in
  let canonical :=
    canonical_equivalent
      (sl_superlattice (sc_superlattice supercell))
      (element (point_group (sym_info (sc_prim supercell))))
      (lattice_tol (sl_superlattice (sc_superlattice supercell))) in
  from_canonical_search lhs canonical
    (element (point_group (sym_info (sc_prim supercell)))).

(** The orbit of a lattice under a list of operations. *)
Definition in_orbit (ops : list SymOp) (L L' : Lattice) : Prop :=
  exists g, g ∈ ops /\ L' = sym_copy_apply g L.

(** [m] is a greatest element of the orbit of [L]. *)
Definition orbit_maximum (ops : list SymOp) (L m : Lattice) : Prop :=
  in_orbit ops L m /\ forall L', in_orbit ops L L' -> lattice_ge m L'.

(** Modelled from the spec: the contract of [canonical::equivalent], "the
    unique >=-maximum of the orbit under PG, at tolerance tol". *)
Definition canonical_equivalent_contract (ops : list SymOp) : Prop :=
  forall L,
    orbit_maximum ops L (canonical_equivalent L ops (lattice_tol L)) /\
    (forall m : Lattice, orbit_maximum ops L m ->
       m = canonical_equivalent L ops (lattice_tol L)).

(** The operations act as a group: some operation fixes every lattice and
    the action of any two in sequence is the action of a third. *)
Definition acts_as_group (ops : list SymOp) : Prop :=
  (exists e, e ∈ ops /\ forall L, sym_copy_apply e L = L) /\
  (forall g h, g ∈ ops -> h ∈ ops ->
     exists k, k ∈ ops /\
       forall L, sym_copy_apply k L = sym_copy_apply g (sym_copy_apply h L)).

End supercell.

(** What [make_equivalents] takes from the crystallography layer besides. *)
Class LatticeCanonicalForms `{Crystallography} : Type := {
  (** [Lattice::operator<], the order of a [std::set<Lattice>] *)
  lattice_less : Lattice -> Lattice -> bool;
  (** [xtal::invariant_subgroup_indices(lattice, group)] *)
  invariant_subgroup_indices : Lattice -> list SymOp -> list Z;
  (** [xtal::canonical::equivalent(lattice, group)], called without a
      tolerance *)
  canonical_equivalent_in : Lattice -> list SymOp -> Lattice;
  (** the lattice of the prim *)
  prim_lattice_of : Prim -> Lattice
}.

Section equivalents.
Context `{LatticeCanonicalForms}.

(** [for (Index i : invariant_subgroup_indices)
      invariant_subgroup.push_back(point_group[i])],
    canonical_form.cc lines 84-86. *)
Fixpoint select_operations (point_group : list SymOp) (indices : list Z)
    (invariant_subgroup : list SymOp) : result (list SymOp) :=
  match indices with
  | [] => Ok invariant_subgroup
  | i :: rest =>
      op ← vector_at point_group i;
      select_operations point_group rest (invariant_subgroup ++ [op])
  end.

(** The lambda [representation_prepare], lines 80-88. *)
Definition representation_prepare (point_group : list SymOp)
    (superlat : Lattice) : result Lattice :=
  let invariant_subgroup_indices :=
    invariant_subgroup_indices superlat point_group in
  invariant_subgroup ←
    select_operations point_group invariant_subgroup_indices [];
  Ok (canonical_equivalent_in superlat invariant_subgroup).

(** The loop over the point group, lines 91-94; the [std::set<Lattice>] is
    the list of its elements in increasing order. *)
Fixpoint make_equivalents_loop (point_group : list SymOp)
    (init_superlat : Lattice) (ops : list SymOp) (superlats : list Lattice)
    : result (list Lattice) :=
  match ops with
  | [] => Ok superlats
  | op :: rest =>
      L ← representation_prepare point_group (sym_copy_apply op init_superlat);
      make_equivalents_loop point_group init_superlat rest
        (clust.set_emplace lattice_less L superlats)
  end.

(** Modelled from the spec: [Supercell(prim, lattice)] is the supercell of
    that prim with that super-lattice ("Return as [Supercell] values sharing
    [sc.prim]"); its prim lattice is the lattice of the prim. *)
Definition supercell_of_lattice (prim : Prim) (superlat : Lattice) : Supercell :=
  mkSupercell prim (mkSuperlattice (prim_lattice_of prim) superlat).

(** [make_equivalents], canonical_form.cc lines 72-103. *)
Definition make_equivalents (supercell : Supercell) : result (list Supercell) :=
  let prim := sc_prim supercell in
  let init_superlat := sl_superlattice (sc_superlattice supercell) in
  let point_group := element (point_group (sym_info prim)) in
  match make_equivalents_loop point_group init_superlat point_group [] with
  | Ok superlats => Ok (List.map (supercell_of_lattice prim) superlats)
  | Err e => Err e
  end.

End equivalents.

(** [SupercellSymOp]: the member [permute_index] that canonical_form.cc
    calls. *)
Record SupercellSymOp : Type := mkSupercellSymOp { permute_index : Z -> Z }.

(** [std::none_of(first, last, p)] *)
Definition none_of {A} (l : list A) (p : A -> bool) : bool := negb (existsb p l).

(** [std::set<Index>::count] *)
Definition set_count (s : gset Z) (x : Z) : nat := if decide (x ∈ s) then 1 else 0.

(** [site_indices_are_invariant], canonical_form.cc lines 106-116. *)
Definition site_indices_are_invariant (op : SupercellSymOp)
    (site_indices : gset Z) : bool :=
  none_of (elements site_indices)
    (fun s => bool_decide (set_count site_indices (permute_index op s) = 0%nat)).

(** [f] is a bijection of the site indices [0 .. n-1]. *)
Definition bijection_of_sites (n : Z) (f : Z -> Z) : Prop :=
  (forall s, 0 <= s < n -> 0 <= f s < n) /\
  (forall s s', 0 <= s < n -> 0 <= s' < n -> f s = f s' -> s = s') /\
  (forall s', 0 <= s' < n -> exists s, 0 <= s < n /\ f s = s').

(** A one-dimensional crystallography layer: a lattice is spanned by one
    integer, an operation multiplies it by an integer, and the canonical
    equivalent is the largest image. *)
Definition line_crystallography : Crystallography :=
  {| Lattice := Z;
     SymOp := Z;
     Tolerance := unit;
     lattice_tol := fun _ => tt;
     lattice_eqb := Z.eqb;
     lattice_ge := Z.ge;
     sym_copy_apply := Z.mul;
     canonical_equivalent := fun L ops _ =>
       match ops with
       | [] => L
       | g :: rest => foldr (fun h m => Z.max (h * L) m) (g * L) rest
       end |}.

(** A supercell of the one-dimensional crystal: the operations of its point
    group and its super-lattice. *)
Definition line_supercell (ops : list Z) (L : Z) : @Supercell line_crystallography :=
  @mkSupercell line_crystallography
    (@mkPrim line_crystallography
       (@mkPrimSymInfo line_crystallography (@mkSymGroup line_crystallography ops)))
    (@mkSuperlattice line_crystallography 1 L).

(** The rest of the one-dimensional layer: lattices are ordered as
    integers, the invariant subgroup of a lattice is read off by applying
    each operation, and the prim lattice is spanned by 1. *)
Definition line_canonical_forms : @LatticeCanonicalForms line_crystallography :=
  {| lattice_less := Z.ltb : @Lattice line_crystallography ->
                             @Lattice line_crystallography -> bool;
     invariant_subgroup_indices := fun (L : Z) (ops : list Z) =>
       List.filter
         (fun i => match ops !! Z.to_nat i with
                   | Some g => bool_decide (g * L = L)
                   | None => false
                   end)
         (index_range (Z.of_nat (length ops)));
     canonical_equivalent_in := fun (L : Z) (ops : list Z) =>
       match ops with
       | [] => L
       | g :: rest => foldr (fun h m => Z.max (h * L) m) (g * L) rest
       end;
     prim_lattice_of := fun _ => 1 |}.

End config.

(* ===================================================================== *)
(** * Properties of the cluster operations *)

Section cluster_order.
Import clust.

Lemma ucc_ltb_spec (c d : UnitCellCoord) :
  ucc_ltb c d = true <->
  sublattice c < sublattice d \/
  (sublattice c = sublattice d /\
   (uc_i (unitcell c) < uc_i (unitcell d) \/
    (uc_i (unitcell c) = uc_i (unitcell d) /\
     (uc_j (unitcell c) < uc_j (unitcell d) \/
      (uc_j (unitcell c) = uc_j (unitcell d) /\
       uc_k (unitcell c) < uc_k (unitcell d)))))).
Proof.
  unfold ucc_ltb.
  rewrite !orb_true_iff, !andb_true_iff, !orb_true_iff, !andb_true_iff,
    !orb_true_iff, !andb_true_iff, !Z.ltb_lt, !Z.eqb_eq.
  tauto.
Qed.

Lemma ucc_le_spec (c d : UnitCellCoord) :
  ucc_le c d <-> ~ ucc_ltb d c = true.
Proof. unfold ucc_le. destruct (ucc_ltb d c); split; congruence. Qed.

#[global] Instance ucc_le_total : Total ucc_le.
Proof.
  intros c d. rewrite !ucc_le_spec, !ucc_ltb_spec. lia.
Qed.

#[global] Instance ucc_le_trans : Transitive ucc_le.
Proof.
  intros c d e. rewrite !ucc_le_spec, !ucc_ltb_spec. lia.
Qed.

#[global] Instance ucc_le_antisymm : AntiSymm (=) ucc_le.
Proof.
  intros [b [i j k]] [b' [i' j' k']].
  rewrite !ucc_le_spec, !ucc_ltb_spec. simpl. intros H1 H2.
  assert (b = b') by lia. assert (i = i') by lia.
  assert (j = j') by lia. assert (k = k') by lia. congruence.
Qed.

(** Translating both sites by the same unit cell keeps their order. *)
Lemma ucc_le_sub (t : UnitCell) (c d : UnitCellCoord) :
  ucc_le c d -> ucc_le (ucc_sub c t) (ucc_sub d t).
Proof. rewrite !ucc_le_spec, !ucc_ltb_spec. simpl. lia. Qed.

Lemma ucc_le_add (t : UnitCell) (c d : UnitCellCoord) :
  ucc_le c d -> ucc_le (ucc_add c t) (ucc_add d t).
Proof. rewrite !ucc_le_spec, !ucc_ltb_spec. simpl. lia. Qed.

Lemma sort_Sorted (l : IntegralCluster) : Sorted ucc_le (sort l).
Proof. apply (Sorted_merge_sort ucc_le). Qed.

Lemma sort_Permutation (l : IntegralCluster) : sort l ≡ₚ l.
Proof. apply (merge_sort_Permutation ucc_le). Qed.

(** The sorted arrangement of a multiset of sites is unique: the order is
    total and antisymmetric. *)
Lemma sort_of_Permutation (l l' : IntegralCluster) :
  l ≡ₚ l' -> sort l = sort l'.
Proof.
  intros Hp. apply (Sorted_unique ucc_le); auto using sort_Sorted.
  rewrite !sort_Permutation. exact Hp.
Qed.

Lemma sort_of_Sorted (l : IntegralCluster) : Sorted ucc_le l -> sort l = l.
Proof.
  intros Hs. apply (Sorted_unique ucc_le); auto using sort_Sorted, sort_Permutation.
Qed.

Lemma sort_length (l : IntegralCluster) : length (sort l) = length l.
Proof. apply Permutation_length, sort_Permutation. Qed.

Lemma sort_cluster_add (l : IntegralCluster) (t : UnitCell) :
  sort (cluster_add l t) = cluster_add (sort l) t.
Proof.
  apply (Sorted_unique ucc_le).
  - apply sort_Sorted.
  - apply (Sorted_fmap _ ucc_le ucc_le); [apply ucc_le_add | apply sort_Sorted].
  - rewrite sort_Permutation. unfold cluster_add.
    apply fmap_Permutation. symmetry. apply sort_Permutation.
Qed.

Lemma cluster_sub_Sorted (l : IntegralCluster) (t : UnitCell) :
  Sorted ucc_le l -> Sorted ucc_le (cluster_sub l t).
Proof. apply (Sorted_fmap _ ucc_le ucc_le), ucc_le_sub. Qed.

Lemma cluster_at_fmap (f : UnitCellCoord -> UnitCellCoord) (l : IntegralCluster) :
  l <> [] -> cluster_at (f <$> l) 0 = f (cluster_at l 0).
Proof. destruct l; [congruence | reflexivity]. Qed.

Lemma uc_sub_diag (u : UnitCell) : uc_sub u u = mkUnitCell 0 0 0.
Proof. destruct u. unfold uc_sub. simpl. f_equal; lia. Qed.

Lemma cluster_sub_add (l : IntegralCluster) (t u : UnitCell) :
  cluster_sub (cluster_add l t) (uc_add u t) = cluster_sub l u.
Proof.
  unfold cluster_sub, cluster_add. rewrite <- list_fmap_compose.
  apply list_fmap_ext. intros _ [b [i j k]] _. destruct t, u.
  unfold ucc_sub, ucc_add, uc_sub, uc_add. simpl. do 2 f_equal; lia.
Qed.

Lemma nonempty_length {A} (l : list A) : l <> [] <-> length l <> 0%nat.
Proof. destruct l; simpl; split; congruence. Qed.

Lemma apply_id (l : IntegralCluster) :
  apply (mkUnitCellCoordRep (fun c => c)) l = l.
Proof. unfold apply. simpl. apply list_fmap_id. Qed.

End cluster_order.

Section cluster_normal_forms.
Import clust.

(** C1. [prim_periodic_integral_cluster_copy_apply op clust] returns an empty
    [clust] unchanged; on a non-empty cluster it returns the cluster got by
    applying [op] to every element, sorting, and translating every element
    by minus the unit cell of element 0 of the sorted cluster.  The value
    returned is then sorted and its element 0 lies in unit cell (0,0,0). *)
Theorem prim_periodic_copy_apply_normalises
    (op : UnitCellCoordRep) (clust : IntegralCluster) :
  (clust = [] -> prim_periodic_integral_cluster_copy_apply op clust = clust) /\
  (clust <> [] ->
   let sorted := sort (apply op clust) in
   let origin := unitcell (cluster_at sorted 0) in
   prim_periodic_integral_cluster_copy_apply op clust =
     (fun c => mkUnitCellCoord (sublattice c) (uc_sub (unitcell c) origin))
       <$> sorted /\
   Sorted ucc_le (prim_periodic_integral_cluster_copy_apply op clust) /\
   length (prim_periodic_integral_cluster_copy_apply op clust) = length clust /\
   unitcell (cluster_at (prim_periodic_integral_cluster_copy_apply op clust) 0)
     = mkUnitCell 0 0 0).
Proof.
  split.
  - intros ->. reflexivity.
  - intros Hne. cbv zeta.
    unfold prim_periodic_integral_cluster_copy_apply.
    destruct (decide (length clust = 0%nat)) as [Hlen | Hlen].
    { apply nonempty_length in Hne. contradiction. }
    assert (Hs : sort (apply op clust) <> []).
    { apply nonempty_length. rewrite sort_length. unfold apply.
      rewrite length_fmap. exact Hlen. }
    repeat split.
    + apply cluster_sub_Sorted, sort_Sorted.
    + unfold cluster_sub, apply. now rewrite length_fmap, sort_length, length_fmap.
    + unfold cluster_sub. rewrite cluster_at_fmap by exact Hs.
      simpl. apply uc_sub_diag.
Qed.

Lemma prim_periodic_copy_apply_normalises_witness :
  let op := mkUnitCellCoordRep
              (fun c => mkUnitCellCoord (sublattice c)
                          (mkUnitCell (- uc_i (unitcell c)) (uc_j (unitcell c))
                             (uc_k (unitcell c)))) in
  let clust := [mkUnitCellCoord 1 (mkUnitCell 2 0 0);
                mkUnitCellCoord 0 (mkUnitCell 3 1 0)] in
  prim_periodic_integral_cluster_copy_apply op clust =
    [mkUnitCellCoord 0 (mkUnitCell 0 0 0);
     mkUnitCellCoord 1 (mkUnitCell 1 (-1) 0)] /\
  unitcell (cluster_at (prim_periodic_integral_cluster_copy_apply op clust) 0)
    = mkUnitCell 0 0 0.
Proof.
  intros op clust. split; [reflexivity |].
  assert (Hne : clust <> []) by (unfold clust; congruence).
  exact (proj2 (proj2 (proj2
    (proj2 (prim_periodic_copy_apply_normalises op clust) Hne)))).
Defined.

(** C10. The values of [prim_periodic_integral_cluster_copy_apply] and of
    [prim_periodic_integral_cluster_frac_translation] do not depend on the
    order in which the elements of the cluster are given. *)
Theorem prim_periodic_functions_order_independent
    (op : UnitCellCoordRep) (clust clust' : IntegralCluster) :
  clust ≡ₚ clust' ->
  prim_periodic_integral_cluster_copy_apply op clust =
    prim_periodic_integral_cluster_copy_apply op clust' /\
  prim_periodic_integral_cluster_frac_translation op clust =
    prim_periodic_integral_cluster_frac_translation op clust'.
Proof.
  intros Hp.
  assert (Hlen : length clust = length clust') by (apply Permutation_length, Hp).
  unfold prim_periodic_integral_cluster_copy_apply,
    prim_periodic_integral_cluster_frac_translation.
  rewrite <- Hlen.
  destruct (decide (length clust = 0%nat)) as [Hz | Hnz].
  - destruct clust; [| discriminate].
    apply Permutation_nil in Hp. subst. split; reflexivity.
  - assert (Happ : sort (apply op clust) = sort (apply op clust')).
    { apply sort_of_Permutation. unfold apply. apply fmap_Permutation, Hp. }
    rewrite (sort_of_Permutation clust clust' Hp), Happ.
    split; reflexivity.
Qed.

Lemma prim_periodic_functions_order_independent_witness :
  let op := mkUnitCellCoordRep
              (fun c => mkUnitCellCoord (sublattice c)
                          (mkUnitCell (uc_j (unitcell c)) (uc_i (unitcell c))
                             (uc_k (unitcell c)))) in
  let a := mkUnitCellCoord 0 (mkUnitCell 1 2 0) in
  let b := mkUnitCellCoord 1 (mkUnitCell 0 0 3) in
  let c := mkUnitCellCoord 0 (mkUnitCell 5 (-1) 0) in
  prim_periodic_integral_cluster_copy_apply op [a; b; c] =
    prim_periodic_integral_cluster_copy_apply op [c; a; b] /\
  prim_periodic_integral_cluster_frac_translation op [a; b; c] =
    prim_periodic_integral_cluster_frac_translation op [c; a; b].
Proof.
  intros op a b c.
  apply (prim_periodic_functions_order_independent op [a; b; c] [c; a; b]).
  change [c; a; b] with ([c] ++ [a; b]).
  change [a; b; c] with ([a; b] ++ [c]).
  apply Permutation_app_comm.
Defined.

(** C2. [local_integral_cluster_copy_apply op c] is [op] applied to every
    element followed by a sort, with no translation: its elements are
    exactly the images of the elements of [c].  Hence a non-empty cluster
    and its copy shifted by a non-zero lattice translation stay different
    clusters under the identity operation, whereas the prim-periodic
    function sends both to the same cluster. *)
Theorem local_copy_apply_keeps_translation
    (op : UnitCellCoordRep) (c : IntegralCluster) :
  local_integral_cluster_copy_apply op c = sort (apply op c) /\
  local_integral_cluster_copy_apply op c ≡ₚ copy_apply_ucc op <$> c /\
  (forall t : UnitCell,
     c <> [] -> t <> mkUnitCell 0 0 0 ->
     let identity := mkUnitCellCoordRep (fun x => x) in
     cluster_eqb (local_integral_cluster_copy_apply identity c)
                 (local_integral_cluster_copy_apply identity (cluster_add c t))
       = false /\
     local_integral_cluster_copy_apply identity c <>
       local_integral_cluster_copy_apply identity (cluster_add c t) /\
     prim_periodic_integral_cluster_copy_apply identity c =
       prim_periodic_integral_cluster_copy_apply identity (cluster_add c t)).
Proof.
  assert (Hloc : forall o l, local_integral_cluster_copy_apply o l = sort (apply o l)).
  { intros o l. unfold local_integral_cluster_copy_apply.
    destruct (decide (length l = 0%nat)) as [Hz | Hnz]; [| reflexivity].
    destruct l; [reflexivity | discriminate]. }
  split; [apply Hloc |]. split.
  { rewrite Hloc. apply sort_Permutation. }
  intros t Hne Ht identity.
  assert (Hsne : sort c <> []).
  { apply nonempty_length. rewrite sort_length. now apply nonempty_length. }
  assert (Hdiff : sort c <> sort (cluster_add c t)).
  { rewrite sort_cluster_add. intros Heq.
    apply (f_equal (fun l => cluster_at l 0)) in Heq.
    unfold cluster_add in Heq. rewrite cluster_at_fmap in Heq by exact Hsne.
    destruct (cluster_at (sort c) 0) as [b [i j k]]. destruct t as [ti tj tk].
    unfold ucc_add, uc_add in Heq. simpl in Heq.
    apply Ht. inversion Heq. f_equal; lia. }
  rewrite !Hloc. subst identity. rewrite !apply_id.
  split; [| split].
  - unfold cluster_eqb. apply bool_decide_eq_false.
    rewrite (sort_of_Sorted (sort c)) by apply sort_Sorted.
    rewrite (sort_of_Sorted (sort (cluster_add c t))) by apply sort_Sorted.
    exact Hdiff.
  - exact Hdiff.
  - unfold prim_periodic_integral_cluster_copy_apply.
    assert (Hlen : length (cluster_add c t) = length c)
      by (unfold cluster_add; apply length_fmap).
    rewrite Hlen.
    destruct (decide (length c = 0%nat)) as [Hz | Hnz].
    { apply nonempty_length in Hne. contradiction. }
    cbv zeta. rewrite !apply_id, sort_cluster_add.
    unfold cluster_add at 2. rewrite cluster_at_fmap by exact Hsne.
    simpl. symmetry. apply cluster_sub_add.
Qed.

Lemma local_copy_apply_keeps_translation_witness :
  let identity := mkUnitCellCoordRep (fun x => x) in
  let c := [mkUnitCellCoord 0 (mkUnitCell 0 0 0);
            mkUnitCellCoord 1 (mkUnitCell 0 1 0)] in
  let t := mkUnitCell 1 0 0 in
  cluster_eqb (local_integral_cluster_copy_apply identity c)
              (local_integral_cluster_copy_apply identity (cluster_add c t))
    = false /\
  local_integral_cluster_copy_apply identity c <>
    local_integral_cluster_copy_apply identity (cluster_add c t) /\
  prim_periodic_integral_cluster_copy_apply identity c =
    prim_periodic_integral_cluster_copy_apply identity (cluster_add c t).
Proof.
  intros identity c t.
  apply (proj2 (proj2 (local_copy_apply_keeps_translation identity c)) t).
  - unfold c. congruence.
  - unfold t. congruence.
Defined.

End cluster_normal_forms.

(* ===================================================================== *)
(** * Properties of the translation permutations *)

Section scatter_loop.
Import SupercellSymInfo_impl.

Lemma index_range_length (n : Z) : length (index_range n) = Z.to_nat n.
Proof. unfold index_range. now rewrite length_fmap, length_seq. Qed.

Lemma index_range_lookup (n : Z) (i : nat) :
  (i < Z.to_nat n)%nat -> index_range n !! i = Some (Z.of_nat i).
Proof.
  intros Hi. unfold index_range. rewrite list_lookup_fmap.
  rewrite lookup_seq_lt by exact Hi. reflexivity.
Qed.

Lemma index_range_elem (n x : Z) : x ∈ index_range n <-> 0 <= x < n.
Proof.
  unfold index_range. rewrite list_elem_of_fmap. split.
  - intros (k & -> & Hk). apply elem_of_seq in Hk. lia.
  - intros Hx. exists (Z.to_nat x). split; [lia |]. apply elem_of_seq. lia.
Qed.

Lemma index_range_snoc (k : nat) :
  index_range (Z.of_nat (S k)) = index_range (Z.of_nat k) ++ [Z.of_nat k].
Proof.
  unfold index_range. rewrite !Nat2Z.id, seq_S, fmap_app. reflexivity.
Qed.

Lemma index_range_NoDup (n : Z) : NoDup (index_range n).
Proof.
  unfold index_range. apply (NoDup_fmap_2 Z.of_nat), NoDup_seq.
Qed.

Lemma index_range_to_nat (n : Z) : index_range (Z.of_nat (Z.to_nat n)) = index_range n.
Proof. unfold index_range. now rewrite Nat2Z.id. Qed.

(** The table of a bijection of [0 .. n-1] lists every index once. *)
Lemma bijection_table_Permutation (n : Z) (f g : Z -> Z) :
  (forall x, 0 <= x < n -> 0 <= f x < n) ->
  (forall x, 0 <= x < n -> 0 <= g x < n) ->
  (forall x, 0 <= x < n -> g (f x) = x) ->
  (forall x, 0 <= x < n -> f (g x) = x) ->
  f <$> index_range n ≡ₚ index_range n.
Proof.
  intros Hf Hg Hgf Hfg. apply NoDup_Permutation.
  - apply NoDup_fmap_2_strong; [| apply index_range_NoDup].
    intros x y Hx Hy Heq. apply index_range_elem in Hx, Hy.
    rewrite <- (Hgf x), <- (Hgf y) by lia. now rewrite Heq.
  - apply index_range_NoDup.
  - intros x. rewrite list_elem_of_fmap. setoid_rewrite index_range_elem. split.
    + intros (y & -> & Hy). now apply Hf.
    + intros Hx. exists (g x). split; [now rewrite Hfg | now apply Hg].
Qed.

Variable bijk : UnitCellCoordIndexConverter.
Variable t : UnitCell.

(** Where the translation [t] sends site [old]. *)
Let new_of (old : Z) : Z :=
  bijk_to_index bijk (ucc_add (bijk_of_index bijk old) t).

Lemma assign_translated_sites_app (l1 l2 p : list Z) :
  assign_translated_sites bijk t (l1 ++ l2) p =
  (assign_translated_sites bijk t l1 p ≫= assign_translated_sites bijk t l2).
Proof.
  revert p. induction l1 as [| o l1 IH]; intros p; simpl; [reflexivity |].
  destruct (vector_assign p _ o) as [p' | e]; simpl; [apply IH | reflexivity].
Qed.

Variable M : nat.
Variable old_of : Z -> Z.
Hypothesis new_in_range :
  forall o, 0 <= o < Z.of_nat M -> 0 <= new_of o < Z.of_nat M.
Hypothesis old_in_range :
  forall n, 0 <= n < Z.of_nat M -> 0 <= old_of n < Z.of_nat M.
Hypothesis new_old : forall n, 0 <= n < Z.of_nat M -> new_of (old_of n) = n.
Hypothesis old_new : forall o, 0 <= o < Z.of_nat M -> old_of (new_of o) = o.

(** After the first [k] sites have written their entry, position [n] holds
    the site that moves to [n] when that site is among the first [k], and
    still holds -1 otherwise. *)
Lemma assign_translated_sites_prefix (k : nat) :
  (k <= M)%nat ->
  exists p,
    assign_translated_sites bijk t (index_range (Z.of_nat k)) (replicate M (-1))
      = Ok p /\
    length p = M /\
    forall n : nat, (n < M)%nat ->
      p !! n = Some (if decide (old_of (Z.of_nat n) < Z.of_nat k)
                     then old_of (Z.of_nat n) else -1).
Proof.
  induction k as [| k IH]; intros Hk.
  - exists (replicate M (-1)). split; [reflexivity |].
    split; [apply length_replicate |].
    intros n Hn. rewrite lookup_replicate_2 by exact Hn.
    destruct (decide _) as [Hlt | _]; [| reflexivity].
    specialize (old_in_range (Z.of_nat n)). lia.
  - destruct IH as (p & Hp & Hlen & Hlook); [lia |].
    rewrite index_range_snoc, assign_translated_sites_app, Hp. simpl.
    fold (new_of (Z.of_nat k)).
    pose proof (new_in_range (Z.of_nat k) ltac:(lia)) as Hrange.
    unfold vector_assign.
    destruct (decide _) as [_ | Hout]; [| rewrite Hlen in Hout; lia].
    simpl. eexists. split; [reflexivity |].
    split; [now rewrite length_insert |].
    intros n Hn.
    destruct (decide (Z.to_nat (new_of (Z.of_nat k)) = n)) as [Heq | Hneq].
    + subst n. rewrite list_lookup_insert_eq by lia.
      rewrite Z2Nat.id by lia. rewrite old_new by lia.
      destruct (decide _); [reflexivity | lia].
    + rewrite list_lookup_insert_ne by exact Hneq.
      rewrite Hlook by exact Hn.
      assert (old_of (Z.of_nat n) <> Z.of_nat k).
      { intros Hc. apply Hneq. rewrite <- Hc, new_old by lia. lia. }
      repeat destruct (decide _); try reflexivity; lia.
Qed.

(** Once every site has written its entry the vector is the table of
    [old_of]. *)
Lemma assign_translated_sites_full :
  assign_translated_sites bijk t (index_range (Z.of_nat M)) (replicate M (-1))
    = Ok (old_of <$> index_range (Z.of_nat M)).
Proof.
  destruct (assign_translated_sites_prefix M) as (p & Hp & Hlen & Hlook); [lia |].
  rewrite Hp. f_equal. apply list_eq. intros n.
  destruct (decide (n < M)%nat) as [Hn | Hn].
  - rewrite Hlook by exact Hn. rewrite list_lookup_fmap.
    rewrite index_range_lookup by lia. simpl.
    destruct (decide _) as [_ | Hge]; [reflexivity |].
    specialize (old_in_range (Z.of_nat n)). lia.
  - rewrite !lookup_ge_None_2; [reflexivity | |].
    + rewrite length_fmap, index_range_length. lia.
    + lia.
Qed.

End scatter_loop.

Section superlattice_congruence.

Variable T : Matrix3l.

Lemma superlattice_equiv_refl (u : UnitCell) : superlattice_equiv T u u.
Proof.
  exists (mkUnitCell 0 0 0). destruct u. unfold uc_sub, mat_vec. simpl.
  f_equal; lia.
Qed.

Lemma superlattice_equiv_sym (u v : UnitCell) :
  superlattice_equiv T u v -> superlattice_equiv T v u.
Proof.
  intros [[wi wj wk] Hw]. exists (mkUnitCell (- wi) (- wj) (- wk)).
  destruct u, v. unfold uc_sub, mat_vec in *. simpl in *.
  inversion Hw. f_equal; lia.
Qed.

Lemma superlattice_equiv_trans (u v w : UnitCell) :
  superlattice_equiv T u v -> superlattice_equiv T v w ->
  superlattice_equiv T u w.
Proof.
  intros [[ai aj ak] Ha] [[bi bj bk] Hb].
  exists (mkUnitCell (ai + bi) (aj + bj) (ak + bk)).
  destruct u, v, w. unfold uc_sub, mat_vec in *. simpl in *.
  inversion Ha. inversion Hb. f_equal; lia.
Qed.

(** Congruence modulo the superlattice is compatible with [+] and [-]. *)
Lemma superlattice_equiv_add (u v s s' : UnitCell) :
  superlattice_equiv T u v -> superlattice_equiv T s s' ->
  superlattice_equiv T (uc_add u s) (uc_add v s').
Proof.
  intros [[ai aj ak] Ha] [[bi bj bk] Hb].
  exists (mkUnitCell (ai + bi) (aj + bj) (ak + bk)).
  destruct u, v, s, s'. unfold uc_add, uc_sub, mat_vec in *. simpl in *.
  inversion Ha. inversion Hb. f_equal; lia.
Qed.

Lemma superlattice_equiv_sub (u v s s' : UnitCell) :
  superlattice_equiv T u v -> superlattice_equiv T s s' ->
  superlattice_equiv T (uc_sub u s) (uc_sub v s').
Proof.
  intros [[ai aj ak] Ha] [[bi bj bk] Hb].
  exists (mkUnitCell (ai - bi) (aj - bj) (ak - bk)).
  destruct u, v, s, s'. unfold uc_add, uc_sub, mat_vec in *. simpl in *.
  inversion Ha. inversion Hb. f_equal; lia.
Qed.

End superlattice_congruence.

Lemma uc_sub_add_cancel (u t : UnitCell) : uc_add (uc_sub u t) t = u.
Proof. destruct u, t. unfold uc_add, uc_sub. simpl. f_equal; lia. Qed.

Lemma uc_add_sub_cancel (u t : UnitCell) : uc_sub (uc_add u t) t = u.
Proof. destruct u, t. unfold uc_add, uc_sub. simpl. f_equal; lia. Qed.

Lemma uc_sub_zero (u : UnitCell) : uc_sub u (mkUnitCell 0 0 0) = u.
Proof. destruct u. unfold uc_sub. simpl. f_equal; lia. Qed.

Lemma uc_sub_sub (u s t : UnitCell) :
  uc_sub (uc_sub u s) t = uc_sub u (uc_add s t).
Proof. destruct u, s, t. unfold uc_add, uc_sub. simpl. f_equal; lia. Qed.

Lemma uc_add_comm (s t : UnitCell) : uc_add s t = uc_add t s.
Proof. destruct s, t. unfold uc_add. simpl. f_equal; lia. Qed.

Section under_contract.
Import SupercellSymInfo_impl.

Variable T : Matrix3l.
Variable B : Z.
Variable ijk : UnitCellIndexConverter.
Variable bijk : UnitCellCoordIndexConverter.
Hypothesis contract : index_converter_contract T B ijk bijk.

Let total : Z := bijk_total_sites bijk.

#[local] Abbreviation old_site := (SupercellSymInfo_impl.old_site bijk).

Lemma bijk_to_index_congr (c d : UnitCellCoord) :
  0 <= sublattice c < B -> sublattice c = sublattice d ->
  superlattice_equiv T (unitcell c) (unitcell d) ->
  bijk_to_index bijk c = bijk_to_index bijk d.
Proof.
  intros Hc Hb He. apply (bijk_reduces _ _ _ _ contract); [lia | lia | auto].
Qed.

(** Converting a site to its index and back gives the representative of
    the same site inside the supercell. *)
Lemma bijk_representative (c : UnitCellCoord) :
  0 <= sublattice c < B ->
  sublattice (bijk_of_index bijk (bijk_to_index bijk c)) = sublattice c /\
  superlattice_equiv T (unitcell (bijk_of_index bijk (bijk_to_index bijk c)))
    (unitcell c).
Proof.
  intros Hc.
  pose proof (bijk_in_range _ _ _ _ contract c Hc) as Hr.
  apply (bijk_reduces _ _ _ _ contract).
  - now apply (bijk_sublattice _ _ _ _ contract).
  - exact Hc.
  - now apply (bijk_round_trip _ _ _ _ contract).
Qed.

Lemma ijk_representative (u : UnitCell) :
  superlattice_equiv T (ijk_of_index ijk (ijk_to_index ijk u)) u.
Proof.
  apply (ijk_reduces _ _ _ _ contract).
  apply (ijk_round_trip _ _ _ _ contract), (ijk_in_range _ _ _ _ contract).
Qed.

Lemma old_site_in_range (t : UnitCell) (n : Z) :
  0 <= n < total -> 0 <= old_site t n < total.
Proof.
  intros Hn. apply (bijk_in_range _ _ _ _ contract). simpl.
  now apply (bijk_sublattice _ _ _ _ contract).
Qed.

Lemma new_site_in_range (t : UnitCell) (o : Z) :
  0 <= o < total ->
  0 <= bijk_to_index bijk (ucc_add (bijk_of_index bijk o) t) < total.
Proof.
  intros Ho. apply (bijk_in_range _ _ _ _ contract). simpl.
  now apply (bijk_sublattice _ _ _ _ contract).
Qed.

Lemma new_site_old_site (t : UnitCell) (n : Z) :
  0 <= n < total ->
  bijk_to_index bijk (ucc_add (bijk_of_index bijk (old_site t n)) t) = n.
Proof.
  intros Hn. unfold old_site.
  pose proof (bijk_sublattice _ _ _ _ contract n Hn) as Hb.
  destruct (bijk_representative (ucc_sub (bijk_of_index bijk n) t)) as [Hs He];
    [exact Hb |].
  transitivity (bijk_to_index bijk (bijk_of_index bijk n));
    [| now apply (bijk_round_trip _ _ _ _ contract)].
  apply bijk_to_index_congr; simpl.
  - rewrite Hs. exact Hb.
  - exact Hs.
  - eapply superlattice_equiv_trans.
    + apply superlattice_equiv_add; [exact He | apply superlattice_equiv_refl].
    + simpl. rewrite uc_sub_add_cancel. apply superlattice_equiv_refl.
Qed.

Lemma old_site_new_site (t : UnitCell) (o : Z) :
  0 <= o < total ->
  old_site t (bijk_to_index bijk (ucc_add (bijk_of_index bijk o) t)) = o.
Proof.
  intros Ho. unfold old_site.
  pose proof (bijk_sublattice _ _ _ _ contract o Ho) as Hb.
  destruct (bijk_representative (ucc_add (bijk_of_index bijk o) t)) as [Hs He];
    [exact Hb |].
  transitivity (bijk_to_index bijk (bijk_of_index bijk o));
    [| now apply (bijk_round_trip _ _ _ _ contract)].
  apply bijk_to_index_congr; simpl.
  - rewrite Hs. exact Hb.
  - exact Hs.
  - eapply superlattice_equiv_trans.
    + apply superlattice_equiv_sub; [exact He | apply superlattice_equiv_refl].
    + simpl. rewrite uc_add_sub_cancel. apply superlattice_equiv_refl.
Qed.

(** Translations that agree modulo the superlattice give the same table. *)
Lemma old_site_congr (s t : UnitCell) (n : Z) :
  0 <= n < total -> superlattice_equiv T s t -> old_site s n = old_site t n.
Proof.
  intros Hn He. unfold old_site.
  pose proof (bijk_sublattice _ _ _ _ contract n Hn) as Hb.
  apply bijk_to_index_congr; simpl; [exact Hb | reflexivity |].
  apply superlattice_equiv_sub; [apply superlattice_equiv_refl | exact He].
Qed.

Lemma old_site_zero (n : Z) :
  0 <= n < total -> old_site (mkUnitCell 0 0 0) n = n.
Proof.
  intros Hn. unfold old_site.
  transitivity (bijk_to_index bijk (bijk_of_index bijk n));
    [| now apply (bijk_round_trip _ _ _ _ contract)].
  f_equal. destruct (bijk_of_index bijk n) as [b u].
  unfold ucc_sub. simpl. now rewrite uc_sub_zero.
Qed.

Lemma old_site_compose (s t : UnitCell) (n : Z) :
  0 <= n < total -> old_site t (old_site s n) = old_site (uc_add s t) n.
Proof.
  intros Hn. unfold old_site.
  pose proof (bijk_sublattice _ _ _ _ contract n Hn) as Hb.
  destruct (bijk_representative (ucc_sub (bijk_of_index bijk n) s)) as [Hs He];
    [exact Hb |].
  apply bijk_to_index_congr; simpl.
  - rewrite Hs. exact Hb.
  - exact Hs.
  - rewrite <- uc_sub_sub.
    apply superlattice_equiv_sub; [exact He | apply superlattice_equiv_refl].
Qed.

Lemma total_to_nat (x : Z) : 0 <= x < Z.of_nat (Z.to_nat total) <-> 0 <= x < total.
Proof. lia. Qed.

(** One lattice point: the vector built for translation [translation_ix]
    is the table of [old_site]. *)
Lemma make_single_translation_permutation_table (translation_ix : Z) :
  make_single_translation_permutation ijk bijk translation_ix =
  Ok (old_site (ijk_of_index ijk translation_ix) <$> index_range total).
Proof.
  unfold make_single_translation_permutation. fold total.
  set (t := ijk_of_index ijk translation_ix).
  rewrite <- (index_range_to_nat total).
  rewrite (assign_translated_sites_full bijk t (Z.to_nat total) (old_site t)).
  - simpl. destruct (decide _) as [Hin | _]; [| reflexivity].
    apply list_elem_of_fmap in Hin. destruct Hin as (n & Hn & Hr).
    apply index_range_elem, total_to_nat in Hr.
    pose proof (old_site_in_range t n Hr). lia.
  - intros o Ho. apply total_to_nat in Ho. rewrite total_to_nat.
    now apply new_site_in_range.
  - intros n Hn. apply total_to_nat in Hn. rewrite total_to_nat.
    now apply old_site_in_range.
  - intros n Hn. apply total_to_nat in Hn. now apply new_site_old_site.
  - intros o Ho. apply total_to_nat in Ho. now apply old_site_new_site.
Qed.

Lemma translation_loop_tables (translations : list Z) (acc : list (list Z)) :
  translation_loop ijk bijk translations acc =
  Ok (acc ++ ((fun ix => old_site (ijk_of_index ijk ix) <$> index_range total)
                <$> translations)).
Proof.
  revert acc. induction translations as [| ix rest IH]; intros acc; simpl.
  - now rewrite app_nil_r.
  - rewrite make_single_translation_permutation_table. simpl.
    rewrite IH, <- app_assoc. reflexivity.
Qed.

Lemma make_translation_permutations_tables :
  make_translation_permutations ijk bijk =
  Ok ((fun ix => old_site (ijk_of_index ijk ix) <$> index_range total)
        <$> index_range (ijk_total_sites ijk)).
Proof. unfold make_translation_permutations. apply translation_loop_tables. Qed.

Lemma old_site_table_Permutation (t : UnitCell) :
  old_site t <$> index_range total ≡ₚ index_range total.
Proof.
  apply (bijection_table_Permutation total (old_site t)
           (fun o => bijk_to_index bijk (ucc_add (bijk_of_index bijk o) t))).
  - apply old_site_in_range.
  - apply new_site_in_range.
  - apply new_site_old_site.
  - apply old_site_new_site.
Qed.

Lemma new_site_table_Permutation (t : UnitCell) :
  (fun o => bijk_to_index bijk (ucc_add (bijk_of_index bijk o) t))
    <$> index_range total ≡ₚ index_range total.
Proof.
  apply (bijection_table_Permutation total _ (old_site t)).
  - apply new_site_in_range.
  - apply old_site_in_range.
  - apply old_site_new_site.
  - apply new_site_old_site.
Qed.

Lemma perm_at_table (f : Z -> Z) (n : Z) :
  0 <= n < total -> perm_at (f <$> index_range total) n = f n.
Proof.
  intros Hn. unfold perm_at. destruct (decide (0 <= n)); [| lia].
  rewrite list_lookup_fmap, index_range_lookup by lia. simpl.
  now rewrite Z2Nat.id by lia.
Qed.

Lemma tables_lookup (ix : Z) :
  0 <= ix < ijk_total_sites ijk ->
  ((fun ix => old_site (ijk_of_index ijk ix) <$> index_range total)
     <$> index_range (ijk_total_sites ijk)) !! Z.to_nat ix =
  Some (old_site (ijk_of_index ijk ix) <$> index_range total).
Proof.
  intros Hix. rewrite list_lookup_fmap, index_range_lookup by lia. simpl.
  now rewrite Z2Nat.id by lia.
Qed.

Lemma compose_tables (s t : UnitCell) :
  compose_value_flow (old_site s <$> index_range total)
                     (old_site t <$> index_range total) =
  old_site (uc_add s t) <$> index_range total.
Proof.
  unfold compose_value_flow. rewrite <- list_fmap_compose.
  apply list_fmap_ext. intros i n Hn.
  apply list_elem_of_lookup_2, index_range_elem in Hn. simpl.
  rewrite perm_at_table by now apply old_site_in_range.
  now apply old_site_compose.
Qed.

End under_contract.

(** ** The converters of a diagonal supercell meet the contract *)

Section diagonal_supercell.

Variables n1 n2 n3 : Z.
Hypothesis n1_pos : 0 < n1.
Hypothesis n2_pos : 0 < n2.
Hypothesis n3_pos : 0 < n3.

Lemma mixed_radix_unique (n a b a' b' : Z) :
  0 <= a < n -> 0 <= a' < n -> a + n * b = a' + n * b' -> a = a' /\ b = b'.
Proof. intros Ha Ha' Heq. assert (b = b') by nia. subst. lia. Qed.

Lemma mod_eq_iff_multiple (n x y : Z) :
  0 < n -> (x mod n = y mod n <-> exists w, x - y = n * w).
Proof.
  intros Hn. split.
  - intros Heq. exists (x / n - y / n).
    pose proof (Z.div_mod x n ltac:(lia)). pose proof (Z.div_mod y n ltac:(lia)).
    lia.
  - intros [w Hw]. replace x with (y + w * n) by lia.
    apply Z.mod_add. lia.
Qed.

Lemma diagonal_determinant :
  Z.abs (determinant (diagonal_shape n1 n2 n3)) = n1 * n2 * n3.
Proof.
  unfold determinant, diagonal_shape. simpl.
  rewrite Z.abs_eq; [lia | nia].
Qed.

Lemma diagonal_ijk_in_range (u : UnitCell) :
  0 <= ijk_to_index (diagonal_ijk_converter n1 n2 n3) u < n1 * n2 * n3.
Proof.
  simpl.
  pose proof (Z.mod_pos_bound (uc_i u) n1 n1_pos).
  pose proof (Z.mod_pos_bound (uc_j u) n2 n2_pos).
  pose proof (Z.mod_pos_bound (uc_k u) n3 n3_pos).
  set (a := uc_i u mod n1) in *. set (b := uc_j u mod n2) in *.
  set (c := uc_k u mod n3) in *.
  assert (0 <= b + n2 * c <= n2 * n3 - 1) by nia.
  set (m := b + n2 * c) in *.
  replace (n1 * n2 * n3) with (n1 * (n2 * n3)) by lia.
  nia.
Qed.

Lemma diagonal_ijk_round_trip (ix : Z) :
  0 <= ix < n1 * n2 * n3 ->
  ijk_to_index (diagonal_ijk_converter n1 n2 n3)
    (ijk_of_index (diagonal_ijk_converter n1 n2 n3) ix) = ix.
Proof.
  intros Hix. simpl.
  rewrite !Z.mod_mod by lia.
  assert (H1 : 0 <= ix / n1 < n2 * n3).
  { split; [apply Z.div_pos; lia | apply Z.div_lt_upper_bound; nia]. }
  assert (H2 : 0 <= ix / n1 / n2 < n3).
  { split; [apply Z.div_pos; lia | apply Z.div_lt_upper_bound; nia]. }
  rewrite (Z.mod_small (ix / n1 / n2) n3) by exact H2.
  pose proof (Z.div_mod ix n1 ltac:(lia)).
  pose proof (Z.div_mod (ix / n1) n2 ltac:(lia)).
  lia.
Qed.

Lemma diagonal_equiv_iff (u v : UnitCell) :
  superlattice_equiv (diagonal_shape n1 n2 n3) u v <->
  uc_i u mod n1 = uc_i v mod n1 /\
  uc_j u mod n2 = uc_j v mod n2 /\
  uc_k u mod n3 = uc_k v mod n3.
Proof.
  rewrite !mod_eq_iff_multiple by assumption.
  destruct u as [i j k], v as [i' j' k'].
  unfold superlattice_equiv, mat_vec, uc_sub, diagonal_shape. simpl. split.
  - intros [[wi wj wk] Hw]. simpl in Hw. inversion Hw.
    repeat split; [exists wi | exists wj | exists wk]; lia.
  - intros ([wi Hi] & [wj Hj] & [wk Hk]). exists (mkUnitCell wi wj wk).
    simpl. f_equal; lia.
Qed.

Lemma diagonal_ijk_reduces (u v : UnitCell) :
  ijk_to_index (diagonal_ijk_converter n1 n2 n3) u =
  ijk_to_index (diagonal_ijk_converter n1 n2 n3) v <->
  superlattice_equiv (diagonal_shape n1 n2 n3) u v.
Proof.
  rewrite diagonal_equiv_iff. simpl.
  pose proof (Z.mod_pos_bound (uc_i u) n1 n1_pos).
  pose proof (Z.mod_pos_bound (uc_j u) n2 n2_pos).
  pose proof (Z.mod_pos_bound (uc_i v) n1 n1_pos).
  pose proof (Z.mod_pos_bound (uc_j v) n2 n2_pos).
  split.
  - intros Heq.
    apply mixed_radix_unique in Heq as [Hi Heq]; [| assumption | assumption].
    apply mixed_radix_unique in Heq as [Hj Hk]; [| assumption | assumption].
    auto.
  - intros (-> & -> & ->). reflexivity.
Qed.

Variable B : Z.

Lemma diagonal_converters_contract :
  index_converter_contract (diagonal_shape n1 n2 n3) B
    (diagonal_ijk_converter n1 n2 n3) (diagonal_bijk_converter n1 n2 n3 B).
Proof.
  assert (HN : 0 < n1 * n2 * n3) by nia.
  constructor.
  - now rewrite diagonal_determinant.
  - apply diagonal_ijk_in_range.
  - apply diagonal_ijk_round_trip.
  - apply diagonal_ijk_reduces.
  - now rewrite diagonal_determinant.
  - intros c Hc. cbn [bijk_to_index bijk_total_sites diagonal_bijk_converter].
    pose proof (diagonal_ijk_in_range (unitcell c)). nia.
  - intros l Hl.
    cbn [bijk_to_index bijk_of_index bijk_total_sites diagonal_bijk_converter
         sublattice unitcell] in *.
    rewrite diagonal_ijk_round_trip by (apply Z.mod_pos_bound; lia).
    pose proof (Z.div_mod l (n1 * n2 * n3) ltac:(lia)). lia.
  - intros l Hl.
    cbn [bijk_of_index bijk_total_sites diagonal_bijk_converter sublattice] in *.
    split; [apply Z.div_pos; lia | apply Z.div_lt_upper_bound; lia].
  - intros c d Hc Hd.
    cbn [bijk_to_index diagonal_bijk_converter].
    rewrite <- diagonal_ijk_reduces.
    pose proof (diagonal_ijk_in_range (unitcell c)).
    pose proof (diagonal_ijk_in_range (unitcell d)).
    split.
    + intros Heq.
      assert (sublattice c = sublattice d) by nia.
      split; [assumption | nia].
    + intros [-> ->]. reflexivity.
Qed.

End diagonal_supercell.

Section translation_permutations.
Import SupercellSymInfo_impl.

(** The seed scenarios: a 1x1x1 supercell has the identity as its only
    translation permutation; in a 2x1x1 supercell with one sublattice the
    second translation swaps the two sites. *)
Example translation_permutations_1x1x1 :
  make_translation_permutations
    (diagonal_ijk_converter 1 1 1) (diagonal_bijk_converter 1 1 1 1) = Ok [[0]].
Proof. reflexivity. Qed.

Example translation_permutations_2x1x1 :
  make_translation_permutations
    (diagonal_ijk_converter 2 1 1) (diagonal_bijk_converter 2 1 1 1)
  = Ok [[0; 1]; [1; 0]].
Proof. reflexivity. Qed.

(** A converter that sends two sites to one index leaves a -1 behind, and
    the check catches it. *)
Example translation_permutations_broken_converter :
  make_translation_permutations
    (mkUnitCellIndexConverter 1 (fun _ => uc_zero) (fun _ => 0))
    (mkUnitCellCoordIndexConverter 2
       (fun l => mkUnitCellCoord l uc_zero) (fun _ => 0))
  = Err AssertionFailure.
Proof. reflexivity. Qed.

(** C4. Under the contract of the index converters of a supercell of shape
    [T] with [B] sublattices, [make_translation_permutations] returns (no
    write falls outside the vector and the check for a remaining -1 never
    fires) exactly [|det T|] permutations; each has length [|det T| * B] and
    lists every index of [0 .. |det T| * B - 1] exactly once, so holds no -1.
    For each translation the positions written by the loop over the sites
    are likewise every index exactly once: every entry is assigned once. *)
Theorem make_translation_permutations_bijections
    (T : Matrix3l) (B : Z)
    (ijk : UnitCellIndexConverter) (bijk : UnitCellCoordIndexConverter) :
  index_converter_contract T B ijk bijk ->
  exists perms : list (list Z),
    make_translation_permutations ijk bijk = Ok perms /\
    length perms = Z.to_nat (Z.abs (determinant T)) /\
    (forall P, P ∈ perms ->
       length P = Z.to_nat (Z.abs (determinant T) * B) /\
       P ≡ₚ index_range (Z.abs (determinant T) * B) /\
       -1 ∉ P) /\
    (forall translation_ix : Z,
       (fun old_site_ix =>
          bijk_to_index bijk
            (ucc_add (bijk_of_index bijk old_site_ix)
                     (ijk_of_index ijk translation_ix)))
         <$> index_range (Z.abs (determinant T) * B)
       ≡ₚ index_range (Z.abs (determinant T) * B)).
Proof.
  intros contract.
  rewrite <- (bijk_total _ _ _ _ contract), <- (ijk_total _ _ _ _ contract).
  eexists. split; [apply (make_translation_permutations_tables _ _ _ _ contract) |].
  split; [now rewrite length_fmap, index_range_length |].
  split.
  - intros P HP. apply list_elem_of_fmap in HP as (ix & -> & _).
    pose proof (old_site_table_Permutation _ _ _ _ contract (ijk_of_index ijk ix))
      as Hperm.
    split; [| split].
    + now rewrite length_fmap, index_range_length.
    + exact Hperm.
    + rewrite Hperm, index_range_elem. lia.
  - intros translation_ix.
    apply (new_site_table_Permutation _ _ _ _ contract).
Qed.

Lemma make_translation_permutations_bijections_witness :
  exists perms : list (list Z),
    make_translation_permutations
      (diagonal_ijk_converter 2 3 1) (diagonal_bijk_converter 2 3 1 2) = Ok perms /\
    length perms = 6%nat /\
    (forall P, P ∈ perms ->
       length P = 12%nat /\ P ≡ₚ index_range 12 /\ -1 ∉ P).
Proof.
  destruct (make_translation_permutations_bijections
              (diagonal_shape 2 3 1) 2
              (diagonal_ijk_converter 2 3 1) (diagonal_bijk_converter 2 3 1 2)
              (diagonal_converters_contract 2 3 1
                 ltac:(lia) ltac:(lia) ltac:(lia) 2))
    as (perms & Hok & Hlen & Hall & _).
  exists perms. split; [exact Hok |]. split; [exact Hlen |]. exact Hall.
Defined.

(** C5. Under the contract of the index converters, the permutation that
    [make_translation_permutations] stores for the zero translation - at the
    linear index of unit cell (0,0,0), and at any index whose unit cell is
    (0,0,0) - is the identity [0; 1; ...; N*B - 1]. *)
Theorem zero_translation_permutation_is_identity
    (T : Matrix3l) (B : Z)
    (ijk : UnitCellIndexConverter) (bijk : UnitCellCoordIndexConverter)
    (perms : list (list Z)) :
  index_converter_contract T B ijk bijk ->
  make_translation_permutations ijk bijk = Ok perms ->
  perms !! Z.to_nat (ijk_to_index ijk (mkUnitCell 0 0 0))
    = Some (index_range (Z.abs (determinant T) * B)) /\
  (forall ix : Z,
     0 <= ix < Z.abs (determinant T) ->
     ijk_of_index ijk ix = mkUnitCell 0 0 0 ->
     perms !! Z.to_nat ix = Some (index_range (Z.abs (determinant T) * B))).
Proof.
  intros contract Hok.
  rewrite (make_translation_permutations_tables _ _ _ _ contract) in Hok.
  injection Hok as <-.
  rewrite <- (bijk_total _ _ _ _ contract), <- (ijk_total _ _ _ _ contract).
  assert (Hid : forall t,
            superlattice_equiv T t (mkUnitCell 0 0 0) ->
            old_site bijk t <$> index_range (bijk_total_sites bijk) =
            index_range (bijk_total_sites bijk)).
  { intros t Ht. rewrite <- (list_fmap_id (index_range _)) at 2.
    apply list_fmap_ext. intros i n Hn.
    apply list_elem_of_lookup_2, index_range_elem in Hn.
    rewrite (old_site_congr _ _ _ _ contract t (mkUnitCell 0 0 0)) by assumption.
    now apply (old_site_zero _ _ _ _ contract). }
  split.
  - rewrite (tables_lookup ijk bijk)
      by apply (ijk_in_range _ _ _ _ contract).
    f_equal. apply Hid, (ijk_representative _ _ _ _ contract).
  - intros ix Hix Hzero. rewrite (tables_lookup ijk bijk) by exact Hix.
    f_equal. apply Hid. rewrite Hzero. apply superlattice_equiv_refl.
Qed.

Lemma zero_translation_permutation_is_identity_witness :
  [[0; 1]; [1; 0]] !!
    Z.to_nat (ijk_to_index (diagonal_ijk_converter 2 1 1) (mkUnitCell 0 0 0))
  = Some (index_range (Z.abs (determinant (diagonal_shape 2 1 1)) * 1)).
Proof.
  exact (proj1 (zero_translation_permutation_is_identity
           (diagonal_shape 2 1 1) 1
           (diagonal_ijk_converter 2 1 1) (diagonal_bijk_converter 2 1 1 1)
           [[0; 1]; [1; 0]]
           (diagonal_converters_contract 2 1 1
              ltac:(lia) ltac:(lia) ltac:(lia) 1)
           eq_refl)).
Defined.

(** C3. Under the contract of the index converters, for translations [t1]
    and [t2] of the supercell (the unit cells of linear indices [ix1] and
    [ix2]), the value-flow composition of the stored permutations,
    (P o Q)[n] = Q[P[n]], of [P_t1] with [P_t2] - in either order - is the
    permutation stored at the linear index of [t1 + t2], the index converter
    reducing [t1 + t2] modulo the supercell. *)
Theorem translation_permutations_compose
    (T : Matrix3l) (B : Z)
    (ijk : UnitCellIndexConverter) (bijk : UnitCellCoordIndexConverter)
    (perms : list (list Z)) (ix1 ix2 : Z) :
  index_converter_contract T B ijk bijk ->
  make_translation_permutations ijk bijk = Ok perms ->
  0 <= ix1 < Z.abs (determinant T) ->
  0 <= ix2 < Z.abs (determinant T) ->
  let t1 := ijk_of_index ijk ix1 in
  let t2 := ijk_of_index ijk ix2 in
  let ix3 := ijk_to_index ijk (uc_add t1 t2) in
  exists P1 P2 P3 : list Z,
    perms !! Z.to_nat ix1 = Some P1 /\
    perms !! Z.to_nat ix2 = Some P2 /\
    perms !! Z.to_nat ix3 = Some P3 /\
    compose_value_flow P1 P2 = P3 /\
    compose_value_flow P2 P1 = P3 /\
    (forall n, 0 <= n < Z.abs (determinant T) * B ->
       perm_at P3 n = perm_at P2 (perm_at P1 n)).
Proof.
  intros contract Hok H1 H2 t1 t2 ix3.
  rewrite (make_translation_permutations_tables _ _ _ _ contract) in Hok.
  injection Hok as <-.
  rewrite <- (ijk_total _ _ _ _ contract) in H1, H2.
  rewrite <- (bijk_total _ _ _ _ contract).
  set (total := bijk_total_sites bijk).
  assert (H3 : old_site bijk (ijk_of_index ijk ix3) <$> index_range total =
               old_site bijk (uc_add t1 t2) <$> index_range total).
  { apply list_fmap_ext. intros i n Hn.
    apply list_elem_of_lookup_2, index_range_elem in Hn.
    apply (old_site_congr _ _ _ _ contract); [exact Hn |].
    apply (ijk_representative _ _ _ _ contract). }
  exists (old_site bijk t1 <$> index_range total),
         (old_site bijk t2 <$> index_range total),
         (old_site bijk (uc_add t1 t2) <$> index_range total).
  split; [now apply tables_lookup |].
  split; [now apply tables_lookup |].
  split.
  { rewrite (tables_lookup ijk bijk) by apply (ijk_in_range _ _ _ _ contract).
    now f_equal. }
  split; [apply (compose_tables _ _ _ _ contract) |].
  split.
  { rewrite (uc_add_comm t1 t2). apply (compose_tables _ _ _ _ contract). }
  intros n Hn.
  rewrite (perm_at_table bijk (old_site bijk t1)) by assumption.
  rewrite (perm_at_table bijk (old_site bijk (uc_add t1 t2))) by assumption.
  rewrite (perm_at_table bijk (old_site bijk t2))
    by now apply (old_site_in_range _ _ _ _ contract).
  symmetry. now apply (old_site_compose _ _ _ _ contract).
Qed.

Lemma translation_permutations_compose_witness :
  let ijk := diagonal_ijk_converter 2 3 1 in
  let perms :=
    [[0; 1; 2; 3; 4; 5]; [1; 0; 3; 2; 5; 4]; [4; 5; 0; 1; 2; 3];
     [5; 4; 1; 0; 3; 2]; [2; 3; 4; 5; 0; 1]; [3; 2; 5; 4; 1; 0]] in
  exists P1 P2 P3 : list Z,
    perms !! Z.to_nat 3 = Some P1 /\
    perms !! Z.to_nat 5 = Some P2 /\
    perms !! Z.to_nat
      (ijk_to_index ijk (uc_add (ijk_of_index ijk 3) (ijk_of_index ijk 5)))
      = Some P3 /\
    compose_value_flow P1 P2 = P3.
Proof.
  intros ijk perms.
  destruct (translation_permutations_compose
              (diagonal_shape 2 3 1) 1
              ijk (diagonal_bijk_converter 2 3 1 1) perms 3 5
              (diagonal_converters_contract 2 3 1
                 ltac:(lia) ltac:(lia) ltac:(lia) 1)
              ltac:(reflexivity) ltac:(vm_compute; intuition congruence)
              ltac:(vm_compute; intuition congruence))
    as (P1 & P2 & P3 & Hp1 & Hp2 & Hp3 & Hc & _).
  exists P1, P2, P3. auto.
Defined.

End translation_permutations.

(* ===================================================================== *)
(** * Properties of the canonical-form operators *)

Section invariant_site_indices.
Import config.

Lemma none_of_spec {A} (l : list A) (p : A -> bool) :
  none_of l p = true <-> forall x, x ∈ l -> p x = false.
Proof.
  unfold none_of. rewrite negb_true_iff. split.
  - intros Hex x Hx. destruct (p x) eqn:Hp; [| reflexivity].
    assert (existsb p l = true); [| congruence].
    apply existsb_exists. exists x. split; [now apply list_elem_of_In | exact Hp].
  - intros Hall. destruct (existsb p l) eqn:Hex; [| reflexivity].
    apply existsb_exists in Hex as (x & Hx & Hp).
    apply list_elem_of_In in Hx. rewrite (Hall x Hx) in Hp. discriminate.
Qed.

Lemma set_count_zero (s : gset Z) (x : Z) : set_count s x = 0%nat <-> x ∉ s.
Proof. unfold set_count. destruct (decide (x ∈ s)); split; intros; try lia; tauto. Qed.

Lemma site_indices_are_invariant_spec (op : SupercellSymOp) (S : gset Z) :
  site_indices_are_invariant op S = true <->
  forall s, s ∈ S -> permute_index op s ∈ S.
Proof.
  unfold site_indices_are_invariant. rewrite none_of_spec.
  setoid_rewrite elem_of_elements. setoid_rewrite bool_decide_eq_false.
  setoid_rewrite set_count_zero. split; intros Hall s Hs.
  - specialize (Hall s Hs). now apply dec_stable.
  - specialize (Hall s Hs). tauto.
Qed.

(** An injective map of a finite set into itself reaches every element. *)
Lemma closed_injective_onto (f : Z -> Z) (S : gset Z) :
  (forall s s', s ∈ S -> s' ∈ S -> f s = f s' -> s = s') ->
  (forall s, s ∈ S -> f s ∈ S) ->
  forall x, x ∈ S -> exists s, s ∈ S /\ f s = x.
Proof.
  intros Hinj Hclosed x Hx.
  assert (Hperm : f <$> elements S ≡ₚ elements S).
  { apply submseteq_length_Permutation.
    - apply NoDup_submseteq.
      + apply NoDup_fmap_2_strong; [| apply NoDup_elements].
        intros s s' Hs Hs'. apply Hinj; now apply elem_of_elements.
      + intros y Hy. apply list_elem_of_fmap in Hy as (s & -> & Hs).
        apply elem_of_elements, Hclosed. now apply elem_of_elements.
    - now rewrite length_fmap. }
  apply elem_of_elements in Hx. rewrite <- Hperm in Hx.
  apply list_elem_of_fmap in Hx as (s & -> & Hs).
  exists s. split; [now apply elem_of_elements | reflexivity].
Qed.

(** C6. For an operation whose [permute_index] is a bijection of the site
    indices [0 .. n-1] and a set [S] of site indices,
    [site_indices_are_invariant op S] is true exactly when [permute_index]
    maps every element of [S] into [S]; and then no index outside [S] is
    mapped into [S] and every element of [S] is the image of an element of
    [S]: no site leaves or enters the set. *)
Theorem site_indices_are_invariant_iff_closed
    (op : SupercellSymOp) (n : Z) (S : gset Z) :
  bijection_of_sites n (permute_index op) ->
  (forall s, s ∈ S -> 0 <= s < n) ->
  (site_indices_are_invariant op S = true <->
   forall s, s ∈ S -> permute_index op s ∈ S) /\
  (site_indices_are_invariant op S = true ->
   (forall s, 0 <= s < n -> s ∉ S -> permute_index op s ∉ S) /\
   (forall s', s' ∈ S -> exists s, s ∈ S /\ permute_index op s = s')).
Proof.
  intros (Hrange & Hinj & Hsurj) HS.
  split; [apply site_indices_are_invariant_spec |].
  intros Htrue.
  pose proof (proj1 (site_indices_are_invariant_spec op S) Htrue) as Hinv.
  assert (Honto : forall x, x ∈ S -> exists s, s ∈ S /\ permute_index op s = x).
  { apply closed_injective_onto; [| exact Hinv].
    intros s s' Hs Hs'. apply Hinj; now apply HS. }
  split; [| exact Honto].
  intros s Hs Hout Hin.
  destruct (Honto _ Hin) as (s0 & Hs0 & Heq).
  apply Hinj in Heq; [| now apply HS | exact Hs]. congruence.
Qed.

Lemma site_indices_are_invariant_iff_closed_witness :
  let op := mkSupercellSymOp (fun s => (s + 2) mod 4) in
  let S : gset Z := {[ 1; 3 ]} in
  site_indices_are_invariant op S = true /\
  (forall s, 0 <= s < 4 -> s ∉ S -> permute_index op s ∉ S).
Proof.
  intros op S.
  assert (Hb : bijection_of_sites 4 (permute_index op)).
  { unfold bijection_of_sites, op. simpl. split; [| split].
    - intros s _. apply Z.mod_pos_bound. lia.
    - intros s s' Hs Hs' Heq.
      assert (s = 0 \/ s = 1 \/ s = 2 \/ s = 3) as Hc by lia.
      assert (s' = 0 \/ s' = 1 \/ s' = 2 \/ s' = 3) as Hc' by lia.
      destruct Hc as [-> | [-> | [-> | ->]]], Hc' as [-> | [-> | [-> | ->]]];
        vm_compute in Heq; congruence.
    - intros s' Hs'. exists ((s' + 2) mod 4).
      assert (s' = 0 \/ s' = 1 \/ s' = 2 \/ s' = 3) as Hc by lia.
      destruct Hc as [-> | [-> | [-> | ->]]]; vm_compute; intuition congruence. }
  assert (HS : forall s, s ∈ S -> 0 <= s < 4).
  { intros s. unfold S. rewrite elem_of_union, !elem_of_singleton. lia. }
  destruct (site_indices_are_invariant_iff_closed op 4 S Hb HS) as [Hiff Hout].
  assert (Htrue : site_indices_are_invariant op S = true) by (vm_compute; reflexivity).
  split; [exact Htrue |]. apply (Hout Htrue).
Defined.

End invariant_site_indices.

Section canonical_supercell.
Import config.
Context `{Crystallography}.

Lemma in_orbit_of_in_orbit (ops : list SymOp) (L L' L'' : Lattice) :
  acts_as_group ops -> in_orbit ops L L' -> in_orbit ops L' L'' ->
  in_orbit ops L L''.
Proof.
  intros [_ Hclosed] (h & Hh & ->) (g & Hg & ->).
  destruct (Hclosed g h Hg Hh) as (k & Hk & Hact).
  exists k. split; [exact Hk | now rewrite Hact].
Qed.

Lemma in_orbit_refl (ops : list SymOp) (L : Lattice) :
  acts_as_group ops -> in_orbit ops L L.
Proof.
  intros [(e & He & Hfix) _]. exists e. split; [exact He | now rewrite Hfix].
Qed.

(** A greatest element of an orbit is also greatest in its own orbit. *)
Lemma orbit_maximum_of_itself (ops : list SymOp) (L m : Lattice) :
  acts_as_group ops -> orbit_maximum ops L m -> orbit_maximum ops m m.
Proof.
  intros Hgroup [Hin Hmax]. split.
  - now apply in_orbit_refl.
  - intros L' HL'. apply Hmax. now apply (in_orbit_of_in_orbit ops L m L').
Qed.

Lemma canonical_equivalent_idempotent (ops : list SymOp) (L : Lattice) :
  acts_as_group ops -> canonical_equivalent_contract ops ->
  let c := canonical_equivalent L ops (lattice_tol L) in
  canonical_equivalent c ops (lattice_tol c) = c.
Proof.
  intros Hgroup Hcontract c. symmetry.
  apply (Hcontract c).
  apply (orbit_maximum_of_itself ops L c Hgroup).
  apply (Hcontract L).
Qed.

(** C7. [make_canonical_form] is idempotent: given that the point group of
    the prim acts as a group and that [canonical::equivalent] returns the
    unique >=-maximum of the point-group orbit, canonicalising a canonical
    supercell gives the same super-lattice (indeed the same supercell), and
    both results share the prim of the supercell one started from. *)
Theorem make_canonical_form_idempotent (sc : Supercell) :
  acts_as_group (element (point_group (sym_info (sc_prim sc)))) ->
  canonical_equivalent_contract (element (point_group (sym_info (sc_prim sc)))) ->
  sl_superlattice (sc_superlattice (make_canonical_form (make_canonical_form sc)))
    = sl_superlattice (sc_superlattice (make_canonical_form sc)) /\
  sc_prim (make_canonical_form (make_canonical_form sc)) = sc_prim sc /\
  sc_prim (make_canonical_form sc) = sc_prim sc /\
  make_canonical_form (make_canonical_form sc) = make_canonical_form sc.
Proof.
  intros Hgroup Hcontract.
  pose proof (canonical_equivalent_idempotent _
                (sl_superlattice (sc_superlattice sc)) Hgroup Hcontract) as Hidem.
  cbv zeta in Hidem.
  unfold make_canonical_form. simpl.
  repeat split; try exact Hidem.
  now rewrite Hidem.
Qed.

Lemma from_canonical_search_ok (lhs canonical : Lattice) (ops : list SymOp)
    (g : SymOp) :
  from_canonical_search lhs canonical ops = Ok g <->
  exists before after,
    ops = before ++ g :: after /\
    lattice_eqb lhs (sym_copy_apply g canonical) = true /\
    forall h, h ∈ before -> lattice_eqb lhs (sym_copy_apply h canonical) = false.
Proof.
  induction ops as [| op rest IH]; simpl.
  - split; [discriminate |].
    intros (before & after & Heq & _). destruct before; discriminate.
  - destruct (lattice_eqb lhs (sym_copy_apply op canonical)) eqn:Hop.
    + split.
      * intros [= <-]. exists [], rest. repeat split; [exact Hop |].
        intros h Hh. inversion Hh.
      * intros (before & after & Heq & Hg & Hbefore).
        destruct before as [| b before]; simpl in Heq.
        -- now injection Heq as -> _.
        -- injection Heq as -> _.
           rewrite (Hbefore b) in Hop by left. discriminate.
    + rewrite IH. split.
      * intros (before & after & -> & Hg & Hbefore).
        exists (op :: before), after. repeat split; [exact Hg |].
        intros h Hh. apply elem_of_cons in Hh as [-> | Hh]; auto.
      * intros (before & after & Heq & Hg & Hbefore).
        destruct before as [| b before]; simpl in Heq.
        -- injection Heq as -> _. congruence.
        -- injection Heq as -> ->. exists before, after.
           repeat split; [exact Hg |]. intros h Hh. apply Hbefore. now right.
Qed.

Lemma from_canonical_search_err (lhs canonical : Lattice) (ops : list SymOp)
    (e : error) :
  from_canonical_search lhs canonical ops = Err e <->
  e = RuntimeError
        "Error in CASM::config::from_canonical(Supercell const &): Not found" /\
  forall g, g ∈ ops -> lattice_eqb lhs (sym_copy_apply g canonical) = false.
Proof.
  induction ops as [| op rest IH]; simpl.
  - split.
    + intros [= <-]. split; [reflexivity |]. intros g Hg. inversion Hg.
    + intros [-> _]. reflexivity.
  - destruct (lattice_eqb lhs (sym_copy_apply op canonical)) eqn:Hop.
    + split; [discriminate |]. intros [_ Hall].
      rewrite (Hall op) in Hop by left. discriminate.
    + rewrite IH. split; intros [He Hall]; (split; [exact He |]).
      * intros g Hg. apply elem_of_cons in Hg as [-> | Hg]; auto.
      * intros g Hg. apply Hall. now right.
Qed.

(** C8. [from_canonical sc] returns the first operation [g] of the prim
    point group, in the order of the group, for which the super-lattice of
    [sc] equals [copy_apply(g, canonical(sc))]; when no operation of the
    point group does, it throws a [runtime_error] whose message contains
    "Not found", and returns no operation. *)
Theorem from_canonical_first_match_or_throw (sc : Supercell) :
  let pg := element (point_group (sym_info (sc_prim sc))) in
  let lhs := sl_superlattice (sc_superlattice sc) in
  let canonical := sl_superlattice (sc_superlattice (make_canonical_form sc)) in
  let matches := fun g => lattice_eqb lhs (sym_copy_apply g canonical) in
  (forall g,
     from_canonical sc = Ok g <->
     exists before after,
       pg = before ++ g :: after /\ matches g = true /\
       forall h, h ∈ before -> matches h = false) /\
  ((forall g, g ∈ pg -> matches g = false) ->
   exists msg,
     from_canonical sc = Err (RuntimeError msg) /\
     String.index 0 "Not found" msg <> None /\
     forall g, from_canonical sc <> Ok g) /\
  (forall e, from_canonical sc = Err e ->
     forall g, g ∈ pg -> matches g = false).
Proof.
  intros pg lhs canonical matches.
  unfold from_canonical. fold pg lhs.
  change (canonical_equivalent lhs pg (lattice_tol lhs)) with canonical.
  split; [| split].
  - intros g. apply from_canonical_search_ok.
  - intros Hnone.
    assert (Herr : from_canonical_search lhs canonical pg =
                   Err (RuntimeError
                     "Error in CASM::config::from_canonical(Supercell const &): Not found")).
    { apply from_canonical_search_err. split; [reflexivity | exact Hnone]. }
    eexists. split; [exact Herr |]. split.
    + vm_compute. discriminate.
    + intros g Hg. rewrite Herr in Hg. discriminate.
  - intros e He. now apply from_canonical_search_err in He as [_ Hall].
Qed.

End canonical_supercell.

Section canonical_supercell_on_a_line.
Import config.

#[local] Existing Instance line_crystallography.


Lemma line_point_group_acts_as_group : acts_as_group [1; -1].
Proof.
  split.
  - exists 1. split; [left |]. intros L. simpl. lia.
  - intros g h Hg Hh. exists (g * h). split.
    + apply elem_of_cons in Hg as [-> | Hg], Hh as [-> | Hh];
        rewrite ?list_elem_of_singleton in *; subst; simpl;
        repeat first [left | right; left].
    + intros L. simpl. lia.
Qed.

Lemma line_in_orbit (L m : Z) : in_orbit [1; -1] L m <-> m = L \/ m = - L.
Proof.
  unfold in_orbit. simpl. split.
  - intros (g & Hg & ->).
    apply elem_of_cons in Hg as [-> | Hg];
      [| apply list_elem_of_singleton in Hg as ->]; lia.
  - intros [-> | ->]; [exists 1 | exists (-1)]; (split; [| lia]).
    + left.
    + right. left.
Qed.

Lemma line_canonical_equivalent_contract : canonical_equivalent_contract [1; -1].
Proof.
  intros L. unfold orbit_maximum. setoid_rewrite line_in_orbit. simpl.
  split; [split |].
  - lia.
  - intros L' [-> | ->]; lia.
  - intros m [[-> | ->] Hmax].
    + specialize (Hmax (- L) ltac:(lia)). lia.
    + specialize (Hmax L ltac:(lia)). lia.
Qed.

Lemma make_canonical_form_idempotent_witness :
  make_canonical_form (make_canonical_form (line_supercell [1; -1] (-3))) =
  make_canonical_form (line_supercell [1; -1] (-3)).
Proof.
  exact (proj2 (proj2 (proj2
    (make_canonical_form_idempotent (line_supercell [1; -1] (-3))
       line_point_group_acts_as_group line_canonical_equivalent_contract)))).
Defined.

Lemma from_canonical_first_match_or_throw_witness :
  from_canonical (line_supercell [1; -1] (-3)) = Ok (-1) /\
  exists msg,
    from_canonical (line_supercell [2] 3) = Err (RuntimeError msg) /\
    String.index 0 "Not found" msg <> None.
Proof.
  split.
  - apply (proj1 (from_canonical_first_match_or_throw
                    (line_supercell [1; -1] (-3)))).
    exists [1], []. split; [reflexivity |]. split; [reflexivity |].
    intros h Hh. apply list_elem_of_singleton in Hh as ->. reflexivity.
  - destruct (proj1 (proj2 (from_canonical_first_match_or_throw
                              (line_supercell [2] 3))))
      as (msg & Herr & Hmsg & _).
    + intros g Hg. apply list_elem_of_singleton in Hg as ->. reflexivity.
    + exists msg. split; assumption.
Defined.

End canonical_supercell_on_a_line.

(* ===================================================================== *)
(** * Properties of the orbit enumeration *)

Section ordered_sets.
Import clust.
Context {A : Type} (less : A -> A -> bool).

Lemma set_emplace_keeps (x y : A) (s : list A) :
  y ∈ s -> y ∈ set_emplace less x s.
Proof.
  induction s as [| z s IH]; simpl; intros Hy.
  - inversion Hy.
  - destruct (less x z); [now right |].
    destruct (less z x); [| exact Hy].
    apply elem_of_cons in Hy as [-> | Hy]; [left | right; auto].
Qed.

Lemma set_emplace_holds (x : A) (s : list A) :
  set_holds less (set_emplace less x s) x.
Proof.
  unfold set_holds. induction s as [| z s IH]; simpl.
  - exists x. split; [left | now left].
  - destruct (less x z) eqn:Hxz.
    + exists x. split; [left | now left].
    + destruct (less z x) eqn:Hzx.
      * destruct IH as (y & Hy & Hrel). exists y. split; [now right | exact Hrel].
      * exists z. split; [left | right; auto].
Qed.

Lemma set_holds_emplace (x x' : A) (s : list A) :
  set_holds less s x -> set_holds less (set_emplace less x' s) x.
Proof.
  intros (y & Hy & Hrel). exists y. split; [| exact Hrel].
  now apply set_emplace_keeps.
Qed.

Lemma set_holds_foldl_emplace {B} (f : B -> A) (xs : list B) (s : list A) (x : A) :
  set_holds less s x ->
  set_holds less (foldl (fun acc b => set_emplace less (f b) acc) s xs) x.
Proof.
  revert s. induction xs as [| b xs IH]; intros s Hs; simpl; [exact Hs |].
  apply IH, set_holds_emplace, Hs.
Qed.

Lemma foldl_emplace_holds {B} (f : B -> A) (xs : list B) (s : list A) (b : B) :
  b ∈ xs ->
  set_holds less (foldl (fun acc b => set_emplace less (f b) acc) s xs) (f b).
Proof.
  revert s. induction xs as [| b' xs IH]; intros s Hb; simpl.
  - inversion Hb.
  - apply elem_of_cons in Hb as [-> | Hb].
    + apply set_holds_foldl_emplace, set_emplace_holds.
    + now apply IH.
Qed.

End ordered_sets.

Section custom_phase.
Import clust.
Context {A : Type} (less : A -> A -> bool).
Variable entry : IntegralCluster -> A.
Variable subs : IntegralCluster -> list IntegralCluster.

(** The shape shared by the custom-generator loops of the prim-periodic and
    of the local enumeration: emplace the entry of the prototype, then, if
    asked, the entry of every subcluster. *)
Variable add : list A -> IntegralClusterOrbitGenerator -> list A.
Hypothesis add_unfold : forall final generator,
  add final generator =
  let final := set_emplace less (entry (prototype generator)) final in
  if include_subclusters generator then
    foldl (fun final value => set_emplace less (entry value) final)
          final (subs (prototype generator))
  else final.

Lemma add_keeps final generator x :
  set_holds less final x -> set_holds less (add final generator) x.
Proof.
  intros Hx. rewrite add_unfold. cbv zeta.
  destruct (include_subclusters generator).
  - apply (set_holds_foldl_emplace less entry), set_holds_emplace, Hx.
  - apply set_holds_emplace, Hx.
Qed.

Lemma add_holds final generator :
  set_holds less (add final generator) (entry (prototype generator)) /\
  (include_subclusters generator = true ->
   forall value, value ∈ subs (prototype generator) ->
     set_holds less (add final generator) (entry value)).
Proof.
  rewrite add_unfold. cbv zeta. split.
  - destruct (include_subclusters generator).
    + apply (set_holds_foldl_emplace less entry), set_emplace_holds.
    + apply set_emplace_holds.
  - intros -> value Hvalue.
    now apply (foldl_emplace_holds less entry).
Qed.

Lemma foldl_add_keeps generators final x :
  set_holds less final x -> set_holds less (foldl add final generators) x.
Proof.
  revert final. induction generators as [| g gs IH]; intros final Hx; simpl.
  - exact Hx.
  - apply IH, add_keeps, Hx.
Qed.

(** Every generator of the list leaves its prototype, and its subclusters
    when asked, in the set; later generators remove nothing. *)
Lemma foldl_add_holds generators final generator :
  generator ∈ generators ->
  set_holds less (foldl add final generators) (entry (prototype generator)) /\
  (include_subclusters generator = true ->
   forall value, value ∈ subs (prototype generator) ->
     set_holds less (foldl add final generators) (entry value)).
Proof.
  revert final. induction generators as [| g gs IH]; intros final Hin; simpl.
  - inversion Hin.
  - apply elem_of_cons in Hin as [-> | Hin]; [| now apply IH].
    destruct (add_holds final g) as [Hproto Hsub].
    split.
    + apply foldl_add_keeps, Hproto.
    + intros Hinc value Hvalue. apply foldl_add_keeps. now apply Hsub.
Qed.

End custom_phase.

Section custom_generators.
Import clust.
Context `{Clusterography}.

Variable prim : BasicStructure.
Variable reps : list UnitCellCoordRep.

#[local] Abbreviation canonical_entry := (clust.canonical_entry prim reps).

(** C9. In [make_prim_periodic_orbits], whatever the site filter and the
    maximum lengths (hence whatever the cluster filters built from them),
    the canonical form of the prototype of every custom generator is in the
    final cluster set, and when [include_subclusters] is set so is the
    canonical form of every subcluster that [SubClusterCounter] produces;
    the orbit of the element that stands for it is among the orbits
    returned.  No filter can exclude a custom-generator cluster. *)
Theorem custom_generators_bypass_filters
    (site_filter : Site -> bool) (max_length : list Real)
    (custom_generators : list IntegralClusterOrbitGenerator)
    (generator : IntegralClusterOrbitGenerator) :
  generator ∈ custom_generators ->
  let final :=
    prim_periodic_final prim reps site_filter max_length custom_generators in
  let orbits :=
    make_prim_periodic_orbits prim reps site_filter max_length custom_generators in
  let included := fun cluster =>
    exists pair,
      pair ∈ final /\
      (pair = canonical_entry cluster \/
       (compare_f (prim_lattice_tol prim) (canonical_entry cluster) pair = false /\
        compare_f (prim_lattice_tol prim) pair (canonical_entry cluster) = false)) /\
      make_prim_periodic_orbit pair.2 reps ∈ orbits in
  included (prototype generator) /\
  (include_subclusters generator = true ->
   forall value, value ∈ sub_clusters (prototype generator) -> included value).
Proof.
  intros Hin final orbits included.
  assert (Hincl : forall cluster,
            set_holds (compare_f (prim_lattice_tol prim)) final
              (canonical_entry cluster) -> included cluster).
  { intros cluster (pair & Hpair & Hrel). exists pair.
    split; [exact Hpair |]. split; [exact Hrel |].
    unfold orbits, make_prim_periodic_orbits. fold final.
    apply list_elem_of_fmap. exists pair. split; [reflexivity | exact Hpair]. }
  unfold final, prim_periodic_final in Hincl. cbv zeta in Hincl.
  destruct (foldl _ _ _) as [final0 prev_branch] in Hincl.
  destruct (foldl_add_holds (compare_f (prim_lattice_tol prim))
              canonical_entry sub_clusters
              (prim_periodic_add_custom_generator prim reps)
              ltac:(reflexivity) custom_generators
              (set_insert_range (compare_f (prim_lattice_tol prim))
                 prev_branch final0) generator Hin) as [Hproto Hsub].
  split.
  - apply Hincl, Hproto.
  - intros Hinc value Hvalue. apply Hincl. now apply Hsub.
Qed.

(** The local enumeration treats its custom generators the same way
    (orbits.cc lines 516-533). *)
Lemma local_custom_generators_bypass_filters
    (site_filter : Site -> bool) (max_length cutoff_radius : list Real)
    (phenomenal : IntegralCluster) (include_phenomenal_sites : bool)
    (custom_generators : list IntegralClusterOrbitGenerator)
    (generator : IntegralClusterOrbitGenerator) :
  generator ∈ custom_generators ->
  let final :=
    local_final prim reps site_filter max_length custom_generators phenomenal
      cutoff_radius include_phenomenal_sites in
  let included := fun cluster =>
    set_holds (compare_f (prim_lattice_tol prim)) final
      (local_canonical_entry prim reps phenomenal cluster) in
  included (prototype generator) /\
  (include_subclusters generator = true ->
   forall value, value ∈ sub_clusters (prototype generator) -> included value).
Proof.
  intros Hin final included. unfold included, final, local_final. cbv zeta.
  destruct (foldl _ _ _) as [final0 prev_branch].
  apply (foldl_add_holds (compare_f (prim_lattice_tol prim))
           (local_canonical_entry prim reps phenomenal) sub_clusters
           (local_add_custom_generator prim reps phenomenal)
           ltac:(reflexivity) custom_generators _ generator Hin).
Qed.

End custom_generators.

Section custom_generators_small.
Import clust.

#[local] Existing Instance small_clusterography.

Lemma custom_generators_bypass_filters_witness :
  let identity := mkUnitCellCoordRep (fun c => c) in
  let inversion :=
    mkUnitCellCoordRep
      (fun c => mkUnitCellCoord (1 - sublattice c)
                  (mkUnitCell (- uc_i (unitcell c)) (- uc_j (unitcell c))
                     (- uc_k (unitcell c)))) in
  let reps := [identity; inversion] in
  let generator :=
    mkIntegralClusterOrbitGenerator
      [mkUnitCellCoord 1 (mkUnitCell 2 0 0); mkUnitCellCoord 0 (mkUnitCell 3 1 0)]
      true in
  let reject_all_sites := fun _ : UnitCellCoord => false in
  let entry :=
    @canonical_entry small_clusterography tt reps (prototype generator) in
  exists pair : nat * IntegralCluster,
    pair ∈ @prim_periodic_final small_clusterography tt reps reject_all_sites
             [0; 0; 0] [generator] /\
    (pair = entry \/
     (@compare_f small_clusterography 0 entry pair = false /\
      @compare_f small_clusterography 0 pair entry = false)) /\
    @make_prim_periodic_orbit small_clusterography pair.2 reps
      ∈ @make_prim_periodic_orbits small_clusterography tt reps reject_all_sites
          [0; 0; 0] [generator].
Proof.
  intros identity inversion reps generator reject_all_sites entry.
  apply (proj1 (@custom_generators_bypass_filters small_clusterography tt reps
                  reject_all_sites [0; 0; 0] [generator] generator
                  ltac:(left))).
Defined.

End custom_generators_small.

(* ===================================================================== *)
(** * Further properties of the cluster operations *)

Section cluster_actions.
Import clust.

Lemma cluster_sub_as_add (l : IntegralCluster) (u : UnitCell) :
  cluster_sub l u = cluster_add l (uc_sub uc_zero u).
Proof.
  unfold cluster_sub, cluster_add. apply list_fmap_ext.
  intros i [b [x y z]] _. destruct u. unfold ucc_sub, ucc_add, uc_sub, uc_add.
  simpl. do 2 f_equal; lia.
Qed.

Lemma cluster_add_add (l : IntegralCluster) (s t : UnitCell) :
  cluster_add (cluster_add l s) t = cluster_add l (uc_add s t).
Proof.
  unfold cluster_add. rewrite <- list_fmap_compose. apply list_fmap_ext.
  intros i [b [x y z]] _. destruct s, t. unfold ucc_add, uc_add. simpl.
  do 2 f_equal; lia.
Qed.

Lemma cluster_sub_then_add (l : IntegralCluster) (v u : UnitCell) :
  cluster_add (cluster_sub l v) u = cluster_add l (uc_sub u v).
Proof.
  unfold cluster_add, cluster_sub. rewrite <- list_fmap_compose.
  apply list_fmap_ext. intros i [b [x y z]] _. destruct u, v.
  unfold ucc_add, ucc_sub, uc_add, uc_sub. simpl. do 2 f_equal; lia.
Qed.

Lemma cluster_add_zero (l : IntegralCluster) : cluster_add l uc_zero = l.
Proof.
  unfold cluster_add. rewrite <- (list_fmap_id l) at 2. apply list_fmap_ext.
  intros i [b [x y z]] _. unfold ucc_add, uc_add. simpl. do 2 f_equal; lia.
Qed.

Lemma cluster_add_length (l : IntegralCluster) (t : UnitCell) :
  length (cluster_add l t) = length l.
Proof. unfold cluster_add. apply length_fmap. Qed.

Lemma apply_cluster_add (op : UnitCellCoordRep) (M : UnitCell -> UnitCell)
    (l : IntegralCluster) (t : UnitCell) :
  carries_translations op M ->
  apply op (cluster_add l t) = cluster_add (apply op l) (M t).
Proof.
  intros HM. unfold apply, cluster_add. rewrite <- !list_fmap_compose.
  apply list_fmap_ext. intros i c _. simpl. apply HM.
Qed.

Lemma apply_compose (g h : UnitCellCoordRep) (l : IntegralCluster) :
  apply g (apply h l) = apply (rep_compose g h) l.
Proof. unfold apply. now rewrite <- list_fmap_compose. Qed.

Lemma apply_length (op : UnitCellCoordRep) (l : IntegralCluster) :
  length (apply op l) = length l.
Proof. unfold apply. apply length_fmap. Qed.

(** The normal form of a non-empty cluster, written without the test for
    emptiness. *)
Lemma prim_periodic_copy_apply_nonempty (op : UnitCellCoordRep)
    (l : IntegralCluster) :
  l <> [] ->
  prim_periodic_integral_cluster_copy_apply op l =
  cluster_sub (sort (apply op l))
    (unitcell (cluster_at (sort (apply op l)) 0)).
Proof.
  intros Hne. unfold prim_periodic_integral_cluster_copy_apply.
  destruct (decide (length l = 0%nat)) as [Hz | _]; [| reflexivity].
  apply nonempty_length in Hne. contradiction.
Qed.

Lemma prim_periodic_copy_apply_nil (op : UnitCellCoordRep) :
  prim_periodic_integral_cluster_copy_apply op [] = [].
Proof. reflexivity. Qed.

Lemma prim_periodic_copy_apply_nonempty_result (op : UnitCellCoordRep)
    (l : IntegralCluster) :
  l <> [] -> prim_periodic_integral_cluster_copy_apply op l <> [].
Proof.
  intros Hne. rewrite prim_periodic_copy_apply_nonempty by exact Hne.
  apply nonempty_length. unfold cluster_sub.
  rewrite length_fmap, sort_length, apply_length. now apply nonempty_length.
Qed.

(** Translating the argument does not change the normal form, when the
    operation carries translations to translations. *)
Lemma prim_periodic_copy_apply_of_cluster_add (op : UnitCellCoordRep)
    (M : UnitCell -> UnitCell) (l : IntegralCluster) (t : UnitCell) :
  carries_translations op M ->
  prim_periodic_integral_cluster_copy_apply op (cluster_add l t) =
  prim_periodic_integral_cluster_copy_apply op l.
Proof.
  intros HM. destruct l as [| c l]; [reflexivity |].
  rewrite !prim_periodic_copy_apply_nonempty by (simpl; congruence).
  rewrite (apply_cluster_add op M) by exact HM.
  rewrite sort_cluster_add.
  assert (Hs : sort (apply op (c :: l)) <> []).
  { apply nonempty_length. rewrite sort_length, apply_length. simpl. lia. }
  unfold cluster_add at 2. rewrite cluster_at_fmap by exact Hs. simpl.
  apply cluster_sub_add.
Qed.

End cluster_actions.

Section cluster_normal_form_algebra.
Import clust.

(** Moving every site of a cluster by [a] and then by [b]; used to compare
    two translated clusters site by site. *)
Lemma cluster_shift_eq (l : IntegralCluster)
    (f g : UnitCellCoord -> UnitCellCoord) :
  (forall c, f c = g c) -> f <$> l = g <$> l.
Proof. intros Hfg. apply list_fmap_ext. intros i c _. apply Hfg. Qed.

Lemma cluster_add_then_sub (l : IntegralCluster) (w u : UnitCell) :
  cluster_sub (cluster_add l w) u = cluster_add l (uc_sub w u).
Proof.
  unfold cluster_add, cluster_sub. rewrite <- list_fmap_compose.
  apply cluster_shift_eq. intros [b [x y z]]. destruct u, w.
  unfold ucc_add, ucc_sub, uc_add, uc_sub. simpl. do 2 f_equal; lia.
Qed.

Lemma cluster_sub_zero (l : IntegralCluster) : cluster_sub l (mkUnitCell 0 0 0) = l.
Proof.
  unfold cluster_sub. rewrite <- (list_fmap_id l) at 2. apply cluster_shift_eq.
  intros [b [x y z]]. unfold ucc_sub, uc_sub. simpl. do 2 f_equal; lia.
Qed.

Lemma prim_periodic_copy_apply_Permutation (op : UnitCellCoordRep)
    (l l' : IntegralCluster) :
  l ≡ₚ l' ->
  prim_periodic_integral_cluster_copy_apply op l =
  prim_periodic_integral_cluster_copy_apply op l'.
Proof.
  intros Hp. destruct l as [| c l].
  - apply Permutation_nil in Hp. now subst.
  - assert (Hne' : l' <> []).
    { intros ->. symmetry in Hp. now apply Permutation_nil in Hp. }
    rewrite !prim_periodic_copy_apply_nonempty by (simpl; congruence).
    assert (Heq : sort (apply op (c :: l)) = sort (apply op l')).
    { apply sort_of_Permutation. unfold apply. now apply fmap_Permutation. }
    now rewrite Heq.
Qed.

Lemma local_copy_apply_sort (op : UnitCellCoordRep) (l : IntegralCluster) :
  local_integral_cluster_copy_apply op l = sort (apply op l).
Proof.
  unfold local_integral_cluster_copy_apply.
  destruct (decide (length l = 0%nat)) as [Hz | Hnz]; [| reflexivity].
  destruct l; [reflexivity | discriminate].
Qed.

Lemma frac_translation_nonempty (op : UnitCellCoordRep) (l : IntegralCluster) :
  l <> [] ->
  prim_periodic_integral_cluster_frac_translation op l =
  uc_sub (unitcell (cluster_at (sort l) 0))
         (unitcell (cluster_at (sort (apply op l)) 0)).
Proof.
  intros Hne. unfold prim_periodic_integral_cluster_frac_translation.
  destruct (decide (length l = 0%nat)) as [Hz | _].
  { apply nonempty_length in Hne. contradiction. }
  cbv zeta. do 3 f_equal. apply sort_of_Permutation.
  unfold apply. apply fmap_Permutation, sort_Permutation.
Qed.

Lemma sort_nonempty (l : IntegralCluster) : l <> [] -> sort l <> [].
Proof.
  intros Hne. apply nonempty_length. rewrite sort_length.
  now apply nonempty_length.
Qed.

Lemma apply_nonempty (op : UnitCellCoordRep) (l : IntegralCluster) :
  l <> [] -> apply op l <> [].
Proof.
  intros Hne. apply nonempty_length. rewrite apply_length.
  now apply nonempty_length.
Qed.

(** X1. The value of [prim_periodic_integral_cluster_copy_apply] is a normal
    form: applying the function again with the identity operation returns it
    unchanged. *)
Theorem prim_periodic_copy_apply_identity_fixes_normal_form
    (op : UnitCellCoordRep) (clust : IntegralCluster) :
  prim_periodic_integral_cluster_copy_apply (mkUnitCellCoordRep (fun c => c))
    (prim_periodic_integral_cluster_copy_apply op clust)
  = prim_periodic_integral_cluster_copy_apply op clust.
Proof.
  destruct clust as [| c0 rest]; [reflexivity |].
  set (clust := c0 :: rest).
  assert (Hne : clust <> []) by (unfold clust; congruence).
  pose proof (sort_nonempty _ (apply_nonempty op clust Hne)) as Hs.
  rewrite (prim_periodic_copy_apply_nonempty _ _
             (prim_periodic_copy_apply_nonempty_result op clust Hne)).
  rewrite apply_id.
  rewrite (prim_periodic_copy_apply_nonempty op clust Hne).
  set (a := sort (apply op clust)) in *.
  rewrite (sort_of_Sorted (cluster_sub a _))
    by apply cluster_sub_Sorted, sort_Sorted.
  replace (cluster_at (cluster_sub a (unitcell (cluster_at a 0))) 0)
    with (ucc_sub (cluster_at a 0) (unitcell (cluster_at a 0)))
    by (symmetry;
        apply (cluster_at_fmap (fun c => ucc_sub c (unitcell (cluster_at a 0))) a Hs)).
  simpl. rewrite uc_sub_diag. apply cluster_sub_zero.
Qed.

(** X2. [prim_periodic_integral_cluster_copy_apply] does not see lattice
    translations of its argument: for an operation that carries
    translations to translations, a cluster and any translate of it have
    the same value. *)
Theorem prim_periodic_copy_apply_translation_invariant
    (op : UnitCellCoordRep) (M : UnitCell -> UnitCell)
    (clust : IntegralCluster) (t : UnitCell) :
  carries_translations op M ->
  prim_periodic_integral_cluster_copy_apply op (cluster_add clust t) =
  prim_periodic_integral_cluster_copy_apply op clust.
Proof. apply prim_periodic_copy_apply_of_cluster_add. Qed.

(** X3. [prim_periodic_integral_cluster_copy_apply] composes: for [g] that
    carries translations to translations, applying [h] and then [g] gives
    the value for the product operation. *)
Theorem prim_periodic_copy_apply_compose
    (g h : UnitCellCoordRep) (M : UnitCell -> UnitCell) (clust : IntegralCluster) :
  carries_translations g M ->
  prim_periodic_integral_cluster_copy_apply g
    (prim_periodic_integral_cluster_copy_apply h clust)
  = prim_periodic_integral_cluster_copy_apply (rep_compose g h) clust.
Proof.
  intros HM. destruct clust as [| c0 rest]; [reflexivity |].
  set (clust := c0 :: rest).
  assert (Hne : clust <> []) by (unfold clust; congruence).
  rewrite (prim_periodic_copy_apply_nonempty h clust Hne).
  rewrite cluster_sub_as_add.
  rewrite (prim_periodic_copy_apply_of_cluster_add g M) by exact HM.
  rewrite (prim_periodic_copy_apply_Permutation g _ (apply h clust))
    by apply sort_Permutation.
  rewrite (prim_periodic_copy_apply_nonempty g _ (apply_nonempty h clust Hne)).
  rewrite (prim_periodic_copy_apply_nonempty _ clust Hne).
  now rewrite apply_compose.
Qed.

Lemma cluster_add_frac_translation_iff
    (op : UnitCellCoordRep) (clust : IntegralCluster) :
  cluster_add (sort (apply op clust))
    (prim_periodic_integral_cluster_frac_translation op clust) = sort clust
  <->
  prim_periodic_integral_cluster_copy_apply op clust =
  prim_periodic_integral_cluster_copy_apply (mkUnitCellCoordRep (fun c => c)) clust.
Proof.
  destruct clust as [| c0 rest]; [split; reflexivity |].
  set (clust := c0 :: rest).
  assert (Hne : clust <> []) by (unfold clust; congruence).
  rewrite (frac_translation_nonempty op clust Hne).
  rewrite !(prim_periodic_copy_apply_nonempty _ clust Hne), apply_id.
  set (a := sort (apply op clust)). set (s := sort clust).
  set (u0 := unitcell (cluster_at s 0)). set (v0 := unitcell (cluster_at a 0)).
  split; intros Heq.
  - rewrite <- Heq. rewrite cluster_add_then_sub.
    rewrite cluster_sub_as_add. unfold cluster_add. apply cluster_shift_eq.
    intros [b [x y z]]. destruct u0, v0.
    unfold ucc_add, uc_add, uc_sub, uc_zero. simpl. do 2 f_equal; lia.
  - rewrite <- cluster_sub_then_add, Heq, cluster_sub_then_add.
    rewrite uc_sub_diag. apply cluster_add_zero.
Qed.

(** X4. The translation found by
    [prim_periodic_integral_cluster_frac_translation] does what its
    documentation says exactly for the operations that leave the cluster
    invariant up to a translation: [op] followed by that translation gives
    back the sites of the cluster if and only if [op] and the identity have
    the same prim-periodic normal form on it. *)
Theorem frac_translation_restores_cluster
    (op : UnitCellCoordRep) (clust : IntegralCluster) :
  cluster_add (sort (apply op clust))
    (prim_periodic_integral_cluster_frac_translation op clust) = sort clust
  <->
  prim_periodic_integral_cluster_copy_apply op clust =
  prim_periodic_integral_cluster_copy_apply (mkUnitCellCoordRep (fun c => c)) clust.
Proof. apply cluster_add_frac_translation_iff. Qed.

(** X5. How [prim_periodic_integral_cluster_frac_translation] follows a
    translation of its argument: for an operation that carries the
    translation [t] to [M t], translating a non-empty cluster by [t] changes
    the result by [t - M t]. *)
Theorem frac_translation_of_translated_cluster
    (op : UnitCellCoordRep) (M : UnitCell -> UnitCell)
    (clust : IntegralCluster) (t : UnitCell) :
  carries_translations op M -> clust <> [] ->
  prim_periodic_integral_cluster_frac_translation op (cluster_add clust t) =
  uc_add (prim_periodic_integral_cluster_frac_translation op clust)
         (uc_sub t (M t)).
Proof.
  intros HM Hne.
  assert (Hne' : cluster_add clust t <> []).
  { apply nonempty_length. rewrite cluster_add_length. now apply nonempty_length. }
  rewrite (frac_translation_nonempty op _ Hne'),
    (frac_translation_nonempty op _ Hne).
  rewrite (apply_cluster_add op M) by exact HM.
  rewrite !sort_cluster_add.
  unfold cluster_add.
  rewrite !cluster_at_fmap
    by (try apply sort_nonempty; try apply apply_nonempty; exact Hne).
  destruct (cluster_at (sort clust) 0) as [b [x y z]].
  destruct (cluster_at (sort (apply op clust)) 0) as [b' [x' y' z']].
  destruct t as [ti tj tk], (M (mkUnitCell ti tj tk)) as [mi mj mk].
  unfold ucc_add, uc_add, uc_sub. simpl. f_equal; lia.
Qed.

(** X6. [local_integral_cluster_copy_apply] is an action: applying [h] and
    then [g] is applying the product operation, for all operations. *)
Theorem local_copy_apply_compose
    (g h : UnitCellCoordRep) (clust : IntegralCluster) :
  local_integral_cluster_copy_apply g (local_integral_cluster_copy_apply h clust)
  = local_integral_cluster_copy_apply (rep_compose g h) clust.
Proof.
  rewrite !local_copy_apply_sort, <- apply_compose.
  apply sort_of_Permutation. unfold apply.
  apply fmap_Permutation, sort_Permutation.
Qed.

(** X7. Two clusters have the same prim-periodic normal form under the
    identity exactly when, once sorted, one is a lattice translate of the
    other. *)
Theorem prim_periodic_normal_form_eq_iff_translate
    (clust clust' : IntegralCluster) :
  prim_periodic_integral_cluster_copy_apply (mkUnitCellCoordRep (fun c => c)) clust
  = prim_periodic_integral_cluster_copy_apply (mkUnitCellCoordRep (fun c => c)) clust'
  <-> exists t : UnitCell, sort clust' = cluster_add (sort clust) t.
Proof.
  set (identity := mkUnitCellCoordRep (fun c => c)).
  assert (Hid : carries_translations identity (fun t => t)).
  { intros c t. reflexivity. }
  split.
  - intros Heq. destruct clust as [| c0 rest], clust' as [| c0' rest'].
    + exists uc_zero. reflexivity.
    + exfalso. symmetry in Heq. revert Heq.
      apply prim_periodic_copy_apply_nonempty_result. congruence.
    + exfalso. revert Heq.
      apply prim_periodic_copy_apply_nonempty_result. congruence.
    + rewrite !prim_periodic_copy_apply_nonempty in Heq by congruence.
      unfold identity in Heq. rewrite !apply_id in Heq.
      set (s := sort (c0 :: rest)) in *. set (s' := sort (c0' :: rest')) in *.
      exists (uc_sub (unitcell (cluster_at s' 0)) (unitcell (cluster_at s 0))).
      rewrite <- cluster_sub_then_add, Heq, cluster_sub_then_add, uc_sub_diag.
      symmetry. apply cluster_add_zero.
  - intros [t Ht].
    rewrite (prim_periodic_copy_apply_Permutation identity clust' (sort clust'))
      by (symmetry; apply sort_Permutation).
    rewrite Ht, (prim_periodic_copy_apply_of_cluster_add identity _ _ _ Hid).
    apply prim_periodic_copy_apply_Permutation. symmetry. apply sort_Permutation.
Qed.

End cluster_normal_form_algebra.

Section cluster_normal_form_algebra_on_a_mirror.
Import clust.

Lemma mirror_rep_carries_translations :
  carries_translations mirror_rep mirror_matrix.
Proof.
  intros [b [i j k]] [ti tj tk].
  unfold mirror_rep, mirror_matrix, ucc_add, uc_add. simpl.
  do 2 f_equal; lia.
Qed.

Lemma prim_periodic_copy_apply_translation_invariant_witness :
  let clust := [mkUnitCellCoord 1 (mkUnitCell 2 0 0);
                mkUnitCellCoord 0 (mkUnitCell 3 1 0)] in
  prim_periodic_integral_cluster_copy_apply mirror_rep
    (cluster_add clust (mkUnitCell 5 (-2) 7))
  = prim_periodic_integral_cluster_copy_apply mirror_rep clust.
Proof.
  intros clust.
  apply (prim_periodic_copy_apply_translation_invariant mirror_rep mirror_matrix
           clust (mkUnitCell 5 (-2) 7) mirror_rep_carries_translations).
Defined.

Lemma prim_periodic_copy_apply_compose_witness :
  let clust := [mkUnitCellCoord 1 (mkUnitCell 2 0 0);
                mkUnitCellCoord 0 (mkUnitCell 3 1 0)] in
  prim_periodic_integral_cluster_copy_apply mirror_rep
    (prim_periodic_integral_cluster_copy_apply mirror_rep clust)
  = prim_periodic_integral_cluster_copy_apply
      (rep_compose mirror_rep mirror_rep) clust.
Proof.
  intros clust.
  apply (prim_periodic_copy_apply_compose mirror_rep mirror_rep mirror_matrix
           clust mirror_rep_carries_translations).
Defined.

Lemma frac_translation_of_translated_cluster_witness :
  let clust := [mkUnitCellCoord 1 (mkUnitCell 2 0 0);
                mkUnitCellCoord 0 (mkUnitCell 3 1 0)] in
  let t := mkUnitCell 5 (-2) 7 in
  prim_periodic_integral_cluster_frac_translation mirror_rep (cluster_add clust t)
  = uc_add (prim_periodic_integral_cluster_frac_translation mirror_rep clust)
           (uc_sub t (mirror_matrix t)).
Proof.
  intros clust t.
  apply (frac_translation_of_translated_cluster mirror_rep mirror_matrix
           clust t mirror_rep_carries_translations).
  unfold clust. congruence.
Defined.

End cluster_normal_form_algebra_on_a_mirror.

(* ===================================================================== *)
(** * Properties of the cluster groups *)

Section accessing_vectors.
Import clust.

Lemma vector_at_Ok {A} (v : list A) (ix : Z) (x : A) :
  vector_at v ix = Ok x <-> 0 <= ix /\ v !! Z.to_nat ix = Some x.
Proof.
  unfold vector_at. destruct (decide (0 <= ix)) as [Hix | Hix].
  - destruct (v !! Z.to_nat ix) as [y |]; split.
    + intros [= ->]. auto.
    + intros [_ [= ->]]. reflexivity.
    + discriminate.
    + intros [_ [=]].
  - split; [discriminate | lia].
Qed.

Lemma vector_at_in_range {A} (v : list A) (ix : Z) :
  0 <= ix < Z.of_nat (length v) -> exists x, vector_at v ix = Ok x.
Proof.
  intros Hix. destruct (lookup_lt_is_Some_2 v (Z.to_nat ix)) as [x Hx]; [lia |].
  exists x. apply vector_at_Ok. split; [lia | exact Hx].
Qed.

Lemma push_back_each_Ok {A} (f : Z -> result A) (js : list Z) (acc r : list A) :
  push_back_each f js acc = Ok r ->
  exists new, r = acc ++ new /\ Forall2 (fun j e => f j = Ok e) js new.
Proof.
  revert acc. induction js as [| j js IH]; intros acc; simpl.
  - intros [= <-]. exists []. split; [now rewrite app_nil_r | constructor].
  - destruct (f j) as [x | e] eqn:Hfj; simpl; [| discriminate].
    intros Hr. destruct (IH _ Hr) as (new & -> & Hall).
    exists (x :: new). split; [now rewrite <- app_assoc | now constructor].
Qed.

Lemma index_range_Sorted (n : Z) : Sorted Z.lt (index_range n).
Proof.
  unfold index_range. generalize 0%nat as start.
  induction (Z.to_nat n) as [| k IH]; intros start; simpl; [constructor |].
  constructor; [apply IH |].
  destruct k; simpl; constructor. lia.
Qed.

Lemma set_in_order_Permutation (s : gset Z) : set_in_order s ≡ₚ elements s.
Proof. apply merge_sort_Permutation. Qed.

Lemma set_in_order_length (s : gset Z) : length (set_in_order s) = size s.
Proof. unfold size, set_size. simpl. apply Permutation_length, set_in_order_Permutation. Qed.

Lemma set_in_order_elem (s : gset Z) (x : Z) : x ∈ set_in_order s <-> x ∈ s.
Proof. rewrite set_in_order_Permutation. apply elem_of_elements. Qed.

(** A strictly increasing list is the ordered content of its set. *)
Lemma set_in_order_list_to_set (l : list Z) :
  Sorted Z.lt l -> set_in_order (list_to_set l) = l.
Proof.
  intros Hs.
  assert (Hss : StronglySorted Z.lt l) by (apply Sorted_StronglySorted; [intros ???; lia | exact Hs]).
  assert (Hnd : NoDup l).
  { clear Hs. induction Hss as [| x l Hl IH Hx]; constructor; [| exact IH].
    intros Hin. rewrite Forall_forall in Hx. specialize (Hx x Hin). lia. }
  apply (Sorted_unique Z.le).
  - apply Sorted_merge_sort. intros x y. lia.
  - clear Hss Hnd. induction Hs as [| x l Hl IH Hx]; constructor; [exact IH |].
    destruct Hx; constructor. lia.
  - rewrite set_in_order_Permutation. now apply elements_list_to_set.
Qed.

End accessing_vectors.

Section cluster_group_of_a_cluster.
Import clust.
Context `{GroupAlgorithms}.

Variable cluster : IntegralCluster.
Variable factor_group : SymGroup.
Variable lat_column_mat : Matrix3d.
Variable reps : list UnitCellCoordRep.
Hypothesis cluster_nonempty : cluster <> [].

(** Operation [i] leaves the cluster invariant up to a translation. *)
Let invariant_up_to_translation (i : Z) : Prop :=
  exists rep,
    reps !! Z.to_nat i = Some rep /\
    prim_periodic_integral_cluster_copy_apply rep cluster =
    prim_periodic_integral_cluster_copy_apply (mkUnitCellCoordRep (fun c => c))
      cluster.

(** The element of the cluster group that comes from operation [i]. *)
Let cluster_group_element_of (i : Z) (e : SymOp) : Prop :=
  exists rep op,
    reps !! Z.to_nat i = Some rep /\
    element factor_group !! Z.to_nat i = Some op /\
    e = symop_mul
          (translation_symop lat_column_mat
             (prim_periodic_integral_cluster_frac_translation rep cluster))
          op.

(** The test and the translation of one turn of the loop, in terms of the
    two prim-periodic functions. *)
Lemma make_cluster_group_test (rep : UnitCellCoordRep) :
  let s := sort cluster in
  let tclust := sort (apply rep s) in
  let frac_trans :=
    uc_sub (unitcell (cluster_at s 0)) (unitcell (cluster_at tclust 0)) in
  frac_trans = prim_periodic_integral_cluster_frac_translation rep cluster /\
  (cluster_eqb (cluster_add tclust frac_trans) s = true <->
   prim_periodic_integral_cluster_copy_apply rep cluster =
   prim_periodic_integral_cluster_copy_apply (mkUnitCellCoordRep (fun c => c))
     cluster).
Proof.
  intros s tclust frac_trans.
  assert (Ht : tclust = sort (apply rep cluster)).
  { apply sort_of_Permutation. unfold apply.
    apply fmap_Permutation, sort_Permutation. }
  assert (Hf : frac_trans =
               prim_periodic_integral_cluster_frac_translation rep cluster).
  { unfold frac_trans. rewrite Ht.
    now rewrite (frac_translation_nonempty rep cluster cluster_nonempty). }
  split; [exact Hf |].
  rewrite <- cluster_add_frac_translation_iff, Hf, Ht.
  unfold cluster_eqb. rewrite bool_decide_eq_true.
  rewrite sort_cluster_add.
  rewrite (sort_of_Sorted (sort (apply rep cluster))) by apply sort_Sorted.
  fold s. rewrite (sort_of_Sorted s) by apply sort_Sorted.
  reflexivity.
Qed.

Lemma make_cluster_group_loop_Ok (todo : list Z) (elements : list SymOp)
    (indices : gset Z) :
  (forall i, i ∈ todo ->
     0 <= i < Z.of_nat (length reps) /\
     i < Z.of_nat (length (element factor_group))) ->
  exists accepted new,
    make_cluster_group_loop (sort cluster) factor_group lat_column_mat reps
      todo elements indices
    = Ok (elements ++ new, list_to_set accepted ∪ indices) /\
    sublist accepted todo /\
    (forall i, i ∈ accepted <-> i ∈ todo /\ invariant_up_to_translation i) /\
    Forall2 cluster_group_element_of accepted new.
Proof.
  revert elements indices.
  induction todo as [| i todo IH]; intros elements indices Hrange; simpl.
  - exists [], []. rewrite app_nil_r.
    split; [now rewrite list_to_set_nil, (left_id_L ∅ (∪)) |].
    split; [constructor |]. split; [| constructor].
    intros i. split; [inversion 1 | intros [Hi _]; inversion Hi].
  - destruct (Hrange i ltac:(left)) as [Hi Hi'].
    destruct (vector_at_in_range reps i Hi) as [rep Hrep].
    destruct (vector_at_in_range (element factor_group) i ltac:(lia)) as [op Hop].
    rewrite Hrep. simpl.
    apply vector_at_Ok in Hrep as [_ Hrep]. pose proof Hop as Hop'.
    apply vector_at_Ok in Hop' as [_ Hop'].
    destruct (make_cluster_group_test rep) as [Hfrac Htest].
    cbv zeta in Hfrac, Htest.
    assert (Htodo : forall j, j ∈ todo ->
              0 <= j < Z.of_nat (length reps) /\
              j < Z.of_nat (length (element factor_group))).
    { intros j Hj. apply Hrange. now right. }
    destruct (cluster_eqb _ (sort cluster)) eqn:Heqb.
    + rewrite Hop. simpl.
      match goal with |- context [elements ++ [?x]] => set (e := x) in * end.
      destruct (IH (elements ++ [e]) ({[ i ]} ∪ indices) Htodo)
        as (accepted & new & Hloop & Hsub & Hacc & Hall).
      exists (i :: accepted), (e :: new).
      rewrite Hloop, <- app_assoc. simpl.
      split.
      { f_equal. f_equal. rewrite ?list_to_set_cons. apply set_eq. intros x.
        rewrite !elem_of_union. tauto. }
      split; [now constructor |]. split.
      * intros j. rewrite !elem_of_cons, Hacc. split.
        -- intros [-> | [Hj Hinv]]; [| auto].
           split; [now left |]. exists rep. split; [exact Hrep | now apply Htest].
        -- intros [[-> | Hj] Hinv]; auto.
      * constructor; [| exact Hall].
        exists rep, op. rewrite <- Hfrac. auto.
    + destruct (IH elements indices Htodo)
        as (accepted & new & Hloop & Hsub & Hacc & Hall).
      exists accepted, new. rewrite Hloop.
      split; [reflexivity |]. split; [now constructor |].
      split; [| exact Hall].
      intros j. rewrite Hacc, elem_of_cons. split.
      * intros [Hj Hinv]. auto.
      * intros [[-> | Hj] Hinv]; [| auto].
        exfalso. destruct Hinv as (rep' & Hrep' & Hinv).
        rewrite Hrep in Hrep'. injection Hrep' as <-.
        apply Htest in Hinv. congruence.
Qed.

End cluster_group_of_a_cluster.

Section cluster_groups_of_an_orbit.
Import clust.
Context `{GroupAlgorithms}.

Lemma sublist_Sorted_lt (l k : list Z) :
  sublist l k -> Sorted Z.lt k -> Sorted Z.lt l.
Proof.
  intros Hsub Hk.
  assert (Hss : StronglySorted Z.lt k)
    by (apply Sorted_StronglySorted; [intros ???; lia | exact Hk]).
  apply StronglySorted_Sorted. clear Hk.
  induction Hsub as [| x l k Hsub IH | x l k Hsub IH].
  - constructor.
  - apply StronglySorted_inv in Hss as [Hk Hx]. constructor; [now apply IH |].
    rewrite Forall_forall in *. intros y Hy. apply Hx.
    now apply (elem_of_sublist l k).
  - apply StronglySorted_inv in Hss as [Hk _]. now apply IH.
Qed.

Lemma make_cluster_group_element_Ok (orbit_element : IntegralCluster)
    (factor_group : SymGroup) (lat_column_mat : Matrix3d)
    (reps : list UnitCellCoordRep) (j : Z) (e : SymOp) :
  make_cluster_group_element orbit_element factor_group lat_column_mat reps j
    = Ok e <->
  exists rep op,
    0 <= j /\ reps !! Z.to_nat j = Some rep /\
    element factor_group !! Z.to_nat j = Some op /\
    e = symop_mul
          (translation_symop lat_column_mat
             (prim_periodic_integral_cluster_frac_translation rep orbit_element))
          op.
Proof.
  unfold make_cluster_group_element. split.
  - destruct (vector_at reps j) as [rep |] eqn:Hrep; simpl; [| discriminate].
    destruct (vector_at (element factor_group) j) as [op |] eqn:Hop; simpl;
      [| discriminate].
    intros [= <-]. apply vector_at_Ok in Hrep as [Hj Hrep].
    apply vector_at_Ok in Hop as [_ Hop]. exists rep, op. auto.
  - intros (rep & op & Hj & Hrep & Hop & ->).
    rewrite (proj2 (vector_at_Ok reps j rep)) by auto. simpl.
    rewrite (proj2 (vector_at_Ok (element factor_group) j op)) by auto.
    reflexivity.
Qed.

Lemma make_cluster_groups_loop_Ok (factor_group : SymGroup)
    (lat_column_mat : Matrix3d) (reps : list UnitCellCoordRep)
    (orbit_it : list IntegralCluster) (subgroups : list (gset Z))
    (acc groups : list SymGroup) :
  make_cluster_groups_loop factor_group lat_column_mat reps orbit_it subgroups acc
    = Ok groups ->
  exists new,
    groups = acc ++ new /\
    (length subgroups <= length orbit_it)%nat /\
    Forall2
      (fun p G => is_cluster_group_of factor_group lat_column_mat reps p.1 p.2 G)
      (zip orbit_it subgroups) new.
Proof.
  revert orbit_it acc.
  induction subgroups as [| sg subgroups IH]; intros orbit_it acc; simpl.
  - intros [= <-]. exists []. rewrite app_nil_r.
    split; [reflexivity |]. split; [lia |].
    destruct orbit_it; constructor.
  - destruct orbit_it as [| e orbit_it]; [discriminate |].
    destruct (push_back_each _ (set_in_order sg) []) as [els |] eqn:Hels;
      simpl; [| discriminate].
    intros Hloop. apply IH in Hloop as (new & -> & Hlen & Hall).
    apply push_back_each_Ok in Hels as (els' & -> & Hels). simpl in Hels.
    exists (mkSymGroup (Some factor_group) els' sg :: new).
    split; [now rewrite <- app_assoc |]. split; [simpl; lia |].
    simpl. constructor; [| exact Hall].
    repeat split; simpl.
    + rewrite <- (Forall2_length _ _ _ Hels). apply set_in_order_length.
    + eapply Forall2_impl; [exact Hels |].
      intros j x Hx. now apply make_cluster_group_element_Ok in Hx.
Qed.

Lemma make_local_cluster_groups_loop_Ok (phenomenal_group : SymGroup)
    (orbit_it : list IntegralCluster) (subgroups : list (gset Z))
    (acc groups : list SymGroup) :
  make_local_cluster_groups_loop phenomenal_group orbit_it subgroups acc
    = Ok groups ->
  exists new,
    groups = acc ++ new /\
    (length subgroups <= length orbit_it)%nat /\
    Forall2
      (fun sg G =>
         head_group G = Some phenomenal_group /\
         head_group_index G = sg /\
         length (element G) = size sg /\
         Forall2 (fun j e => 0 <= j /\
                    element phenomenal_group !! Z.to_nat j = Some e)
                 (set_in_order sg) (element G))
      subgroups new.
Proof.
  revert orbit_it acc.
  induction subgroups as [| sg subgroups IH]; intros orbit_it acc; simpl.
  - intros [= <-]. exists []. rewrite app_nil_r.
    split; [reflexivity |]. split; [lia | constructor].
  - destruct orbit_it as [| e orbit_it]; [discriminate |].
    destruct (push_back_each _ (set_in_order sg) []) as [els |] eqn:Hels;
      simpl; [| discriminate].
    intros Hloop. apply IH in Hloop as (new & -> & Hlen & Hall).
    apply push_back_each_Ok in Hels as (els' & -> & Hels). simpl in Hels.
    exists (mkSymGroup (Some phenomenal_group) els' sg :: new).
    split; [now rewrite <- app_assoc |]. split; [simpl; lia |].
    constructor; [| exact Hall].
    repeat split; simpl.
    + rewrite <- (Forall2_length _ _ _ Hels). apply set_in_order_length.
    + eapply Forall2_impl; [exact Hels |].
      intros j x Hx. now apply vector_at_Ok in Hx.
Qed.

End cluster_groups_of_an_orbit.

Section cluster_group_results.
Import clust.

(** X8. For a non-empty cluster and at least as many representations as
    the factor group has elements, [make_cluster_group] returns a subgroup
    of the factor group whose indices are exactly the operations that leave
    the cluster invariant up to a translation (same value of
    [prim_periodic_integral_cluster_copy_apply] as the identity), and whose
    elements are, index by index in increasing order, the factor-group
    element preceded by the translation that
    [prim_periodic_integral_cluster_frac_translation] finds. *)
Theorem make_cluster_group_selects_invariant_operations `{ClusterSymmetry}
    (cluster : IntegralCluster) (factor_group : SymGroup)
    (lat_column_mat : Matrix3d) (reps : list UnitCellCoordRep) :
  cluster <> [] ->
  (length (element factor_group) <= length reps)%nat ->
  exists G,
    make_cluster_group cluster factor_group lat_column_mat reps = Ok G /\
    head_group G = Some factor_group /\
    (forall i,
       i ∈ head_group_index G <->
       0 <= i < Z.of_nat (length (element factor_group)) /\
       exists rep,
         reps !! Z.to_nat i = Some rep /\
         prim_periodic_integral_cluster_copy_apply rep cluster =
         prim_periodic_integral_cluster_copy_apply
           (mkUnitCellCoordRep (fun c => c)) cluster) /\
    length (element G) = size (head_group_index G) /\
    Forall2
      (fun i e =>
         exists rep op,
           reps !! Z.to_nat i = Some rep /\
           element factor_group !! Z.to_nat i = Some op /\
           e = symop_mul
                 (translation_symop lat_column_mat
                    (prim_periodic_integral_cluster_frac_translation rep cluster))
                 op)
      (set_in_order (head_group_index G)) (element G).
Proof.
  intros Hne Hlen. unfold make_cluster_group.
  destruct (decide (length cluster = 0%nat)) as [Hz | _].
  { apply nonempty_length in Hne. contradiction. }
  cbv zeta.
  destruct (make_cluster_group_loop_Ok cluster factor_group lat_column_mat reps
              Hne (index_range (Z.of_nat (length (element factor_group)))) [] ∅)
    as (accepted & new & Hloop & Hsub & Hacc & Hall).
  { intros i Hi. apply index_range_elem in Hi. lia. }
  rewrite Hloop. simpl. eexists. split; [reflexivity |]. simpl.
  assert (Hset : list_to_set accepted ∪ ∅ = (list_to_set accepted : gset Z)).
  { apply set_eq. intros x. rewrite elem_of_union. set_unfold. tauto. }
  rewrite Hset.
  assert (Hord : set_in_order (list_to_set accepted) = accepted).
  { apply set_in_order_list_to_set.
    apply (sublist_Sorted_lt _ _ Hsub), index_range_Sorted. }
  split; [reflexivity |]. split; [| split].
  - intros i. rewrite elem_of_list_to_set, Hacc, index_range_elem. reflexivity.
  - rewrite <- set_in_order_length, Hord. symmetry.
    apply (Forall2_length _ _ _ Hall).
  - rewrite Hord. exact Hall.
Qed.

Lemma make_cluster_group_selects_invariant_operations_witness :
  let cluster := [mkUnitCellCoord 0 (mkUnitCell 0 0 0);
                  mkUnitCellCoord 1 (mkUnitCell 0 0 0)] in
  let factor_group :=
    @mkSymGroup small_symmetry None [(0, uc_zero); (1, uc_zero)] {[ 0; 1 ]} in
  exists G,
    @make_cluster_group small_symmetry cluster factor_group tt
      [mkUnitCellCoordRep (fun c => c); mirror_rep] = Ok G /\
    @head_group small_symmetry G = Some factor_group.
Proof.
  intros cluster factor_group.
  destruct (@make_cluster_group_selects_invariant_operations small_symmetry
              cluster factor_group tt
              [mkUnitCellCoordRep (fun c => c); mirror_rep]
              ltac:(unfold cluster; congruence) ltac:(simpl; lia))
    as (G & HG & Hhead & _).
  exists G. split; assumption.
Defined.

(** X9. Whenever [make_cluster_groups] returns, it returns one group per
    invariant subgroup, built from the orbit element at the same position:
    the group's indices are that subgroup, it has one element per index,
    and the element for index [j] is the factor-group element [j] preceded
    by the translation found for representation [j] on that orbit
    element. *)
Theorem make_cluster_groups_one_group_per_orbit_element `{GroupAlgorithms}
    (orbit : list IntegralCluster) (factor_group : SymGroup)
    (lat_column_mat : Matrix3d) (reps : list UnitCellCoordRep)
    (groups : list SymGroup) :
  make_cluster_groups orbit factor_group lat_column_mat reps = Ok groups ->
  let subgroup_indices :=
    make_invariant_subgroups
      (make_equivalence_map orbit reps prim_periodic_integral_cluster_copy_apply)
      factor_group in
  length groups = length subgroup_indices /\
  (length subgroup_indices <= length orbit)%nat /\
  forall (k : nat) (G : SymGroup),
    groups !! k = Some G ->
    exists orbit_element subgroup,
      orbit !! k = Some orbit_element /\
      subgroup_indices !! k = Some subgroup /\
      is_cluster_group_of factor_group lat_column_mat reps orbit_element
        subgroup G.
Proof.
  intros Hok subgroup_indices. unfold make_cluster_groups in Hok.
  apply make_cluster_groups_loop_Ok in Hok as (new & -> & Hlen & Hall).
  fold subgroup_indices in Hlen, Hall. simpl.
  split.
  { rewrite <- (Forall2_length _ _ _ Hall), length_zip. lia. }
  split; [exact Hlen |].
  intros k G HG.
  destruct (Forall2_lookup_r _ _ _ _ _ Hall HG) as ([e sg] & Hzip & HP).
  apply lookup_zip_with_Some in Hzip as (e' & sg' & [= -> ->] & He & Hsg).
  exists e', sg'. auto.
Qed.

Lemma make_cluster_groups_one_group_per_orbit_element_witness :
  let orbit := [[mkUnitCellCoord 0 (mkUnitCell 0 0 0);
                 mkUnitCellCoord 1 (mkUnitCell 0 0 0)]] in
  let factor_group :=
    @mkSymGroup small_symmetry None [(0, uc_zero); (1, uc_zero)] {[ 0; 1 ]} in
  let reps := [mkUnitCellCoordRep (fun c => c); mirror_rep] in
  exists groups,
    @make_cluster_groups small_symmetry small_group_algorithms orbit
      factor_group tt reps = Ok groups /\
    length groups = 1%nat.
Proof.
  intros orbit factor_group reps.
  destruct (@make_cluster_groups small_symmetry small_group_algorithms orbit
              factor_group tt reps) as [groups | e] eqn:Hok;
    [| vm_compute in Hok; discriminate].
  exists groups. split; [reflexivity |].
  exact (proj1 (@make_cluster_groups_one_group_per_orbit_element
                  small_symmetry small_group_algorithms orbit factor_group tt
                  reps groups Hok)).
Defined.

(** X10. Whenever [make_local_cluster_groups] returns, it returns one group
    per invariant subgroup; the group's indices are that subgroup and its
    elements are the elements of the phenomenal group at those indices, in
    increasing order of index, with nothing added to them. *)
Theorem make_local_cluster_groups_select_elements `{GroupAlgorithms}
    (orbit : list IntegralCluster) (phenomenal_group : SymGroup)
    (reps : list UnitCellCoordRep) (groups : list SymGroup) :
  make_local_cluster_groups orbit phenomenal_group reps = Ok groups ->
  let subgroup_indices :=
    make_invariant_subgroups
      (make_equivalence_map orbit reps local_integral_cluster_copy_apply)
      phenomenal_group in
  (length subgroup_indices <= length orbit)%nat /\
  Forall2
    (fun subgroup G =>
       head_group G = Some phenomenal_group /\
       head_group_index G = subgroup /\
       length (element G) = size subgroup /\
       Forall2 (fun j e => 0 <= j /\
                  element phenomenal_group !! Z.to_nat j = Some e)
               (set_in_order subgroup) (element G))
    subgroup_indices groups.
Proof.
  intros Hok subgroup_indices. unfold make_local_cluster_groups in Hok.
  apply make_local_cluster_groups_loop_Ok in Hok as (new & -> & Hlen & Hall).
  split; [exact Hlen | exact Hall].
Qed.

Lemma make_local_cluster_groups_select_elements_witness :
  let orbit := [[mkUnitCellCoord 0 (mkUnitCell 0 0 0)];
                [mkUnitCellCoord 1 (mkUnitCell 0 0 0)]] in
  let phenomenal_group :=
    @mkSymGroup small_symmetry None [(0, uc_zero); (1, uc_zero)] {[ 0; 1 ]} in
  let reps := [mkUnitCellCoordRep (fun c => c); mirror_rep] in
  exists groups,
    @make_local_cluster_groups small_symmetry small_group_algorithms orbit
      phenomenal_group reps = Ok groups /\
    Forall (fun G => @head_group small_symmetry G = Some phenomenal_group) groups.
Proof.
  intros orbit phenomenal_group reps.
  destruct (@make_local_cluster_groups small_symmetry small_group_algorithms
              orbit phenomenal_group reps) as [groups | e] eqn:Hok;
    [| vm_compute in Hok; discriminate].
  exists groups. split; [reflexivity |].
  destruct (@make_local_cluster_groups_select_elements
              small_symmetry small_group_algorithms orbit phenomenal_group
              reps groups Hok) as [_ Hall].
  clear Hok. induction Hall as [| sg G sgs groups HG _ IH]; constructor.
  - apply HG.
  - exact IH.
Defined.

End cluster_group_results.

(* ===================================================================== *)
(** * Further properties of the site permutations *)

Section scattering_sites.
Import SupercellSymInfo_impl.


Lemma assign_transformed_sites_scatter (bijk : UnitCellCoordIndexConverter)
    (rep : UnitCellCoordRep) (olds p : list Z) :
  assign_transformed_sites bijk rep olds p =
  scatter_sites
    (fun o => bijk_to_index bijk (copy_apply_ucc rep (bijk_of_index bijk o)))
    olds p.
Proof.
  revert p. induction olds as [| o olds IH]; intros p; simpl; [reflexivity |].
  destruct (vector_assign p _ o); simpl; [apply IH | reflexivity].
Qed.

Lemma vector_assign_Ok (p : list Z) (ix x : Z) (p' : list Z) :
  vector_assign p ix x = Ok p' <->
  0 <= ix < Z.of_nat (length p) /\ p' = <[Z.to_nat ix := x]> p.
Proof.
  unfold vector_assign. destruct (decide _) as [Hix | Hix]; split.
  - intros [= <-]. auto.
  - intros [_ ->]. reflexivity.
  - discriminate.
  - intros [Hix' _]. contradiction.
Qed.

Variable new_of : Z -> Z.

Lemma scatter_sites_app (l1 l2 p : list Z) :
  scatter_sites new_of (l1 ++ l2) p =
  (scatter_sites new_of l1 p ≫= scatter_sites new_of l2).
Proof.
  revert p. induction l1 as [| o l1 IH]; intros p; simpl; [reflexivity |].
  destruct (vector_assign p _ o); simpl; [apply IH | reflexivity].
Qed.

(** Whatever [new_of] is, a vector that the loop returns has the length it
    started with and every entry is either untouched or a site that wrote
    itself there. *)
Lemma scatter_sites_entries (olds p p' : list Z) :
  scatter_sites new_of olds p = Ok p' ->
  length p' = length p /\
  (forall o, o ∈ olds -> 0 <= new_of o < Z.of_nat (length p)) /\
  forall (n : nat) (v : Z),
    p' !! n = Some v ->
    p !! n = Some v \/ (v ∈ olds /\ new_of v = Z.of_nat n).
Proof.
  revert p. induction olds as [| o olds IH]; intros p; simpl.
  - intros [= <-]. split; [reflexivity |]. split; [inversion 1 | auto].
  - destruct (vector_assign p (new_of o) o) as [p1 |] eqn:Hp1; simpl;
      [| discriminate].
    apply vector_assign_Ok in Hp1 as [Hrange ->].
    intros Hp'. apply IH in Hp' as (Hlen & Hin & Hentries).
    rewrite length_insert in Hlen, Hin.
    split; [exact Hlen |]. split.
    { intros o' Ho'. apply elem_of_cons in Ho' as [-> | Ho']; auto. }
    intros n v Hv. destruct (Hentries n v Hv) as [Hp1 | [Hv' Hnew]].
    + destruct (decide (Z.to_nat (new_of o) = n)) as [<- | Hne].
      * rewrite list_lookup_insert_eq in Hp1 by lia. injection Hp1 as <-.
        right. split; [left | lia].
      * rewrite list_lookup_insert_ne in Hp1 by exact Hne. now left.
    + right. split; [now right | exact Hnew].
Qed.

Variable M : nat.
Variable old_of : Z -> Z.
Variable filler : Z.
Hypothesis new_in_range :
  forall o, 0 <= o < Z.of_nat M -> 0 <= new_of o < Z.of_nat M.
Hypothesis old_in_range :
  forall n, 0 <= n < Z.of_nat M -> 0 <= old_of n < Z.of_nat M.
Hypothesis new_old : forall n, 0 <= n < Z.of_nat M -> new_of (old_of n) = n.
Hypothesis old_new : forall o, 0 <= o < Z.of_nat M -> old_of (new_of o) = o.

Lemma scatter_sites_prefix (k : nat) :
  (k <= M)%nat ->
  exists p,
    scatter_sites new_of (index_range (Z.of_nat k)) (replicate M filler) = Ok p /\
    length p = M /\
    forall n : nat, (n < M)%nat ->
      p !! n = Some (if decide (old_of (Z.of_nat n) < Z.of_nat k)
                     then old_of (Z.of_nat n) else filler).
Proof.
  induction k as [| k IH]; intros Hk.
  - exists (replicate M filler). split; [reflexivity |].
    split; [apply length_replicate |].
    intros n Hn. rewrite lookup_replicate_2 by exact Hn.
    destruct (decide _) as [Hlt | _]; [| reflexivity].
    specialize (old_in_range (Z.of_nat n)). lia.
  - destruct IH as (p & Hp & Hlen & Hlook); [lia |].
    rewrite index_range_snoc, scatter_sites_app, Hp. simpl.
    pose proof (new_in_range (Z.of_nat k) ltac:(lia)) as Hrange.
    unfold vector_assign.
    destruct (decide _) as [_ | Hout]; [| rewrite Hlen in Hout; lia].
    simpl. eexists. split; [reflexivity |].
    split; [now rewrite length_insert |].
    intros n Hn.
    destruct (decide (Z.to_nat (new_of (Z.of_nat k)) = n)) as [Heq | Hneq].
    + subst n. rewrite list_lookup_insert_eq by lia.
      rewrite Z2Nat.id by lia. rewrite old_new by lia.
      destruct (decide _); [reflexivity | lia].
    + rewrite list_lookup_insert_ne by exact Hneq.
      rewrite Hlook by exact Hn.
      assert (old_of (Z.of_nat n) <> Z.of_nat k).
      { intros Hc. apply Hneq. rewrite <- Hc, new_old by lia. lia. }
      repeat destruct (decide _); try reflexivity; lia.
Qed.

(** When [new_of] is a bijection of the sites, the loop over all sites
    overwrites every entry: the result is the table of the inverse. *)
Lemma scatter_sites_full :
  scatter_sites new_of (index_range (Z.of_nat M)) (replicate M filler)
    = Ok (old_of <$> index_range (Z.of_nat M)).
Proof.
  destruct (scatter_sites_prefix M) as (p & Hp & Hlen & Hlook); [lia |].
  rewrite Hp. f_equal. apply list_eq. intros n.
  destruct (decide (n < M)%nat) as [Hn | Hn].
  - rewrite Hlook by exact Hn. rewrite list_lookup_fmap.
    rewrite index_range_lookup by lia. simpl.
    destruct (decide _) as [_ | Hge]; [reflexivity |].
    specialize (old_in_range (Z.of_nat n)). lia.
  - rewrite !lookup_ge_None_2; [reflexivity | |].
    + rewrite length_fmap, index_range_length. lia.
    + lia.
Qed.

End scattering_sites.

Section checked_translation_permutations.
Import SupercellSymInfo_impl.

Variable ijk : UnitCellIndexConverter.
Variable bijk : UnitCellCoordIndexConverter.




End checked_translation_permutations.


Section translation_group_action.
Import SupercellSymInfo_impl.

Variable T : Matrix3l.
Variable B : Z.
Variable ijk : UnitCellIndexConverter.
Variable bijk : UnitCellCoordIndexConverter.
Hypothesis contract : index_converter_contract T B ijk bijk.

Lemma old_site_table_identity (t : UnitCell) :
  superlattice_equiv T t (mkUnitCell 0 0 0) ->
  old_site bijk t <$> index_range (bijk_total_sites bijk) =
  index_range (bijk_total_sites bijk).
Proof.
  intros Ht. rewrite <- (list_fmap_id (index_range _)) at 2.
  apply list_fmap_ext. intros i n Hn.
  apply list_elem_of_lookup_2, index_range_elem in Hn.
  rewrite (old_site_congr _ _ _ _ contract t (mkUnitCell 0 0 0)) by assumption.
  now apply (old_site_zero _ _ _ _ contract).
Qed.

Lemma superlattice_equiv_of_sub (u a b : UnitCell) :
  superlattice_equiv T (uc_sub u a) (uc_sub u b) -> superlattice_equiv T b a.
Proof.
  intros [w Hw]. exists w. rewrite <- Hw.
  destruct u, a, b. unfold uc_sub. simpl. f_equal; lia.
Qed.

Lemma stored_permutation (perms : list (list Z)) (ix : Z) (P : list Z) :
  make_translation_permutations ijk bijk = Ok perms ->
  0 <= ix < ijk_total_sites ijk ->
  perms !! Z.to_nat ix = Some P ->
  P = old_site bijk (ijk_of_index ijk ix) <$> index_range (bijk_total_sites bijk).
Proof.
  intros Hok Hix HP.
  rewrite (make_translation_permutations_tables _ _ _ _ contract) in Hok.
  injection Hok as <-.
  rewrite (tables_lookup ijk bijk) in HP by exact Hix. congruence.
Qed.

End translation_group_action.

Section translation_group_action_results.
Import SupercellSymInfo_impl.

(** X12. Under the contract of the index converters, a translation
    permutation moves sites within their sublattice: the site stored at
    position [n] has the sublattice of site [n]. *)
Theorem translation_permutations_keep_sublattice
    (T : Matrix3l) (B : Z)
    (ijk : UnitCellIndexConverter) (bijk : UnitCellCoordIndexConverter)
    (perms : list (list Z)) (ix n : Z) (P : list Z) :
  index_converter_contract T B ijk bijk ->
  make_translation_permutations ijk bijk = Ok perms ->
  0 <= ix < Z.abs (determinant T) ->
  0 <= n < Z.abs (determinant T) * B ->
  perms !! Z.to_nat ix = Some P ->
  sublattice (bijk_of_index bijk (perm_at P n)) =
  sublattice (bijk_of_index bijk n).
Proof.
  intros contract Hok Hix Hn HP.
  rewrite <- (ijk_total _ _ _ _ contract) in Hix.
  rewrite <- (bijk_total _ _ _ _ contract) in Hn.
  rewrite (stored_permutation T B ijk bijk contract perms ix P Hok Hix HP).
  rewrite (perm_at_table bijk) by exact Hn.
  unfold old_site.
  destruct (bijk_representative _ _ _ _ contract
              (ucc_sub (bijk_of_index bijk n) (ijk_of_index ijk ix)))
    as [Hs _].
  - simpl. now apply (bijk_sublattice _ _ _ _ contract).
  - exact Hs.
Qed.

Lemma translation_permutations_keep_sublattice_witness :
  sublattice (bijk_of_index (diagonal_bijk_converter 2 1 1 2)
                (perm_at [1; 0; 3; 2] 2)) =
  sublattice (bijk_of_index (diagonal_bijk_converter 2 1 1 2) 2).
Proof.
  apply (translation_permutations_keep_sublattice
           (diagonal_shape 2 1 1) 2
           (diagonal_ijk_converter 2 1 1) (diagonal_bijk_converter 2 1 1 2)
           [[0; 1; 2; 3]; [1; 0; 3; 2]] 1 2 [1; 0; 3; 2]
           (diagonal_converters_contract 2 1 1
              ltac:(lia) ltac:(lia) ltac:(lia) 2)
           eq_refl);
    [vm_compute; intuition congruence | vm_compute; intuition congruence
     | reflexivity].
Defined.

(** X13. Under the contract of the index converters, the translations act
    simply transitively on every sublattice: for two sites [n] and [m] of
    the same sublattice exactly one translation permutation holds [m] at
    position [n]. *)
Theorem translation_permutations_simply_transitive
    (T : Matrix3l) (B : Z)
    (ijk : UnitCellIndexConverter) (bijk : UnitCellCoordIndexConverter)
    (perms : list (list Z)) (n m : Z) :
  index_converter_contract T B ijk bijk ->
  make_translation_permutations ijk bijk = Ok perms ->
  0 <= n < Z.abs (determinant T) * B ->
  0 <= m < Z.abs (determinant T) * B ->
  sublattice (bijk_of_index bijk n) = sublattice (bijk_of_index bijk m) ->
  exists ix,
    0 <= ix < Z.abs (determinant T) /\
    (exists P, perms !! Z.to_nat ix = Some P /\ perm_at P n = m) /\
    forall ix' P',
      0 <= ix' < Z.abs (determinant T) ->
      perms !! Z.to_nat ix' = Some P' -> perm_at P' n = m -> ix' = ix.
Proof.
  intros contract Hok Hn Hm Hsub.
  rewrite <- (ijk_total _ _ _ _ contract).
  rewrite <- (bijk_total _ _ _ _ contract) in Hn, Hm.
  set (t := uc_sub (unitcell (bijk_of_index bijk n))
                   (unitcell (bijk_of_index bijk m))).
  pose proof (bijk_sublattice _ _ _ _ contract n Hn) as Hbn.
  assert (Hm_t : old_site bijk t n = m).
  { unfold old_site.
    transitivity (bijk_to_index bijk (bijk_of_index bijk m));
      [| now apply (bijk_round_trip _ _ _ _ contract)].
    f_equal. unfold ucc_sub, t. rewrite Hsub.
    destruct (bijk_of_index bijk m) as [b [x y z]].
    destruct (unitcell (bijk_of_index bijk n)) as [x' y' z'].
    unfold uc_sub. simpl. do 2 f_equal; lia. }
  pose proof (ijk_in_range _ _ _ _ contract t) as Hix.
  pose proof (make_translation_permutations_tables _ _ _ _ contract) as Htab.
  rewrite Hok in Htab. injection Htab as ->.
  exists (ijk_to_index ijk t). split; [exact Hix |]. split.
  - eexists. split; [apply (tables_lookup ijk bijk), Hix |].
    rewrite (perm_at_table bijk) by exact Hn.
    rewrite (old_site_congr _ _ _ _ contract _ t) by
      (try exact Hn; apply (ijk_representative _ _ _ _ contract)).
    exact Hm_t.
  - intros ix' P' Hix' HP' Hat.
    rewrite (tables_lookup ijk bijk) in HP' by exact Hix'.
    injection HP' as <-.
    rewrite (perm_at_table bijk) in Hat by exact Hn.
    rewrite <- Hm_t in Hat. unfold old_site in Hat.
    apply (bijk_reduces _ _ _ _ contract) in Hat as [_ Hequiv];
      [| exact Hbn | exact Hbn].
    simpl in Hequiv. apply superlattice_equiv_of_sub in Hequiv.
    apply (ijk_reduces _ _ _ _ contract) in Hequiv.
    rewrite Hequiv. symmetry.
    now apply (ijk_round_trip _ _ _ _ contract).
Qed.

Lemma translation_permutations_simply_transitive_witness :
  exists ix,
    0 <= ix < Z.abs (determinant (diagonal_shape 2 1 1)) /\
    exists P, [[0; 1; 2; 3]; [1; 0; 3; 2]] !! Z.to_nat ix = Some P /\
              perm_at P 2 = 3.
Proof.
  destruct (translation_permutations_simply_transitive
              (diagonal_shape 2 1 1) 2
              (diagonal_ijk_converter 2 1 1) (diagonal_bijk_converter 2 1 1 2)
              [[0; 1; 2; 3]; [1; 0; 3; 2]] 2 3
              (diagonal_converters_contract 2 1 1
                 ltac:(lia) ltac:(lia) ltac:(lia) 2)
              eq_refl
              ltac:(vm_compute; intuition congruence)
              ltac:(vm_compute; intuition congruence)
              eq_refl)
    as (ix & Hix & HP & _).
  exists ix. split; assumption.
Defined.

(** X14. Under the contract of the index converters, the permutation of
    the opposite translation undoes a translation permutation: composing
    the two, in either order, gives the identity [0; 1; ...]. *)
Theorem translation_permutation_inverse
    (T : Matrix3l) (B : Z)
    (ijk : UnitCellIndexConverter) (bijk : UnitCellCoordIndexConverter)
    (perms : list (list Z)) (ix : Z) :
  index_converter_contract T B ijk bijk ->
  make_translation_permutations ijk bijk = Ok perms ->
  0 <= ix < Z.abs (determinant T) ->
  let opposite :=
    ijk_to_index ijk (uc_sub (mkUnitCell 0 0 0) (ijk_of_index ijk ix)) in
  exists P P',
    perms !! Z.to_nat ix = Some P /\
    perms !! Z.to_nat opposite = Some P' /\
    compose_value_flow P P' = index_range (Z.abs (determinant T) * B) /\
    compose_value_flow P' P = index_range (Z.abs (determinant T) * B).
Proof.
  intros contract Hok Hix opposite.
  rewrite <- (ijk_total _ _ _ _ contract) in Hix.
  rewrite <- (bijk_total _ _ _ _ contract).
  pose proof (make_translation_permutations_tables _ _ _ _ contract) as Htab.
  rewrite Hok in Htab. injection Htab as ->.
  set (t := ijk_of_index ijk ix) in *.
  set (t' := ijk_of_index ijk opposite).
  assert (Ht' : superlattice_equiv T t' (uc_sub (mkUnitCell 0 0 0) t)).
  { apply (ijk_representative _ _ _ _ contract). }
  assert (Hzero : superlattice_equiv T (uc_add t t') (mkUnitCell 0 0 0)).
  { replace (mkUnitCell 0 0 0) with (uc_add t (uc_sub (mkUnitCell 0 0 0) t)).
    - apply superlattice_equiv_add; [apply superlattice_equiv_refl | exact Ht'].
    - destruct t. unfold uc_add, uc_sub. simpl. f_equal; lia. }
  eexists _, _.
  split; [apply (tables_lookup ijk bijk), Hix |].
  split; [apply (tables_lookup ijk bijk), (ijk_in_range _ _ _ _ contract) |].
  fold t t'. rewrite !(compose_tables _ _ _ _ contract).
  rewrite (uc_add_comm t' t).
  split; now apply (old_site_table_identity T B ijk bijk contract).
Qed.

Lemma translation_permutation_inverse_witness :
  exists P P',
    [[0; 1; 2]; [2; 0; 1]; [1; 2; 0]] !! Z.to_nat 1 = Some P /\
    [[0; 1; 2]; [2; 0; 1]; [1; 2; 0]] !!
      Z.to_nat (ijk_to_index (diagonal_ijk_converter 3 1 1)
                  (uc_sub (mkUnitCell 0 0 0)
                     (ijk_of_index (diagonal_ijk_converter 3 1 1) 1)))
      = Some P' /\
    compose_value_flow P P' = index_range 3.
Proof.
  destruct (translation_permutation_inverse
              (diagonal_shape 3 1 1) 1
              (diagonal_ijk_converter 3 1 1) (diagonal_bijk_converter 3 1 1 1)
              [[0; 1; 2]; [2; 0; 1]; [1; 2; 0]] 1
              (diagonal_converters_contract 3 1 1
                 ltac:(lia) ltac:(lia) ltac:(lia) 1)
              eq_refl ltac:(vm_compute; intuition congruence))
    as (P & P' & HP & HP' & Hc & _).
  exists P, P'. auto.
Defined.

End translation_group_action_results.

Section factor_group_permutations.
Import SupercellSymInfo_impl.

Variable reps : list UnitCellCoordRep.
Variable bijk : UnitCellCoordIndexConverter.

Lemma factor_group_loop_Ok (operations : list Z) (acc perms : list (list Z)) :
  factor_group_loop reps bijk operations acc = Ok perms <->
  exists new,
    perms = acc ++ new /\
    Forall2 (fun ix P => make_single_factor_group_permutation reps bijk ix = Ok P)
      operations new.
Proof.
  revert acc. induction operations as [| ix rest IH]; intros acc; simpl.
  - split.
    + intros [= <-]. exists []. split; [now rewrite app_nil_r | constructor].
    + intros (new & -> & Hall). inversion Hall. now rewrite app_nil_r.
  - destruct (make_single_factor_group_permutation reps bijk ix) as [P |] eqn:HP;
      simpl.
    + rewrite IH. split.
      * intros (new & -> & Hall). exists (P :: new).
        split; [now rewrite <- app_assoc | now constructor].
      * intros (new & -> & Hall). inversion Hall as [| ? P' ? new' HP' Hall']; subst.
        rewrite HP in HP'. injection HP' as <-.
        exists new'. split; [now rewrite <- app_assoc | exact Hall'].
    + split; [discriminate |].
      intros (new & _ & Hall). inversion Hall as [| ? P' ? new' HP' Hall']; subst.
      rewrite HP in HP'. discriminate.
Qed.

Lemma make_single_factor_group_permutation_Ok (operation_ix : Z) (P : list Z) :
  make_single_factor_group_permutation reps bijk operation_ix = Ok P ->
  exists rep,
    0 <= operation_ix /\ reps !! Z.to_nat operation_ix = Some rep /\
    length P = Z.to_nat (bijk_total_sites bijk) /\
    forall (n : nat) (v : Z),
      P !! n = Some v ->
      v = 0 \/
      (0 <= v < bijk_total_sites bijk /\
       bijk_to_index bijk (copy_apply_ucc rep (bijk_of_index bijk v))
       = Z.of_nat n).
Proof.
  unfold make_single_factor_group_permutation.
  destruct (vector_at reps operation_ix) as [rep |] eqn:Hrep; simpl;
    [| discriminate].
  apply vector_at_Ok in Hrep as [Hix Hrep].
  rewrite assign_transformed_sites_scatter. intros HP.
  apply scatter_sites_entries in HP as (Hlen & _ & Hentries).
  rewrite length_replicate in Hlen.
  exists rep. repeat split; try assumption.
  intros n v Hv. destruct (Hentries n v Hv) as [Hinit | [Hin Hnew]].
  - left. now apply lookup_replicate in Hinit as [-> _].
  - right. apply index_range_elem in Hin. auto.
Qed.

(** X15. Whenever [make_factor_group_permutations] returns, it returns one
    vector per index of the head group, each as long as there are sites;
    every index of the head group selects an existing representation and
    every entry is either the 0 the vector started with or a site that the
    representation carries to that position.  (Nothing checks that every
    entry was written.) *)
Theorem make_factor_group_permutations_shape
    (head_group_index : list Z) (perms : list (list Z)) :
  make_factor_group_permutations head_group_index reps bijk = Ok perms ->
  length perms = length head_group_index /\
  Forall2
    (fun operation_ix P =>
       exists rep,
         0 <= operation_ix /\ reps !! Z.to_nat operation_ix = Some rep /\
         length P = Z.to_nat (bijk_total_sites bijk) /\
         forall (n : nat) (v : Z),
           P !! n = Some v ->
           v = 0 \/
           (0 <= v < bijk_total_sites bijk /\
            bijk_to_index bijk (copy_apply_ucc rep (bijk_of_index bijk v))
            = Z.of_nat n))
    head_group_index perms.
Proof.
  unfold make_factor_group_permutations. intros Hok.
  apply factor_group_loop_Ok in Hok as (new & -> & Hall). simpl.
  split; [symmetry; apply (Forall2_length _ _ _ Hall) |].
  eapply Forall2_impl; [exact Hall |].
  intros ix P HP. now apply make_single_factor_group_permutation_Ok.
Qed.

End factor_group_permutations.

Lemma make_factor_group_permutations_shape_witness :
  length [[0; 1; 2; 3]; [3; 2; 0; 1]] = length [0; 1].
Proof.
  exact (proj1 (make_factor_group_permutations_shape
                  [mkUnitCellCoordRep (fun c => c); clust.mirror_rep]
                  (diagonal_bijk_converter 2 1 1 2) [0; 1]
                  [[0; 1; 2; 3]; [3; 2; 0; 1]] eq_refl)).
Defined.

(** A representation that sends the three sites of a one-cell,
    three-sublattice supercell to sublattice 0 leaves the initial 0 in the
    entries that no site reaches, and the vector is returned as it is. *)
Example make_factor_group_permutations_unchecked :
  SupercellSymInfo_impl.make_factor_group_permutations [0]
    [mkUnitCellCoordRep (fun c => mkUnitCellCoord 0 (unitcell c))]
    (diagonal_bijk_converter 1 1 1 3)
  = Ok [[2; 0; 0]].
Proof. reflexivity. Qed.

Section compatible_representations.
Import SupercellSymInfo_impl.

Variable T : Matrix3l.
Variable B : Z.
Variable ijk : UnitCellIndexConverter.
Variable bijk : UnitCellCoordIndexConverter.
Hypothesis contract : index_converter_contract T B ijk bijk.

(** Where [rep] sends site [l]. *)
Let image_site (rep : UnitCellCoordRep) (l : Z) : Z :=
  bijk_to_index bijk (copy_apply_ucc rep (bijk_of_index bijk l)).

Lemma compatible_valid (rep : UnitCellCoordRep) (c : UnitCellCoord) :
  supercell_compatible T B rep -> 0 <= sublattice c < B ->
  0 <= sublattice (copy_apply_ucc rep c) < B.
Proof.
  intros Hrep Hc.
  apply (Hrep c c Hc eq_refl (superlattice_equiv_refl T _)).
Qed.

Lemma image_site_in_range (rep : UnitCellCoordRep) (l : Z) :
  supercell_compatible T B rep ->
  0 <= l < bijk_total_sites bijk -> 0 <= image_site rep l < bijk_total_sites bijk.
Proof.
  intros Hrep Hl. apply (bijk_in_range _ _ _ _ contract).
  apply (compatible_valid rep _ Hrep).
  now apply (bijk_sublattice _ _ _ _ contract).
Qed.

(** Reading a site back from its index before applying a compatible
    representation does not change the index of the image. *)
Lemma image_of_representative (rep : UnitCellCoordRep) (c : UnitCellCoord) :
  supercell_compatible T B rep -> 0 <= sublattice c < B ->
  image_site rep (bijk_to_index bijk c) = bijk_to_index bijk (copy_apply_ucc rep c).
Proof.
  intros Hrep Hc. unfold image_site.
  destruct (bijk_representative _ _ _ _ contract c Hc) as [Hs He].
  destruct (Hrep (bijk_of_index bijk (bijk_to_index bijk c)) c)
    as (Hv & Hs' & He'); [rewrite Hs; exact Hc | exact Hs | exact He |].
  now apply (bijk_to_index_congr _ _ _ _ contract).
Qed.

Lemma image_site_compose (g h : UnitCellCoordRep) (l : Z) :
  supercell_compatible T B g -> supercell_compatible T B h ->
  0 <= l < bijk_total_sites bijk ->
  image_site g (image_site h l) = image_site (clust.rep_compose g h) l.
Proof.
  intros Hg Hh Hl. unfold image_site at 2.
  rewrite (image_of_representative g) by
    (try exact Hg; apply (compatible_valid h _ Hh);
     now apply (bijk_sublattice _ _ _ _ contract)).
  reflexivity.
Qed.

Lemma image_site_inverse (rep rep' : UnitCellCoordRep) (l : Z) :
  supercell_compatible T B rep -> supercell_compatible T B rep' ->
  inverse_reps rep rep' ->
  0 <= l < bijk_total_sites bijk ->
  image_site rep (image_site rep' l) = l.
Proof.
  intros Hrep Hrep' Hinv Hl.
  rewrite image_site_compose by assumption.
  unfold image_site, clust.rep_compose. simpl.
  rewrite (proj1 (Hinv _)). now apply (bijk_round_trip _ _ _ _ contract).
Qed.

Lemma inverse_reps_sym (rep rep' : UnitCellCoordRep) :
  inverse_reps rep rep' -> inverse_reps rep' rep.
Proof. intros Hinv c. destruct (Hinv c). auto. Qed.

(** The vector built for a compatible representation with a compatible
    inverse is the table of the inverse. *)
Lemma make_single_factor_group_permutation_table
    (reps : list UnitCellCoordRep) (operation_ix : Z)
    (rep rep' : UnitCellCoordRep) :
  0 <= operation_ix -> reps !! Z.to_nat operation_ix = Some rep ->
  supercell_compatible T B rep -> supercell_compatible T B rep' ->
  inverse_reps rep rep' ->
  make_single_factor_group_permutation reps bijk operation_ix =
  Ok (image_site rep' <$> index_range (bijk_total_sites bijk)).
Proof.
  intros Hix Hlook Hrep Hrep' Hinv.
  unfold make_single_factor_group_permutation.
  rewrite (proj2 (vector_at_Ok reps operation_ix rep)) by auto. simpl.
  rewrite assign_transformed_sites_scatter.
  rewrite <- (index_range_to_nat (bijk_total_sites bijk)).
  apply (scatter_sites_full (image_site rep)
           (Z.to_nat (bijk_total_sites bijk)) (image_site rep') 0).
  - intros o Ho. rewrite total_to_nat in *. now apply image_site_in_range.
  - intros n Hn. rewrite total_to_nat in *. now apply image_site_in_range.
  - intros n Hn. rewrite total_to_nat in Hn. now apply image_site_inverse.
  - intros o Ho. rewrite total_to_nat in Ho.
    apply image_site_inverse; auto using inverse_reps_sym.
Qed.

Lemma image_table_Permutation (rep rep' : UnitCellCoordRep) :
  supercell_compatible T B rep -> supercell_compatible T B rep' ->
  inverse_reps rep rep' ->
  image_site rep' <$> index_range (bijk_total_sites bijk)
  ≡ₚ index_range (bijk_total_sites bijk).
Proof.
  intros Hrep Hrep' Hinv.
  apply (bijection_table_Permutation _ (image_site rep') (image_site rep)).
  - intros x Hx. now apply image_site_in_range.
  - intros x Hx. now apply image_site_in_range.
  - intros x Hx. now apply image_site_inverse.
  - intros x Hx. apply image_site_inverse; auto using inverse_reps_sym.
Qed.

End compatible_representations.

Section factor_group_permutation_results.
Import SupercellSymInfo_impl.

Lemma compose_value_flow_tables (total : Z) (f1 f2 : Z -> Z) :
  (forall n, 0 <= n < total -> 0 <= f1 n < total) ->
  compose_value_flow (f1 <$> index_range total) (f2 <$> index_range total) =
  (fun n => f2 (f1 n)) <$> index_range total.
Proof.
  intros Hf1. unfold compose_value_flow. rewrite <- list_fmap_compose.
  apply list_fmap_ext. intros i n Hn.
  apply list_elem_of_lookup_2, index_range_elem in Hn. simpl.
  unfold perm_at. destruct (decide (0 <= f1 n)) as [_ | Hneg];
    [| specialize (Hf1 n Hn); lia].
  rewrite list_lookup_fmap, index_range_lookup by (specialize (Hf1 n Hn); lia).
  simpl. rewrite Z2Nat.id by (specialize (Hf1 n Hn); lia). reflexivity.
Qed.

Lemma compatible_compose (T : Matrix3l) (B : Z) (g h : UnitCellCoordRep) :
  supercell_compatible T B g -> supercell_compatible T B h ->
  supercell_compatible T B (clust.rep_compose g h).
Proof.
  intros Hg Hh c d Hc Hs He. simpl.
  destruct (Hh c d Hc Hs He) as (Hv & Hs' & He').
  apply (Hg _ _ Hv Hs' He').
Qed.

Lemma compatible_ext (T : Matrix3l) (B : Z) (r r' : UnitCellCoordRep) :
  (forall c, copy_apply_ucc r c = copy_apply_ucc r' c) ->
  supercell_compatible T B r' -> supercell_compatible T B r.
Proof.
  intros Hext Hr c d Hc Hs He. rewrite !Hext. now apply Hr.
Qed.

(** X16. Under the contract of the index converters, when every operation
    of the head group has a representation that is compatible with the
    supercell and has a compatible inverse, [make_factor_group_permutations]
    returns, and each vector is a permutation of all the site indices that
    holds, at the position a site is carried to, that site
    ([perm[new] = old]). *)
Theorem make_factor_group_permutations_bijections
    (T : Matrix3l) (B : Z)
    (ijk : UnitCellIndexConverter) (bijk : UnitCellCoordIndexConverter)
    (head_group_index : list Z) (reps : list UnitCellCoordRep) :
  index_converter_contract T B ijk bijk ->
  (forall ix, ix ∈ head_group_index ->
     0 <= ix /\
     exists rep rep',
       reps !! Z.to_nat ix = Some rep /\
       supercell_compatible T B rep /\ supercell_compatible T B rep' /\
       inverse_reps rep rep') ->
  exists perms,
    make_factor_group_permutations head_group_index reps bijk = Ok perms /\
    Forall2
      (fun ix P =>
         P ≡ₚ index_range (Z.abs (determinant T) * B) /\
         forall rep, reps !! Z.to_nat ix = Some rep ->
           forall old, 0 <= old < Z.abs (determinant T) * B ->
             perm_at P
               (bijk_to_index bijk (copy_apply_ucc rep (bijk_of_index bijk old)))
             = old)
      head_group_index perms.
Proof.
  intros contract Hops.
  rewrite <- (bijk_total _ _ _ _ contract).
  assert (Hnew : exists new,
            Forall2 (fun ix P =>
                       make_single_factor_group_permutation reps bijk ix = Ok P /\
                       P ≡ₚ index_range (bijk_total_sites bijk) /\
                       forall rep, reps !! Z.to_nat ix = Some rep ->
                         forall old, 0 <= old < bijk_total_sites bijk ->
                           perm_at P
                             (bijk_to_index bijk
                                (copy_apply_ucc rep (bijk_of_index bijk old)))
                           = old)
                    head_group_index new).
  { induction head_group_index as [| ix rest IH].
    - exists []. constructor.
    - destruct IH as [new Hall]; [intros ix' Hix'; apply Hops; now right |].
      destruct (Hops ix ltac:(left))
        as (Hix & rep & rep' & Hlook & Hrep & Hrep' & Hinv).
      eexists (_ :: new). constructor; [| exact Hall].
      split; [apply (make_single_factor_group_permutation_table T B ijk bijk
                       contract reps ix rep rep' Hix Hlook Hrep Hrep' Hinv) |].
      split; [apply (image_table_Permutation T B ijk bijk contract rep rep'
                       Hrep Hrep' Hinv) |].
      intros rep0 Hrep0 old Hold. rewrite Hlook in Hrep0. injection Hrep0 as <-.
      rewrite (perm_at_table bijk)
        by now apply (image_site_in_range T B ijk bijk contract).
      apply (image_site_inverse T B ijk bijk contract rep' rep);
        auto using inverse_reps_sym. }
  destruct Hnew as [new Hall]. exists new. split.
  - unfold make_factor_group_permutations. apply factor_group_loop_Ok.
    exists new. split; [reflexivity |].
    eapply Forall2_impl; [exact Hall |]. intros ix P HP. apply HP.
  - eapply Forall2_impl; [exact Hall |]. intros ix P HP. apply HP.
Qed.

(** X17. Under the contract of the index converters, the vector that
    [make_factor_group_permutations] returns for an operation whose
    representation fixes every site is the identity [0; 1; ...]. *)
Theorem identity_operation_permutation_is_identity
    (T : Matrix3l) (B : Z)
    (ijk : UnitCellIndexConverter) (bijk : UnitCellCoordIndexConverter)
    (head_group_index : list Z) (reps : list UnitCellCoordRep)
    (perms : list (list Z)) (k : nat) (ix : Z) (rep : UnitCellCoordRep) :
  index_converter_contract T B ijk bijk ->
  make_factor_group_permutations head_group_index reps bijk = Ok perms ->
  head_group_index !! k = Some ix ->
  reps !! Z.to_nat ix = Some rep ->
  (forall c, copy_apply_ucc rep c = c) ->
  perms !! k = Some (index_range (Z.abs (determinant T) * B)).
Proof.
  intros contract Hok Hk Hrep Hfix.
  rewrite <- (bijk_total _ _ _ _ contract).
  unfold make_factor_group_permutations in Hok.
  apply factor_group_loop_Ok in Hok as (new & -> & Hall). simpl.
  destruct (Forall2_lookup_l _ _ _ _ _ Hall Hk) as (P & HP & Hsingle).
  rewrite HP. f_equal.
  assert (Hc : supercell_compatible T B rep).
  { intros c d Hc Hs He. rewrite !Hfix. auto. }
  assert (Hinv : inverse_reps rep rep).
  { intros c. now rewrite !Hfix. }
  assert (Hix : 0 <= ix).
  { apply make_single_factor_group_permutation_Ok in Hsingle
      as (_ & Hix & _). exact Hix. }
  rewrite (make_single_factor_group_permutation_table T B ijk bijk contract
             reps ix rep rep Hix Hrep Hc Hc Hinv) in Hsingle.
  injection Hsingle as <-.
  rewrite <- (list_fmap_id (index_range _)) at 2.
  apply list_fmap_ext. intros i n Hn.
  apply list_elem_of_lookup_2, index_range_elem in Hn. simpl.
  rewrite Hfix. now apply (bijk_round_trip _ _ _ _ contract).
Qed.

(** X18. Under the contract of the index converters, the factor-group
    permutations compose like the operations: for compatible
    representations [g] and [h] with compatible inverses, the value-flow
    composition of the vector of [g] with the vector of [h] is the vector
    of a representation that acts as [g] after [h]. *)
Theorem factor_group_permutations_compose
    (T : Matrix3l) (B : Z)
    (ijk : UnitCellIndexConverter) (bijk : UnitCellCoordIndexConverter)
    (head_group_index : list Z) (reps : list UnitCellCoordRep)
    (perms : list (list Z))
    (kg kh kgh : nat) (ig ih igh : Z) (g g' h h' gh : UnitCellCoordRep)
    (Pg Ph Pgh : list Z) :
  index_converter_contract T B ijk bijk ->
  make_factor_group_permutations head_group_index reps bijk = Ok perms ->
  head_group_index !! kg = Some ig -> reps !! Z.to_nat ig = Some g ->
  head_group_index !! kh = Some ih -> reps !! Z.to_nat ih = Some h ->
  head_group_index !! kgh = Some igh -> reps !! Z.to_nat igh = Some gh ->
  supercell_compatible T B g -> supercell_compatible T B g' ->
  inverse_reps g g' ->
  supercell_compatible T B h -> supercell_compatible T B h' ->
  inverse_reps h h' ->
  (forall c, copy_apply_ucc gh c = copy_apply_ucc g (copy_apply_ucc h c)) ->
  perms !! kg = Some Pg -> perms !! kh = Some Ph -> perms !! kgh = Some Pgh ->
  compose_value_flow Pg Ph = Pgh.
Proof.
  intros contract Hok Hkg Hg Hkh Hh Hkgh Hgh Cg Cg' Ig Ch Ch' Ih Hext
    HPg HPh HPgh.
  unfold make_factor_group_permutations in Hok.
  apply factor_group_loop_Ok in Hok as (new & -> & Hall).
  change ([] ++ new) with new in HPg, HPh, HPgh.
  pose proof (Forall2_lookup_lr _ _ _ _ _ _ Hall Hkg HPg) as Sg.
  pose proof (Forall2_lookup_lr _ _ _ _ _ _ Hall Hkh HPh) as Sh.
  pose proof (Forall2_lookup_lr _ _ _ _ _ _ Hall Hkgh HPgh) as Sgh.
  cbv beta in Sg, Sh, Sgh.
  assert (Hpos : forall ix P,
            make_single_factor_group_permutation reps bijk ix = Ok P -> 0 <= ix).
  { intros ix P HP.
    apply make_single_factor_group_permutation_Ok in HP as (_ & Hix & _).
    exact Hix. }
  assert (Cgh : supercell_compatible T B gh).
  { apply (compatible_ext T B gh (clust.rep_compose g h));
      [exact Hext | now apply compatible_compose]. }
  assert (Cgh' : supercell_compatible T B (clust.rep_compose h' g'))
    by now apply compatible_compose.
  assert (Igh : inverse_reps gh (clust.rep_compose h' g')).
  { intros c. simpl. rewrite !Hext. split.
    - rewrite (proj1 (Ih _)). apply Ig.
    - rewrite (proj2 (Ig _)). apply Ih. }
  rewrite (make_single_factor_group_permutation_table T B ijk bijk contract
             reps ig g g' (Hpos _ _ Sg) Hg Cg Cg' Ig) in Sg.
  rewrite (make_single_factor_group_permutation_table T B ijk bijk contract
             reps ih h h' (Hpos _ _ Sh) Hh Ch Ch' Ih) in Sh.
  rewrite (make_single_factor_group_permutation_table T B ijk bijk contract
             reps igh gh _ (Hpos _ _ Sgh) Hgh Cgh Cgh' Igh) in Sgh.
  injection Sg as <-. injection Sh as <-. injection Sgh as <-.
  rewrite compose_value_flow_tables
    by (intros n Hn; now apply (image_site_in_range T B ijk bijk contract)).
  apply list_fmap_ext. intros i n Hn.
  apply list_elem_of_lookup_2, index_range_elem in Hn.
  now apply (image_site_compose T B ijk bijk contract).
Qed.

End factor_group_permutation_results.

Section factor_group_permutations_of_a_mirror.
Import SupercellSymInfo_impl.

Lemma identity_rep_compatible (T : Matrix3l) (B : Z) :
  supercell_compatible T B (mkUnitCellCoordRep (fun c => c)).
Proof. intros c d Hc Hs He. simpl. auto. Qed.

Lemma identity_rep_inverse :
  inverse_reps (mkUnitCellCoordRep (fun c => c)) (mkUnitCellCoordRep (fun c => c)).
Proof. intros c. split; reflexivity. Qed.

Lemma mirror_rep_compatible (n1 n2 n3 : Z) :
  supercell_compatible (diagonal_shape n1 n2 n3) 2 clust.mirror_rep.
Proof.
  intros [b [i j k]] [b' [i' j' k']] Hb Hs [[w1 w2 w3] Hw].
  simpl in *. subst b'. split; [lia |]. split; [reflexivity |].
  exists (mkUnitCell (- w1) w2 w3).
  unfold uc_sub, mat_vec, diagonal_shape in *. simpl in *.
  inversion Hw. f_equal; lia.
Qed.

Lemma mirror_rep_inverse_compatible (n1 n2 n3 : Z) :
  supercell_compatible (diagonal_shape n1 n2 n3) 2 clust.mirror_rep_inverse.
Proof.
  intros [b [i j k]] [b' [i' j' k']] Hb Hs [[w1 w2 w3] Hw].
  simpl in *. subst b'. split; [lia |]. split; [reflexivity |].
  exists (mkUnitCell (- w1) w2 w3).
  unfold uc_sub, mat_vec, diagonal_shape in *. simpl in *.
  inversion Hw. f_equal; lia.
Qed.

Lemma mirror_reps_inverse :
  inverse_reps clust.mirror_rep clust.mirror_rep_inverse.
Proof.
  intros [b [i j k]]. unfold clust.mirror_rep, clust.mirror_rep_inverse.
  simpl. split; do 2 f_equal; lia.
Qed.

Lemma make_factor_group_permutations_bijections_witness :
  exists perms,
    make_factor_group_permutations [1; 0]
      [mkUnitCellCoordRep (fun c => c); clust.mirror_rep]
      (diagonal_bijk_converter 2 1 1 2) = Ok perms /\
    Forall (fun P => P ≡ₚ index_range
                       (Z.abs (determinant (diagonal_shape 2 1 1)) * 2)) perms.
Proof.
  destruct (make_factor_group_permutations_bijections
              (diagonal_shape 2 1 1) 2
              (diagonal_ijk_converter 2 1 1) (diagonal_bijk_converter 2 1 1 2)
              [1; 0] [mkUnitCellCoordRep (fun c => c); clust.mirror_rep]
              (diagonal_converters_contract 2 1 1
                 ltac:(lia) ltac:(lia) ltac:(lia) 2))
    as (perms & Hok & Hall).
  - intros ix Hix.
    apply elem_of_cons in Hix as [-> | Hix];
      [| apply list_elem_of_singleton in Hix as ->].
    + split; [lia |]. exists clust.mirror_rep, clust.mirror_rep_inverse.
      split; [reflexivity |].
      auto using mirror_rep_compatible, mirror_rep_inverse_compatible,
        mirror_reps_inverse.
    + split; [lia |].
      exists (mkUnitCellCoordRep (fun c => c)), (mkUnitCellCoordRep (fun c => c)).
      split; [reflexivity |].
      auto using identity_rep_compatible, identity_rep_inverse.
  - exists perms. split; [exact Hok |].
    clear Hok. induction Hall as [| ix P ixs Ps HP _ IH]; constructor.
    + apply HP.
    + exact IH.
Defined.

Lemma identity_operation_permutation_is_identity_witness :
  [[3; 2; 0; 1]; [0; 1; 2; 3]] !! 1%nat
  = Some (index_range (Z.abs (determinant (diagonal_shape 2 1 1)) * 2)).
Proof.
  apply (identity_operation_permutation_is_identity
           (diagonal_shape 2 1 1) 2
           (diagonal_ijk_converter 2 1 1) (diagonal_bijk_converter 2 1 1 2)
           [1; 0] [mkUnitCellCoordRep (fun c => c); clust.mirror_rep]
           [[3; 2; 0; 1]; [0; 1; 2; 3]] 1%nat 0
           (mkUnitCellCoordRep (fun c => c))
           (diagonal_converters_contract 2 1 1
              ltac:(lia) ltac:(lia) ltac:(lia) 2)
           eq_refl eq_refl eq_refl).
  intros c. reflexivity.
Defined.

Lemma factor_group_permutations_compose_witness :
  compose_value_flow [3; 2; 0; 1] [2; 3; 1; 0] = [0; 1; 2; 3].
Proof.
  apply (factor_group_permutations_compose
           (diagonal_shape 2 1 1) 2
           (diagonal_ijk_converter 2 1 1) (diagonal_bijk_converter 2 1 1 2)
           [1; 2; 0]
           [mkUnitCellCoordRep (fun c => c); clust.mirror_rep;
            clust.mirror_rep_inverse]
           [[3; 2; 0; 1]; [2; 3; 1; 0]; [0; 1; 2; 3]]
           0%nat 1%nat 2%nat 1 2 0
           clust.mirror_rep clust.mirror_rep_inverse
           clust.mirror_rep_inverse clust.mirror_rep
           (mkUnitCellCoordRep (fun c => c))
           [3; 2; 0; 1] [2; 3; 1; 0] [0; 1; 2; 3]
           (diagonal_converters_contract 2 1 1
              ltac:(lia) ltac:(lia) ltac:(lia) 2)
           eq_refl eq_refl eq_refl eq_refl eq_refl eq_refl eq_refl
           (mirror_rep_compatible 2 1 1) (mirror_rep_inverse_compatible 2 1 1)
           mirror_reps_inverse
           (mirror_rep_inverse_compatible 2 1 1) (mirror_rep_compatible 2 1 1)
           (inverse_reps_sym _ _ mirror_reps_inverse));
    try reflexivity.
  intros c. symmetry. apply mirror_reps_inverse.
Defined.

End factor_group_permutations_of_a_mirror.

(* ===================================================================== *)
(** * Further properties of the orbit enumeration *)

Section ordered_set_members.
Import clust.
Context {A : Type} (less : A -> A -> bool).

Lemma set_emplace_elem (x y : A) (s : list A) :
  y ∈ set_emplace less x s -> y = x \/ y ∈ s.
Proof.
  induction s as [| z s IH]; simpl.
  - intros Hy. apply list_elem_of_singleton in Hy. now left.
  - destruct (less x z).
    + intros Hy. apply elem_of_cons in Hy as [-> | Hy]; auto.
    + destruct (less z x); [| auto].
      intros Hy. apply elem_of_cons in Hy as [-> | Hy]; [right; left |].
      destruct (IH Hy) as [-> | Hs]; [now left | right; now right].
Qed.

Lemma set_insert_range_elem (xs s : list A) (y : A) :
  y ∈ set_insert_range less xs s -> y ∈ xs \/ y ∈ s.
Proof.
  unfold set_insert_range. revert s.
  induction xs as [| x xs IH]; intros s; simpl; [auto |].
  intros Hy. destruct (IH _ Hy) as [Hxs | Hs]; [left; now right |].
  destruct (set_emplace_elem _ _ _ Hs) as [-> | Hs']; [left; left | now right].
Qed.

Lemma set_insert_range_holds (xs s : list A) (x : A) :
  set_holds less s x -> set_holds less (set_insert_range less xs s) x.
Proof. apply (set_holds_foldl_emplace less (fun a => a)). Qed.

(** Neighbours in the list stay in increasing order under [emplace]. *)
Lemma set_emplace_Sorted (x : A) (s : list A) :
  Sorted (fun a b => less a b = true) s ->
  Sorted (fun a b => less a b = true) (set_emplace less x s).
Proof.
  induction 1 as [| z s Hs IH Hz]; simpl.
  - repeat constructor.
  - destruct (less x z) eqn:Hxz.
    + constructor; [now constructor | now constructor].
    + destruct (less z x) eqn:Hzx; [| now constructor].
      constructor; [exact IH |].
      destruct s as [| w s]; simpl.
      * now constructor.
      * apply HdRel_inv in Hz.
        destruct (less x w); [now constructor |].
        destruct (less w x); now constructor.
Qed.

Lemma set_insert_range_Sorted (xs s : list A) :
  Sorted (fun a b => less a b = true) s ->
  Sorted (fun a b => less a b = true) (set_insert_range less xs s).
Proof.
  unfold set_insert_range. revert s.
  induction xs as [| x xs IH]; intros s Hs; simpl; [exact Hs |].
  apply IH, set_emplace_Sorted, Hs.
Qed.


Lemma foldl_emplace_elem {B} (f : B -> A) (xs : list B) (s : list A) (y : A) :
  y ∈ foldl (fun acc b => set_emplace less (f b) acc) s xs ->
  y ∈ s \/ exists b, b ∈ xs /\ y = f b.
Proof.
  revert s. induction xs as [| x xs IH]; intros s; simpl; [auto |].
  intros Hy. destruct (IH _ Hy) as [Hs | (b & Hb & ->)].
  - destruct (set_emplace_elem _ _ _ Hs) as [-> | Hs']; [| now left].
    right. exists x. split; [left | reflexivity].
  - right. exists b. split; [now right | reflexivity].
Qed.

End ordered_set_members.

Section custom_phase_members.
Import clust.
Context {A : Type} (less : A -> A -> bool).
Variable entry : IntegralCluster -> A.
Variable subs : IntegralCluster -> list IntegralCluster.
Variable add : list A -> IntegralClusterOrbitGenerator -> list A.
Hypothesis add_unfold : forall final generator,
  add final generator =
  let final := set_emplace less (entry (prototype generator)) final in
  if include_subclusters generator then
    foldl (fun final value => set_emplace less (entry value) final)
          final (subs (prototype generator))
  else final.

Lemma add_elem final generator y :
  y ∈ add final generator ->
  y ∈ final \/ y = entry (prototype generator) \/
  (include_subclusters generator = true /\
   exists value, value ∈ subs (prototype generator) /\ y = entry value).
Proof.
  rewrite add_unfold. cbv zeta.
  destruct (include_subclusters generator).
  - intros Hy. apply foldl_emplace_elem in Hy as [Hy | (v & Hv & ->)].
    + apply set_emplace_elem in Hy as [-> | Hy]; auto.
    + right. right. split; [reflexivity |]. eauto.
  - intros Hy. apply set_emplace_elem in Hy as [-> | Hy]; auto.
Qed.

Lemma foldl_add_elem generators final y :
  y ∈ foldl add final generators ->
  y ∈ final \/
  exists generator,
    generator ∈ generators /\
    (y = entry (prototype generator) \/
     (include_subclusters generator = true /\
      exists value, value ∈ subs (prototype generator) /\ y = entry value)).
Proof.
  revert final. induction generators as [| g gs IH]; intros final; simpl; [auto |].
  intros Hy. destruct (IH _ Hy) as [Hfinal | (g' & Hg' & Hrel)].
  - apply add_elem in Hfinal as [Hfinal | Hrel]; [now left |].
    right. exists g. split; [left | exact Hrel].
  - right. exists g'. split; [now right | exact Hrel].
Qed.



End custom_phase_members.

Section prim_periodic_enumeration.
Import clust.
Context `{Clusterography}.

Variable prim : BasicStructure.
Variable reps : list UnitCellCoordRep.
Variable site_filter : Site -> bool.
Variable max_length : list Real.

#[local] Abbreviation less := (compare_f (prim_lattice_tol prim)).
#[local] Abbreviation generated :=
  (prim_periodic_generated prim reps site_filter max_length).
#[local] Abbreviation branch_step :=
  (prim_periodic_branch prim reps site_filter max_length).
Let new_entry (pair : pair_type) (site : UnitCellCoord) : pair_type :=
  (make_cluster_invariants (pair.2 ++ [site]) prim,
   prim_periodic_make_canonical reps (pair.2 ++ [site])).

Lemma try_site_elem (cluster_filter : ClusterInvariants -> IntegralCluster -> bool)
    (pair : pair_type) (curr : list pair_type) (site : UnitCellCoord)
    (y : pair_type) :
  y ∈ prim_periodic_try_site prim reps cluster_filter pair curr site ->
  y ∈ curr \/
  ((site ∉ pair.2) /\
   cluster_filter (make_cluster_invariants (pair.2 ++ [site]) prim)
     (pair.2 ++ [site]) = true /\
   y = new_entry pair site).
Proof.
  unfold prim_periodic_try_site, contains. cbv zeta.
  destruct (bool_decide (site ∈ pair.2)) eqn:Hin; [auto |].
  apply bool_decide_eq_false in Hin.
  destruct (cluster_filter _ _) eqn:Hf; simpl; [| auto].
  intros Hy. apply set_emplace_elem in Hy as [-> | Hy]; auto.
Qed.

Lemma try_site_Sorted cluster_filter pair curr site :
  Sorted (fun a b => less a b = true) curr ->
  Sorted (fun a b => less a b = true)
    (prim_periodic_try_site prim reps cluster_filter pair curr site).
Proof.
  intros Hs. unfold prim_periodic_try_site. cbv zeta.
  destruct (contains _ _); [exact Hs |].
  destruct (negb _); [exact Hs |]. now apply set_emplace_Sorted.
Qed.

Lemma try_sites_elem cluster_filter pair sites curr y :
  y ∈ foldl (prim_periodic_try_site prim reps cluster_filter pair) curr sites ->
  y ∈ curr \/
  exists site,
    site ∈ sites /\ (site ∉ pair.2) /\
    cluster_filter (make_cluster_invariants (pair.2 ++ [site]) prim)
      (pair.2 ++ [site]) = true /\
    y = new_entry pair site.
Proof.
  revert curr. induction sites as [| s sites IH]; intros curr; simpl; [auto |].
  intros Hy. destruct (IH _ Hy) as [Hc | (s' & Hs' & Hrel)].
  - apply try_site_elem in Hc as [Hc | Hrel]; [now left |].
    right. exists s. split; [left | exact Hrel].
  - right. exists s'. split; [now right | exact Hrel].
Qed.

Lemma try_pairs_elem cluster_filter sites prevs curr y :
  y ∈ foldl (fun curr pair =>
               foldl (prim_periodic_try_site prim reps cluster_filter pair)
                     curr sites) curr prevs ->
  y ∈ curr \/
  exists pair site,
    pair ∈ prevs /\ site ∈ sites /\ (site ∉ pair.2) /\
    cluster_filter (make_cluster_invariants (pair.2 ++ [site]) prim)
      (pair.2 ++ [site]) = true /\
    y = new_entry pair site.
Proof.
  revert curr. induction prevs as [| p prevs IH]; intros curr; simpl; [auto |].
  intros Hy. destruct (IH _ Hy) as [Hc | (p' & s & Hp' & Hrel)].
  - apply try_sites_elem in Hc as [Hc | (s & Hrel)]; [now left |].
    right. exists p, s. split; [left | exact Hrel].
  - right. exists p', s. split; [now right | exact Hrel].
Qed.

(** What holds of [final] and [prev_branch] when branch [b] is done. *)
Let branch_invariant (b : nat)
    (state : list pair_type * list pair_type) : Prop :=
  (forall p, p ∈ state.1 -> exists b', generated b' p) /\
  (forall p, p ∈ state.2 -> generated b p) /\
  Sorted (fun a c => less a c = true) state.1 /\
  set_holds less state.1 (make_cluster_invariants [] prim, []).

Lemma branch_step_invariant (b : nat) state :
  branch_invariant b state -> (S b < length max_length)%nat ->
  branch_invariant (S b) (branch_step state (S b)).
Proof.
  destruct state as [final prev]. intros (Hfinal & Hprev & Hsorted & Hnull) Hb.
  unfold prim_periodic_branch. cbv zeta. simpl.
  split; [| split; [| split]].
  - intros p Hp. apply set_insert_range_elem in Hp as [Hp | Hp]; eauto.
  - intros p Hp.
    apply try_pairs_elem in Hp as [Hp | (pair & site & Hpair & Hsite & Hrel)].
    + inversion Hp.
    + destruct Hrel as (Hnot & Hfilter & ->).
      apply generated_site; auto.
  - now apply set_insert_range_Sorted.
  - now apply set_insert_range_holds.
Qed.

Lemma branches_invariant (k b : nat) state :
  branch_invariant b state ->
  k = 0%nat \/ (S b + k <= length max_length)%nat ->
  exists b', branch_invariant b' (foldl branch_step state (seq (S b) k)).
Proof.
  revert b state. induction k as [| k IH]; intros b state Hinv Hk; simpl.
  - eauto.
  - destruct Hk as [Hk | Hk]; [discriminate |].
    apply (IH (S b)).
    + apply branch_step_invariant; [exact Hinv | lia].
    + destruct k; [now left | right; lia].
Qed.

Lemma initial_branch_invariant :
  branch_invariant 0
    (set_emplace less (make_cluster_invariants [] prim, []) [],
     set_emplace less (make_cluster_invariants [] prim, []) []).
Proof.
  simpl. split; [| split; [| split]].
  - intros p Hp. apply list_elem_of_singleton in Hp as ->.
    exists 0%nat. constructor.
  - intros p Hp. apply list_elem_of_singleton in Hp as ->. constructor.
  - repeat constructor.
  - exists (make_cluster_invariants [] prim, []). split; [left | now left].
Qed.

Lemma all_branches_invariant :
  exists b',
    branch_invariant b'
      (foldl branch_step
         (set_emplace less (make_cluster_invariants [] prim, []) [],
          set_emplace less (make_cluster_invariants [] prim, []) [])
         (seq 1 (length max_length - 1))).
Proof.
  apply branches_invariant; [apply initial_branch_invariant |].
  destruct (length max_length) as [| n]; [now left | right; lia].
Qed.

End prim_periodic_enumeration.

Section orbit_enumeration_results.
Import clust.
Context `{Clusterography}.



(** X20. [make_prim_periodic_orbits] puts nothing else into its final
    cluster set: every element is the null cluster, or was generated in a
    branch - the canonical form of an element of the previous branch
    extended by a candidate site it did not contain, the extension having
    passed the cluster filter of the branch - or comes from a custom
    generator (its prototype or, when asked, one of its subclusters). *)
Theorem prim_periodic_final_members
    (prim : BasicStructure) (reps : list UnitCellCoordRep)
    (site_filter : Site -> bool) (max_length : list Real)
    (custom_generators : list IntegralClusterOrbitGenerator)
    (pair : ClusterInvariants * IntegralCluster) :
  pair ∈ prim_periodic_final prim reps site_filter max_length custom_generators ->
  (exists branch,
     prim_periodic_generated prim reps site_filter max_length branch pair) \/
  from_custom_generator prim reps custom_generators pair.
Proof.
  unfold prim_periodic_final. cbv zeta.
  destruct (all_branches_invariant prim reps site_filter max_length)
    as (b' & Hfinal & Hprev & _ & _).
  destruct (foldl _ _ (seq 1 _)) as [final prev]. simpl in Hfinal, Hprev.
  intros Hpair.
  apply (foldl_add_elem _ (canonical_entry prim reps) sub_clusters
           (prim_periodic_add_custom_generator prim reps) ltac:(reflexivity))
    in Hpair as [Hpair | Hcustom].
  - left. apply set_insert_range_elem in Hpair as [Hpair | Hpair]; eauto.
  - right. exact Hcustom.
Qed.


End orbit_enumeration_results.

Section orbit_enumeration_small.
Import clust.




Lemma prim_periodic_final_members_witness :
  let generator :=
    mkIntegralClusterOrbitGenerator
      [mkUnitCellCoord 1 (mkUnitCell 2 0 0); mkUnitCellCoord 0 (mkUnitCell 3 1 0)]
      true in
  let reps := [mkUnitCellCoordRep (fun c => c); mirror_rep] in
  let accept_all_sites := fun _ : UnitCellCoord => true in
  let pair : nat * IntegralCluster :=
    (1%nat, [mkUnitCellCoord 0 (mkUnitCell 0 0 0)]) in
  (exists branch,
     @prim_periodic_generated small_clusterography tt reps accept_all_sites
       [0; 0; 0] branch pair) \/
  @from_custom_generator small_clusterography tt reps [generator] pair.
Proof.
  intros generator reps accept_all_sites pair.
  apply (@prim_periodic_final_members small_clusterography tt reps
           accept_all_sites [0; 0; 0] [generator] pair).
  apply list_elem_of_lookup_2 with 1%nat. vm_compute. reflexivity.
Defined.


End orbit_enumeration_small.

(* ===================================================================== *)
(** * Further properties of the canonical forms *)

Section invariant_site_sets.
Import config.

(** A bijection that maps a set of sites into itself maps no other site
    into the set. *)
Lemma closed_set_keeps_outside (f : Z -> Z) (n : Z) (S : gset Z) :
  bijection_of_sites n f ->
  (forall s, s ∈ S -> 0 <= s < n) ->
  (forall s, s ∈ S -> f s ∈ S) ->
  forall s, 0 <= s < n -> s ∉ S -> f s ∉ S.
Proof.
  intros (Hrange & Hinj & _) HS Hclosed s Hs Hout Hin.
  destruct (closed_injective_onto f S) with (x := f s) as (s0 & Hs0 & Heq);
    [| exact Hclosed | exact Hin |].
  { intros a b Ha Hb. apply Hinj; now apply HS. }
  apply Hinj in Heq; [| now apply HS | exact Hs]. congruence.
Qed.

Lemma other_sites_elem (n : Z) (S : gset Z) (s : Z) :
  s ∈ (list_to_set (index_range n) ∖ S : gset Z) <-> 0 <= s < n /\ s ∉ S.
Proof. rewrite elem_of_difference, elem_of_list_to_set, index_range_elem. tauto. Qed.

(** X22. For an operation whose [permute_index] is a bijection of the site
    indices [0 .. n-1], [site_indices_are_invariant] gives the same answer
    for a set of site indices and for the set of all the other site indices:
    the operation mixes given sites with other sites exactly when it mixes
    the other sites with the given ones. *)
Theorem site_indices_are_invariant_complement
    (op : SupercellSymOp) (n : Z) (S : gset Z) :
  bijection_of_sites n (permute_index op) ->
  (forall s, s ∈ S -> 0 <= s < n) ->
  site_indices_are_invariant op (list_to_set (index_range n) ∖ S) =
  site_indices_are_invariant op S.
Proof.
  intros Hbij HS. apply Bool.eq_true_iff_eq.
  rewrite !site_indices_are_invariant_spec.
  split.
  - intros Hclosed s Hs.
    pose proof (closed_set_keeps_outside _ n _ Hbij
                  (fun s Hs => proj1 (proj1 (other_sites_elem n S s) Hs))
                  Hclosed) as Hout.
    destruct (decide (permute_index op s ∈ S)) as [Hin | Hn]; [exact Hin |].
    exfalso. apply (Hout s (HS s Hs)).
    + rewrite other_sites_elem. tauto.
    + apply other_sites_elem. split; [apply Hbij, HS, Hs | exact Hn].
  - intros Hclosed s Hs. apply other_sites_elem in Hs as [Hr Hout].
    apply other_sites_elem. split; [now apply Hbij |].
    now apply (closed_set_keeps_outside _ n _ Hbij HS Hclosed).
Qed.

Lemma shift_by_two_bijection :
  bijection_of_sites 4 (permute_index (mkSupercellSymOp (fun s => (s + 2) mod 4))).
Proof.
  unfold bijection_of_sites. simpl. split; [| split].
  - intros s _. apply Z.mod_pos_bound. lia.
  - intros s s' Hs Hs' Heq.
    assert (s = 0 \/ s = 1 \/ s = 2 \/ s = 3) as Hc by lia.
    assert (s' = 0 \/ s' = 1 \/ s' = 2 \/ s' = 3) as Hc' by lia.
    destruct Hc as [-> | [-> | [-> | ->]]], Hc' as [-> | [-> | [-> | ->]]];
      vm_compute in Heq; congruence.
  - intros s' Hs'. exists ((s' + 2) mod 4).
    assert (s' = 0 \/ s' = 1 \/ s' = 2 \/ s' = 3) as Hc by lia.
    destruct Hc as [-> | [-> | [-> | ->]]]; vm_compute; intuition congruence.
Qed.

Lemma site_indices_are_invariant_complement_witness :
  site_indices_are_invariant (mkSupercellSymOp (fun s => (s + 2) mod 4))
    (list_to_set (index_range 4) ∖ {[ 1; 3 ]}) =
  site_indices_are_invariant (mkSupercellSymOp (fun s => (s + 2) mod 4))
    {[ 1; 3 ]}.
Proof.
  apply (site_indices_are_invariant_complement _ 4 {[ 1; 3 ]}
           shift_by_two_bijection).
  intros s. rewrite elem_of_union, !elem_of_singleton. lia.
Defined.

(** X23. The sets of site indices that an operation leaves invariant are
    closed under union and intersection: when
    [site_indices_are_invariant] holds of two sets it holds of both. *)
Theorem site_indices_are_invariant_union_intersection
    (op : SupercellSymOp) (S T : gset Z) :
  site_indices_are_invariant op S = true ->
  site_indices_are_invariant op T = true ->
  site_indices_are_invariant op (S ∪ T) = true /\
  site_indices_are_invariant op (S ∩ T) = true.
Proof.
  rewrite !site_indices_are_invariant_spec. intros HS HT. split; intros s.
  - rewrite !elem_of_union. intros [Hs | Hs]; [left | right]; auto.
  - rewrite !elem_of_intersection. intros [Hs Ht]. split; auto.
Qed.

Lemma site_indices_are_invariant_union_intersection_witness :
  site_indices_are_invariant (mkSupercellSymOp (fun s => (s + 2) mod 4))
    ({[ 1; 3 ]} ∪ {[ 0; 1; 2; 3 ]}) = true /\
  site_indices_are_invariant (mkSupercellSymOp (fun s => (s + 2) mod 4))
    ({[ 1; 3 ]} ∩ {[ 0; 1; 2; 3 ]}) = true.
Proof.
  apply (site_indices_are_invariant_union_intersection
           (mkSupercellSymOp (fun s => (s + 2) mod 4)));
    vm_compute; reflexivity.
Defined.

(** X24. A set of site indices that two operations leave invariant is left
    invariant by the operation that applies one after the other, whose
    [permute_index] is the composition of theirs. *)
Theorem site_indices_are_invariant_compose
    (op1 op2 : SupercellSymOp) (S : gset Z) :
  site_indices_are_invariant op1 S = true ->
  site_indices_are_invariant op2 S = true ->
  site_indices_are_invariant
    (mkSupercellSymOp (fun s => permute_index op1 (permute_index op2 s))) S
  = true.
Proof.
  rewrite !site_indices_are_invariant_spec. simpl. auto.
Qed.

Lemma site_indices_are_invariant_compose_witness :
  site_indices_are_invariant
    (mkSupercellSymOp
       (fun s =>
          permute_index (mkSupercellSymOp (fun s => (s + 2) mod 4))
            (permute_index (mkSupercellSymOp (fun s => 3 - s)) s)))
    {[ 0; 1; 2; 3 ]} = true.
Proof.
  apply (site_indices_are_invariant_compose
           (mkSupercellSymOp (fun s => (s + 2) mod 4))
           (mkSupercellSymOp (fun s => 3 - s)));
    vm_compute; reflexivity.
Defined.

End invariant_site_sets.

Section canonical_supercell_round_trip.
Import config.
Context `{Crystallography}.

(** X25. When lattice equality is reflexive, the canonical lattice is the
    image of the super-lattice under an operation of the point group, and
    every operation of the point group is undone by one of the point group,
    [from_canonical] does not throw: it returns an operation of the point
    group that maps the super-lattice of [make_canonical_form] back to the
    super-lattice of the supercell. *)
Theorem from_canonical_finds_operation (sc : Supercell) :
  let pg := element (point_group (sym_info (sc_prim sc))) in
  let lhs := sl_superlattice (sc_superlattice sc) in
  (forall L, lattice_eqb L L = true) ->
  in_orbit pg lhs (canonical_equivalent lhs pg (lattice_tol lhs)) ->
  (forall g, g ∈ pg ->
     exists h, h ∈ pg /\
       forall L, sym_copy_apply h (sym_copy_apply g L) = L) ->
  exists g,
    from_canonical sc = Ok g /\ g ∈ pg /\
    lattice_eqb lhs
      (sym_copy_apply g
         (sl_superlattice (sc_superlattice (make_canonical_form sc)))) = true.
Proof.
  intros pg lhs Hrefl (g & Hg & Hcan) Hinv.
  destruct (Hinv g Hg) as (h & Hh & Hhg).
  unfold make_canonical_form. simpl. fold pg lhs.
  destruct (from_canonical sc) as [g' | e] eqn:Hfc; unfold from_canonical in Hfc;
    fold pg lhs in Hfc.
  - exists g'. split; [reflexivity |].
    apply from_canonical_search_ok in Hfc as (before & after & Heq & Hm & _).
    split; [| exact Hm].
    rewrite Heq. apply elem_of_app. right. left.
  - exfalso. apply from_canonical_search_err in Hfc as [_ Hall].
    specialize (Hall h Hh). rewrite Hcan, Hhg, Hrefl in Hall. discriminate.
Qed.

End canonical_supercell_round_trip.

Section equivalent_supercells.
Import config.
Context `{LatticeCanonicalForms}.

Lemma set_emplace_length {A} (less : A -> A -> bool) (x : A) (s : list A) :
  (length s <= length (clust.set_emplace less x s) <= S (length s))%nat.
Proof.
  induction s as [| z s IH]; simpl; [lia |].
  destruct (less x z); simpl; [lia |].
  destruct (less z x); simpl; lia.
Qed.

(** The operations that the loop of [representation_prepare] collects when
    every index is inside the point group. *)
Lemma select_operations_in_range (point_group : list SymOp) (indices : list Z)
    (invariant_subgroup : list SymOp) :
  (forall i, i ∈ indices -> 0 <= i < Z.of_nat (length point_group)) ->
  select_operations point_group indices invariant_subgroup =
  Ok (invariant_subgroup ++
      omap (fun i => point_group !! Z.to_nat i) indices).
Proof.
  revert invariant_subgroup.
  induction indices as [| i rest IH]; intros acc Hin; simpl.
  - now rewrite app_nil_r.
  - destruct (vector_at_in_range point_group i) as [op Hop]; [apply Hin; left |].
    rewrite Hop. simpl.
    apply vector_at_Ok in Hop as [_ Hop]. rewrite Hop.
    rewrite IH; [| intros j Hj; apply Hin; now right].
    now rewrite <- app_assoc.
Qed.

Lemma representation_prepare_in_range (point_group : list SymOp) (L : Lattice) :
  (forall i, i ∈ invariant_subgroup_indices L point_group ->
     0 <= i < Z.of_nat (length point_group)) ->
  representation_prepare point_group L =
  Ok (canonical_equivalent_in L
        (omap (fun i => point_group !! Z.to_nat i)
           (invariant_subgroup_indices L point_group))).
Proof.
  intros Hin. unfold representation_prepare.
  now rewrite (select_operations_in_range _ _ [] Hin).
Qed.

(** What the loop over the point group does to the set of lattices. *)
Lemma make_equivalents_loop_spec (pg : list SymOp) (init : Lattice)
    (ops : list SymOp) (acc ls : list Lattice) :
  make_equivalents_loop pg init ops acc = Ok ls ->
  (forall L, L ∈ ls ->
     L ∈ acc \/
     exists op, op ∈ ops /\
       representation_prepare pg (sym_copy_apply op init) = Ok L) /\
  (forall op, op ∈ ops ->
     exists L, representation_prepare pg (sym_copy_apply op init) = Ok L /\
       clust.set_holds lattice_less ls L) /\
  (forall L, clust.set_holds lattice_less acc L ->
     clust.set_holds lattice_less ls L) /\
  (Sorted (fun a b => lattice_less a b = true) acc ->
   Sorted (fun a b => lattice_less a b = true) ls) /\
  (length acc <= length ls <= length acc + length ops)%nat /\
  (ops <> [] -> ls <> []).
Proof.
  revert acc. induction ops as [| op rest IH]; intros acc; simpl.
  - intros [= <-]. repeat split; auto; try lia.
    intros op Hop. inversion Hop.
  - destruct (representation_prepare pg (sym_copy_apply op init))
      as [L0 | e] eqn:Hprep; simpl; [| discriminate].
    intros Hloop.
    destruct (IH _ Hloop) as (Hfrom & Hcover & Hkeep & Hsorted & Hlen & _).
    pose proof (set_emplace_length lattice_less L0 acc) as Hlen0.
    split; [| split; [| split; [| split; [| split]]]].
    + intros L HL. destruct (Hfrom L HL) as [Hacc | (op' & Hop' & Heq)].
      * apply set_emplace_elem in Hacc as [-> | Hacc]; [right | now left].
        exists op. split; [left | exact Hprep].
      * right. exists op'. split; [now right | exact Heq].
    + intros op' Hop'. apply elem_of_cons in Hop' as [-> | Hop'].
      * exists L0. split; [exact Hprep |]. apply Hkeep, set_emplace_holds.
      * apply Hcover, Hop'.
    + intros L HL. apply Hkeep, set_holds_emplace, HL.
    + intros Hs. apply Hsorted, set_emplace_Sorted, Hs.
    + simpl. lia.
    + intros _ ->. simpl in Hlen.
      destruct acc as [| z acc]; [simpl in Hlen; lia |].
      cbn [length] in Hlen0. lia.
Qed.

(** X26. When every index that [invariant_subgroup_indices] returns is
    inside the point group, [make_equivalents] returns supercells; each of
    them has the prim of the given supercell; the lattice of each is the
    canonical equivalent, within the invariant subgroup of the image, of the
    image of the given super-lattice under an operation of the point group;
    and for every operation of the point group that lattice, or a lattice
    that the order of lattices does not tell from it, is among the
    results. *)
Theorem make_equivalents_covers_point_group (supercell : Supercell) :
  let pg := element (point_group (sym_info (sc_prim supercell))) in
  let init := sl_superlattice (sc_superlattice supercell) in
  let prepared := fun L =>
    canonical_equivalent_in L
      (omap (fun i => pg !! Z.to_nat i) (invariant_subgroup_indices L pg)) in
  (forall op i, op ∈ pg ->
     i ∈ invariant_subgroup_indices (sym_copy_apply op init) pg ->
     0 <= i < Z.of_nat (length pg)) ->
  exists result,
    make_equivalents supercell = Ok result /\
    (forall sc, sc ∈ result ->
       sc_prim sc = sc_prim supercell /\
       exists op, op ∈ pg /\
         sl_superlattice (sc_superlattice sc) =
         prepared (sym_copy_apply op init)) /\
    (forall op, op ∈ pg ->
       clust.set_holds lattice_less
         ((fun sc => sl_superlattice (sc_superlattice sc)) <$> result)
         (prepared (sym_copy_apply op init))).
Proof.
  intros pg init prepared Hidx.
  assert (Hprep : forall op, op ∈ pg ->
            representation_prepare pg (sym_copy_apply op init) =
            Ok (prepared (sym_copy_apply op init))).
  { intros op Hop. apply representation_prepare_in_range.
    intros i. apply Hidx, Hop. }
  assert (Hloop : forall ops acc, (forall op, op ∈ ops -> op ∈ pg) ->
            exists ls, make_equivalents_loop pg init ops acc = Ok ls).
  { induction ops as [| op rest IH]; intros acc Hsub; simpl; [eauto |].
    rewrite Hprep by (apply Hsub; left). simpl.
    apply IH. intros op' Hop'. apply Hsub. now right. }
  destruct (Hloop pg [] (fun _ Hop => Hop)) as [ls Hls].
  unfold make_equivalents. fold pg init. rewrite Hls.
  destruct (make_equivalents_loop_spec _ _ _ _ _ Hls)
    as (Hfrom & Hcover & _).
  eexists. split; [reflexivity |]. split.
  - intros sc Hsc. apply list_elem_of_fmap in Hsc as (L & -> & HL).
    split; [reflexivity |]. simpl.
    destruct (Hfrom L HL) as [Hnil | (op & Hop & Heq)]; [inversion Hnil |].
    exists op. split; [exact Hop |].
    rewrite (Hprep op Hop) in Heq. now injection Heq as <-.
  - intros op Hop. destruct (Hcover op Hop) as (L & Heq & Hholds).
    rewrite (Hprep op Hop) in Heq. injection Heq as <-.
    change (List.map (supercell_of_lattice (sc_prim supercell)) ls)
      with (supercell_of_lattice (sc_prim supercell) <$> ls).
    rewrite <- list_fmap_compose.
    rewrite (list_fmap_ext _ id ls); [now rewrite list_fmap_id |].
    intros i x _. reflexivity.
Qed.


End equivalent_supercells.

Section equivalent_supercells_on_a_line.
Import config.

#[local] Existing Instance line_crystallography.
#[local] Existing Instance line_canonical_forms.

Lemma from_canonical_finds_operation_witness :
  exists g,
    from_canonical (line_supercell [1; -1] (-3)) = Ok g /\
    g ∈ [1; -1] /\
    lattice_eqb (-3)
      (sym_copy_apply g
         (sl_superlattice
            (sc_superlattice
               (make_canonical_form (line_supercell [1; -1] (-3)))))) = true.
Proof.
  apply (from_canonical_finds_operation (line_supercell [1; -1] (-3))).
  - intros L. apply Z.eqb_refl.
  - exists (-1). split; [right; left | reflexivity].
  - intros g Hg. exists g. split; [exact Hg |].
    intros L. simpl.
    apply elem_of_cons in Hg as [-> | Hg];
      [| apply list_elem_of_singleton in Hg as ->]; lia.
Defined.

Lemma make_equivalents_covers_point_group_witness :
  exists result,
    make_equivalents (line_supercell [1; -1] (-3)) = Ok result /\
    (forall sc, sc ∈ result ->
       sc_prim sc = sc_prim (line_supercell [1; -1] (-3)) /\
       exists op, op ∈ [1; -1] /\
         sl_superlattice (sc_superlattice sc) =
         canonical_equivalent_in (sym_copy_apply op (-3))
           (omap (fun i => [1; -1] !! Z.to_nat i)
              (invariant_subgroup_indices (sym_copy_apply op (-3)) [1; -1]))) /\
    (forall op, op ∈ [1; -1] ->
       clust.set_holds lattice_less
         ((fun sc => sl_superlattice (sc_superlattice sc)) <$> result)
         (canonical_equivalent_in (sym_copy_apply op (-3))
            (omap (fun i => [1; -1] !! Z.to_nat i)
               (invariant_subgroup_indices (sym_copy_apply op (-3)) [1; -1])))).
Proof.
  apply (make_equivalents_covers_point_group (line_supercell [1; -1] (-3))).
  intros op i _ Hi.
  change (i ∈ List.filter
                (fun i => match [1; -1] !! Z.to_nat i with
                          | Some g => bool_decide (g * (op * -3) = op * -3)
                          | None => false
                          end) (index_range 2)) in Hi.
  apply list_elem_of_In, filter_In in Hi as [Hi _].
  apply list_elem_of_In, index_range_elem in Hi. simpl. lia.
Defined.


End equivalent_supercells_on_a_line.
